(** * StrictDB: a shallow embedding of the translation engine, the guardrails,
      the sanitizer, the error taxonomy and the batch accounting.

    The definitions follow the TypeScript sources function by function
    ([filter-translator.ts], [guardrails.ts], [sanitize.ts], [errors.ts],
    [receipts.ts], [timestamps.ts], [strictdb.ts], [adapters/sql-adapter.ts]).

    Conventions of the embedding:
    - JavaScript values are an inductive type; an object is the list of its
      own enumerable entries in [Object.entries] order.  Objects are plain
      data: members inherited from [Object.prototype] are not modelled.
    - A thrown exception is the [Throw] branch of [result]; a loop that pushes
      to arrays and advances a counter is a recursive function over its
      accumulator.
    - An asynchronous call on the adapter is a function of the world (the
      database behind the driver, and the clock).
    - Where identity of objects matters (the sanitizer), objects live in a
      heap and are addressed by their position.
    - A string is the sequence of its code units, taken below 256. *)

From Stdlib Require Import ZArith List String Ascii Bool Lia Arith.
From Stdlib Require Import Decimal DecimalString DecimalNat.
Import ListNotations.
Open Scope string_scope.

Set Implicit Arguments.
Set Warnings "-register-all".

(* ================================================================== *)
(** ** JavaScript values *)
(* ================================================================== *)

(** Numbers are the integer-valued ones whose [String(n)] is plain decimal
    (magnitude below 1e21).  A [Date] is carried by its [String()] text,
    a [RegExp] by its source and flags. *)
Inductive value : Type :=
| VUndefined
| VNull
| VBool (b : bool)
| VNum (n : Z)
| VStr (s : string)
| VDate (repr : string)
| VRegExp (source flags : string)
| VArr (items : list value)
| VObj (entries : list (string * value)).

(** [Record<string, unknown>]: own enumerable entries, in enumeration order. *)
Definition Record := list (string * value).

(* ================================================================== *)
(** ** Error taxonomy ([types.ts], [errors.ts]) *)
(* ================================================================== *)

Inductive Backend := mongo | sql | elastic.

Inductive SqlDialect := pg | mysql2 | mssql | sqlite.

Inductive StrictErrorCode :=
| CONNECTION_FAILED | CONNECTION_LOST | AUTHENTICATION_FAILED | TIMEOUT
| POOL_EXHAUSTED | DUPLICATE_KEY | VALIDATION_ERROR | COLLECTION_NOT_FOUND
| QUERY_ERROR | GUARDRAIL_BLOCKED | UNKNOWN_OPERATOR | SCHEMA_MISMATCH
| UNSUPPORTED_OPERATION | INTERNAL_ERROR.

(** The options object handed to [new StrictDBError(opts)]. *)
Record ErrorOpts := mkOpts {
  o_code : StrictErrorCode;
  o_message : string;
  o_fix : string;
  o_backend : Backend;
  o_collection : option string;
  o_operation : option string;
  o_retryable : option bool
}.

(** The fields of a [StrictDBError] instance.  The wall-clock [timestamp]
    and the opaque [originalError] are left out. *)
Record StrictDBError := mkError {
  code : StrictErrorCode;
  message : string;
  fix_ : string;
  backend : Backend;
  collection : option string;
  operation : option string;
  retryable : bool
}.

(** The constructor: [super(`${message} Fix: ${fix}`)], [retryable ?? false]. *)
Definition newStrictDBError (opts : ErrorOpts) : StrictDBError :=
  {| code := o_code opts;
     message := o_message opts ++ " Fix: " ++ o_fix opts;
     fix_ := o_fix opts;
     backend := o_backend opts;
     collection := o_collection opts;
     operation := o_operation opts;
     retryable := match o_retryable opts with Some b => b | None => false end |}.

(** [ERROR_RETRYABLE] *)
Definition ERROR_RETRYABLE (c : StrictErrorCode) : bool :=
  match c with
  | CONNECTION_FAILED => true
  | CONNECTION_LOST => true
  | AUTHENTICATION_FAILED => false
  | TIMEOUT => true
  | POOL_EXHAUSTED => true
  | DUPLICATE_KEY => false
  | VALIDATION_ERROR => false
  | COLLECTION_NOT_FOUND => false
  | QUERY_ERROR => false
  | GUARDRAIL_BLOCKED => false
  | UNKNOWN_OPERATOR => false
  | SCHEMA_MISMATCH => false
  | UNSUPPORTED_OPERATION => false
  | INTERNAL_ERROR => false
  end.

(** A driver-native or runtime error object, as the mappers read it: its
    [code] property, its [message] property when it is a string, and its
    [String()] text. *)
Record NativeError := mkNative {
  ne_code : option string;
  ne_message : option string;
  ne_text : string
}.

(** What a call can throw: a normalized error, or a native error. *)
Inductive exn :=
| StrictErr (e : StrictDBError)
| NativeErr (e : NativeError).

(** A [TypeError] raised by the runtime. *)
Definition TypeError (what : string) : exn :=
  NativeErr {| ne_code := None; ne_message := Some what; ne_text := "TypeError: " ++ what |}.

Inductive result (A : Type) : Type :=
| Ok (a : A)
| Throw (e : exn).
Arguments Ok {A} a.
Arguments Throw {A} e.

Definition throws {A} (r : result A) : bool :=
  match r with Ok _ => false | Throw _ => true end.

Definition thrown_code {A} (r : result A) : option StrictErrorCode :=
  match r with
  | Throw (StrictErr e) => Some (code e)
  | _ => None
  end.

(* ================================================================== *)
(** ** Strings *)
(* ================================================================== *)

(** The double-quote character and one-character strings. *)
Definition dquote : ascii := ascii_of_nat 34.
Definition str1 (c : ascii) : string := String c EmptyString.
Definition DQ : string := str1 dquote.

(** [`"${s}"`] *)
Definition in_quotes (s : string) : string := DQ ++ s ++ DQ.

(** [`${n}`] for a non-negative integer, and for any integer. *)
Definition nat_to_string (n : nat) : string :=
  NilEmpty.string_of_uint (Nat.to_uint n).

Definition Z_to_string (z : Z) : string :=
  match z with
  | Z0 => "0"
  | Zpos p => nat_to_string (Pos.to_nat p)
  | Zneg p => "-" ++ nat_to_string (Pos.to_nat p)
  end.

(** [xs.push(x)] and [xs.push(...ys)] *)
Definition push {A} (xs : list A) (x : A) : list A := (xs ++ [x])%list.
Definition push_all {A} (xs ys : list A) : list A := (xs ++ ys)%list.

(** [Array.prototype.join] *)
Fixpoint join (sep : string) (xs : list string) : string :=
  match xs with
  | [] => EmptyString
  | x :: rest =>
      match rest with
      | [] => x
      | _ :: _ => x ++ sep ++ join sep rest
      end
  end.

(** [s.startsWith('$')] *)
Definition starts_with_dollar (s : string) : bool :=
  match s with
  | String c _ => Ascii.eqb c "$"
  | EmptyString => false
  end.

Definition is_empty_string (s : string) : bool :=
  match s with EmptyString => true | String _ _ => false end.

(** [s.startsWith(p)] *)
Definition startsWith (p s : string) : bool := String.prefix p s.

(** [s.includes(p)] *)
Fixpoint includes (p s : string) : bool :=
  String.prefix p s ||
  match s with
  | EmptyString => false
  | String _ r => includes p r
  end.

(** The last character, if any, and the string without it. *)
Fixpoint last_char (s : string) : option ascii :=
  match s with
  | EmptyString => None
  | String c r => match r with EmptyString => Some c | String _ _ => last_char r end
  end.

Fixpoint drop_last (s : string) : string :=
  match s with
  | EmptyString => EmptyString
  | String c r => match r with EmptyString => EmptyString | String _ _ => String c (drop_last r) end
  end.

(* ================================================================== *)
(** ** JavaScript coercions *)
(* ================================================================== *)

(** Truthiness: [!v] is [negb (truthy v)]. *)
Definition truthy (v : value) : bool :=
  match v with
  | VUndefined | VNull => false
  | VBool b => b
  | VNum n => negb (Z.eqb n 0)
  | VStr s => negb (is_empty_string s)
  | VDate _ | VRegExp _ _ | VArr _ | VObj _ => true
  end.

(** [String(v)].  An array joins the strings of its items with a comma,
    [null] and [undefined] items giving the empty string. *)
Fixpoint js_String (v : value) : string :=
  match v with
  | VUndefined => "undefined"
  | VNull => "null"
  | VBool true => "true"
  | VBool false => "false"
  | VNum n => Z_to_string n
  | VStr s => s
  | VDate repr => repr
  | VRegExp source flags => "/" ++ source ++ "/" ++ flags
  | VArr items =>
      join ","
        ((fix each (xs : list value) : list string :=
            match xs with
            | [] => []
            | x :: r =>
                match x with
                | VUndefined | VNull => EmptyString
                | _ => js_String x
                end :: each r
            end) items)
  | VObj _ => "[object Object]"
  end.

(** Entries whose keys are the array indices ["0"], ["1"], ... *)
Fixpoint index_entries (i : nat) (xs : list value) : Record :=
  match xs with
  | [] => []
  | x :: r => (nat_to_string i, x) :: index_entries (S i) r
  end.

Fixpoint chars_of (s : string) : list value :=
  match s with
  | EmptyString => []
  | String c r => VStr (str1 c) :: chars_of r
  end.

(** [Object.entries(v)]: throws on [null] and [undefined]; arrays and strings
    enumerate their indices; other primitives, dates and regular expressions
    have no own enumerable entries. *)
Definition Object_entries (v : value) : result Record :=
  match v with
  | VUndefined | VNull => Throw (TypeError "Cannot convert undefined or null to object")
  | VObj es => Ok es
  | VArr xs => Ok (index_entries 0 xs)
  | VStr s => Ok (index_entries 0 (chars_of s))
  | VBool _ | VNum _ | VDate _ | VRegExp _ _ => Ok []
  end.

(* ================================================================== *)
(** ** SQL helpers ([filter-translator.ts]) *)
(* ================================================================== *)

Record SqlTranslation := mkSql {
  clause : string;
  values : list value
}.

(** [name.replace] of every double quote by two double quotes. *)
Fixpoint double_dquotes (name : string) : string :=
  match name with
  | EmptyString => EmptyString
  | String c r =>
      if Ascii.eqb c dquote
      then String dquote (String dquote (double_dquotes r))
      else String c (double_dquotes r)
  end.

Definition quoteIdentifier (name : string) : string :=
  let sanitized := double_dquotes name in
  DQ ++ sanitized ++ DQ.

Definition placeholder (dialect : SqlDialect) (idx : nat) : string :=
  match dialect with
  | pg => "$" ++ nat_to_string idx
  | mysql2 => "?"
  | mssql => "@p" ++ nat_to_string idx
  | sqlite => "?"
  end.

(** [arr.map((_, i) => placeholder(dialect, paramIdx + i))] *)
Fixpoint placeholders_from (dialect : SqlDialect) (paramIdx : nat) (arr : list value)
  : list string :=
  match arr with
  | [] => []
  | _ :: r => placeholder dialect paramIdx :: placeholders_from dialect (S paramIdx) r
  end.

(** [s.replace(/[%_]/g, ch => `\\${ch}`)] *)
Fixpoint escape_like (s : string) : string :=
  match s with
  | EmptyString => EmptyString
  | String c r =>
      if Ascii.eqb c "%" || Ascii.eqb c "_"
      then String "\" (String c (escape_like r))
      else String c (escape_like r)
  end.

(** [s.replace(/\.\*/g, '%')] *)
Fixpoint dot_star_to_percent (s : string) : string :=
  match s with
  | EmptyString => EmptyString
  | String c r =>
      match r with
      | String c' r' =>
          if Ascii.eqb c "." && Ascii.eqb c' "*"
          then String "%" (dot_star_to_percent r')
          else String c (dot_star_to_percent r)
      | EmptyString => String c EmptyString
      end
  end.

(** [s.replace(/\./g, '_')] *)
Fixpoint dot_to_underscore (s : string) : string :=
  match s with
  | EmptyString => EmptyString
  | String c r =>
      String (if Ascii.eqb c "." then "_"%char else c) (dot_to_underscore r)
  end.

Definition regexToLike (quotedKey pattern : string) (dialect : SqlDialect)
    (paramIdx : nat) : SqlTranslation :=
  let likePattern := escape_like pattern in
  let startsWithAnchor := startsWith "^" likePattern in
  let endsWithAnchor :=
    match last_char likePattern with
    | Some c => Ascii.eqb c "$"
    | None => false
    end in
  let likePattern :=
    if startsWithAnchor
    then match likePattern with String _ r => r | EmptyString => EmptyString end
    else likePattern in
  let likePattern := if endsWithAnchor then drop_last likePattern else likePattern in
  let likePattern := dot_to_underscore (dot_star_to_percent likePattern) in
  let likePattern := if startsWithAnchor then likePattern else "%" ++ likePattern in
  let likePattern := if endsWithAnchor then likePattern else likePattern ++ "%" in
  {| clause := quotedKey ++ " LIKE " ++ placeholder dialect paramIdx;
     values := [VStr likePattern] |}.

Definition translateRegexToSQL (quotedKey pattern : string) (dialect : SqlDialect)
    (paramIdx : nat) : SqlTranslation :=
  match dialect with
  | pg =>
      {| clause := quotedKey ++ " ~ " ++ placeholder dialect paramIdx;
         values := [VStr pattern] |}
  | mysql2 =>
      {| clause := quotedKey ++ " REGEXP " ++ placeholder dialect paramIdx;
         values := [VStr pattern] |}
  | mssql => regexToLike quotedKey pattern dialect paramIdx
  | sqlite => regexToLike quotedKey pattern dialect paramIdx
  end.

Definition unknown_operator_sql (op : string) : exn :=
  StrictErr (newStrictDBError
    {| o_code := UNKNOWN_OPERATOR;
       o_message := "Unknown filter operator " ++ in_quotes op ++ ".";
       o_fix := "Supported operators: $eq, $ne, $gt, $gte, $lt, $lte, $in, $nin, $exists, $regex, $not, $size.";
       o_backend := sql;
       o_collection := None; o_operation := None; o_retryable := None |}).

(** The loop state of the translators: [parts], [values], [paramIdx]. *)
Record Acc := mkAcc {
  parts : list string;
  vals : list value;
  idx : nat
}.

(** [parts.push(r.clause); values.push(...r.values); paramIdx += r.values.length] *)
Definition push_result (a : Acc) (r : SqlTranslation) : Acc :=
  {| parts := push (parts a) (clause r);
     vals := push_all (vals a) (values r);
     idx := idx a + List.length (values r) |}.

Definition comparison (quotedKey sym : string) (v : value) (dialect : SqlDialect)
    (paramIdx : nat) : SqlTranslation :=
  {| clause := quotedKey ++ sym ++ placeholder dialect paramIdx; values := [v] |}.

(** The end of the [$not] case: nothing when no part was kept. *)
Definition not_finish (a : Acc) : SqlTranslation :=
  match parts a with
  | [] => {| clause := EmptyString; values := [] |}
  | _ :: _ => {| clause := "NOT (" ++ join " AND " (parts a) ++ ")"; values := vals a |}
  end.

(** [translateOperatorToSQL].  The recursion is the [$not] case, over the
    entries of the nested bag.  A [$not] operand that is not a plain object is
    enumerated by [Object.entries] in the same loop: it has either no entry, or
    index keys, and the first index key reaches the [default] case. *)
Fixpoint translateOperatorToSQL (quotedKey op : string) (v : value)
    (dialect : SqlDialect) (paramIdx : nat) {struct v} : result SqlTranslation :=
  if String.eqb op "$eq" then
    match v with
    | VNull => Ok {| clause := quotedKey ++ " IS NULL"; values := [] |}
    | _ => Ok (comparison quotedKey " = " v dialect paramIdx)
    end
  else if String.eqb op "$ne" then
    match v with
    | VNull => Ok {| clause := quotedKey ++ " IS NOT NULL"; values := [] |}
    | _ => Ok (comparison quotedKey " != " v dialect paramIdx)
    end
  else if String.eqb op "$gt" then Ok (comparison quotedKey " > " v dialect paramIdx)
  else if String.eqb op "$gte" then Ok (comparison quotedKey " >= " v dialect paramIdx)
  else if String.eqb op "$lt" then Ok (comparison quotedKey " < " v dialect paramIdx)
  else if String.eqb op "$lte" then Ok (comparison quotedKey " <= " v dialect paramIdx)
  else if String.eqb op "$in" then
    match v with
    | VArr ((_ :: _) as arr) =>
        Ok {| clause := quotedKey ++ " IN ("
                ++ join ", " (placeholders_from dialect paramIdx arr) ++ ")";
              values := arr |}
    | _ => Ok {| clause := "1=0"; values := [] |}
    end
  else if String.eqb op "$nin" then
    match v with
    | VArr ((_ :: _) as arr) =>
        Ok {| clause := quotedKey ++ " NOT IN ("
                ++ join ", " (placeholders_from dialect paramIdx arr) ++ ")";
              values := arr |}
    | _ => Ok {| clause := "1=1"; values := [] |}
    end
  else if String.eqb op "$exists" then
    if truthy v
    then Ok {| clause := quotedKey ++ " IS NOT NULL"; values := [] |}
    else Ok {| clause := quotedKey ++ " IS NULL"; values := [] |}
  else if String.eqb op "$regex" then
    let pattern := match v with VRegExp source _ => source | _ => js_String v end in
    Ok (translateRegexToSQL quotedKey pattern dialect paramIdx)
  else if String.eqb op "$options" then
    Ok {| clause := EmptyString; values := [] |}
  else if String.eqb op "$not" then
    match v with
    | VObj sub =>
        (fix loop (es : Record) (a : Acc) {struct es} : result SqlTranslation :=
           match es with
           | [] => Ok (not_finish a)
           | (subOp, subVal) :: rest =>
               match translateOperatorToSQL quotedKey subOp subVal dialect (idx a) with
               | Throw e => Throw e
               | Ok r =>
                   if is_empty_string (clause r) then loop rest a
                   else loop rest (push_result a r)
               end
           end) sub (mkAcc [] [] paramIdx)
    | _ =>
        match Object_entries v with
        | Throw e => Throw e
        | Ok [] => Ok (not_finish (mkAcc [] [] paramIdx))
        | Ok ((subOp, _) :: _) => Throw (unknown_operator_sql subOp)
        end
    end
  else if String.eqb op "$size" then
    match dialect with
    | pg =>
        Ok {| clause := "jsonb_array_length(" ++ quotedKey ++ ") = " ++ placeholder dialect paramIdx;
              values := [v] |}
    | mysql2 =>
        Ok {| clause := "JSON_LENGTH(" ++ quotedKey ++ ") = " ++ placeholder dialect paramIdx;
              values := [v] |}
    | _ =>
        Ok {| clause := "json_array_length(" ++ quotedKey ++ ") = " ++ placeholder dialect paramIdx;
              values := [v] |}
    end
  else Throw (unknown_operator_sql op).

(* ================================================================== *)
(** ** [translateToSQL] *)
(* ================================================================== *)

Definition top_level_operator_sql (key : string) : exn :=
  StrictErr (newStrictDBError
    {| o_code := UNKNOWN_OPERATOR;
       o_message := "Top-level operator " ++ in_quotes key ++ " is not supported in filter.";
       o_fix := "Supported top-level operators: $and, $or, $nor. Field operators ($gt, $lt, etc.) must be nested inside a field: { fieldName: { "
                ++ key ++ ": value } }.";
       o_backend := sql;
       o_collection := None; o_operation := None; o_retryable := None |}).

Definition is_logical (key : string) : bool :=
  String.eqb key "$and" || String.eqb key "$or" || String.eqb key "$nor".

(** The operator-bag loop: [for (const [op, opVal] of Object.entries(ops))]. *)
Fixpoint translate_ops (quotedKey : string) (ops : Record) (dialect : SqlDialect)
    (a : Acc) : result Acc :=
  match ops with
  | [] => Ok a
  | (op, opVal) :: rest =>
      match translateOperatorToSQL quotedKey op opVal dialect (idx a) with
      | Throw e => Throw e
      | Ok r => translate_ops quotedKey rest dialect (push_result a r)
      end
  end.

(** The body of the entry loop below the logical keys: the stray [$]-key check,
    [null]/[undefined], an operator bag, or direct equality. *)
Definition translate_field (key : string) (v : value) (dialect : SqlDialect)
    (a : Acc) : result Acc :=
  if starts_with_dollar key then Throw (top_level_operator_sql key)
  else
    let quotedKey := quoteIdentifier key in
    match v with
    | VNull | VUndefined =>
        Ok {| parts := push (parts a) (quotedKey ++ " IS NULL");
              vals := vals a; idx := idx a |}
    | VObj ops => translate_ops quotedKey ops dialect a
    | _ =>
        Ok {| parts := push (parts a) (quotedKey ++ " = " ++ placeholder dialect (idx a));
              vals := push (vals a) v;
              idx := S (idx a) |}
    end.

(** [parts.push] for a logical key, from the collected sub-clauses. *)
Definition push_logical (key : string) (subClauses : list string) (ps : list string)
  : list string :=
  match subClauses with
  | [] => ps
  | _ :: _ =>
      if String.eqb key "$nor"
      then push ps ("NOT (" ++ join " OR " subClauses ++ ")")
      else
        let joiner := if String.eqb key "$and" then " AND " else " OR " in
        push ps ("(" ++ join joiner subClauses ++ ")")
  end.

(** [sub.clause && sub.clause !== '1=1'] *)
Definition keeps_sub (sub : SqlTranslation) : bool :=
  negb (is_empty_string (clause sub)) && negb (String.eqb (clause sub) "1=1").

Definition finish_sql (a : Acc) : SqlTranslation :=
  {| clause := match parts a with
               | [] => "1=1"
               | _ :: _ => join " AND " (parts a)
               end;
     values := vals a |}.

Definition trivial_sql : SqlTranslation := {| clause := "1=1"; values := [] |}.

(** Entries with index keys (a filter that is an array or a string): every key
    is a field name, so only [translate_field] applies. *)
Fixpoint translate_fields (es : Record) (dialect : SqlDialect) (a : Acc) : result Acc :=
  match es with
  | [] => Ok a
  | (key, v) :: rest =>
      match translate_field key v dialect a with
      | Throw e => Throw e
      | Ok a' => translate_fields rest dialect a'
      end
  end.

(** [translateToSQL(filter, dialect = 'pg', startIdx = 1)].  The state of the
    sub-filter loop is the pair of [subClauses] and the outer accumulator,
    whose [values] and [paramIdx] it extends. *)
Fixpoint translateToSQL (filter : value) (dialect : SqlDialect) (startIdx : nat)
    {struct filter} : result SqlTranslation :=
  match filter with
  | VObj [] => Ok trivial_sql
  | VObj entries =>
      match
        (fix loop (es : Record) (a : Acc) {struct es} : result Acc :=
           match es with
           | [] => Ok a
           | (key, v) :: rest =>
               if is_logical key then
                 match v with
                 | VArr ((_ :: _) as filters) =>
                     match
                       (fix subs (fs : list value) (subClauses : list string) (a : Acc)
                            {struct fs} : result (list string * Acc) :=
                          match fs with
                          | [] => Ok (subClauses, a)
                          | subFilter :: fs' =>
                              match translateToSQL subFilter dialect (idx a) with
                              | Throw e => Throw e
                              | Ok sub =>
                                  if keeps_sub sub
                                  then subs fs' (push subClauses ("(" ++ clause sub ++ ")"))
                                         {| parts := parts a;
                                            vals := push_all (vals a) (values sub);
                                            idx := idx a + List.length (values sub) |}
                                  else subs fs' subClauses a
                              end
                          end) filters [] a
                     with
                     | Throw e => Throw e
                     | Ok (subClauses, a') =>
                         loop rest {| parts := push_logical key subClauses (parts a');
                                      vals := vals a'; idx := idx a' |}
                     end
                 | _ => loop rest a
                 end
               else
                 match translate_field key v dialect a with
                 | Throw e => Throw e
                 | Ok a' => loop rest a'
                 end
           end) entries (mkAcc [] [] startIdx)
      with
      | Throw e => Throw e
      | Ok a => Ok (finish_sql a)
      end
  | VArr ((_ :: _) as items) =>
      match translate_fields (index_entries 0 items) dialect (mkAcc [] [] startIdx) with
      | Throw e => Throw e
      | Ok a => Ok (finish_sql a)
      end
  | VStr ((String _ _) as s) =>
      match translate_fields (index_entries 0 (chars_of s)) dialect (mkAcc [] [] startIdx) with
      | Throw e => Throw e
      | Ok a => Ok (finish_sql a)
      end
  | _ => Ok trivial_sql
  end.

(* ================================================================== *)
(** ** Sort, update and projection to SQL *)
(* ================================================================== *)

Definition value_is_num (v : value) (n : Z) : bool :=
  match v with VNum m => Z.eqb m n | _ => false end.

Definition value_is_str (v : value) (s : string) : bool :=
  match v with VStr t => String.eqb t s | _ => false end.

(** [translateSortToSQL] *)
Definition translateSortToSQL (sort : Record) : string :=
  join ", "
    (map (fun '(field, dir) =>
            let direction :=
              if value_is_num dir (-1) || value_is_str dir "desc" then "DESC" else "ASC" in
            quoteIdentifier field ++ " " ++ direction)
         sort).

(** [UpdateOperators]: each operator is present with its map, or absent. *)
Record UpdateOperators := mkUpdate {
  u_set : option Record;
  u_inc : option Record;
  u_unset : option Record;
  u_push : option Record;
  u_pull : option Record
}.

Record SqlUpdateTranslation := mkSqlUpdate {
  setClauses : string;
  upd_values : list value
}.

Definition no_set_clauses : exn :=
  StrictErr (newStrictDBError
    {| o_code := QUERY_ERROR;
       o_message := "Update operation has no SET clauses.";
       o_fix := "Provide at least one update operator: $set, $inc, or $unset.";
       o_backend := sql;
       o_collection := None; o_operation := None; o_retryable := None |}).

Fixpoint set_entries (es : Record) (dialect : SqlDialect) (a : Acc) : Acc :=
  match es with
  | [] => a
  | (field, v) :: rest =>
      set_entries rest dialect
        {| parts := push (parts a) (quoteIdentifier field ++ " = " ++ placeholder dialect (idx a));
           vals := push (vals a) v;
           idx := S (idx a) |}
  end.

Fixpoint inc_entries (es : Record) (dialect : SqlDialect) (a : Acc) : Acc :=
  match es with
  | [] => a
  | (field, amount) :: rest =>
      inc_entries rest dialect
        {| parts := push (parts a)
                      (quoteIdentifier field ++ " = " ++ quoteIdentifier field ++ " + "
                         ++ placeholder dialect (idx a));
           vals := push (vals a) amount;
           idx := S (idx a) |}
  end.

Fixpoint unset_entries (es : Record) (a : Acc) : Acc :=
  match es with
  | [] => a
  | (field, _) :: rest =>
      unset_entries rest
        {| parts := push (parts a) (quoteIdentifier field ++ " = NULL");
           vals := vals a; idx := idx a |}
  end.

(** [translateUpdateToSQL(update, dialect = 'pg', startIdx = 1)] *)
Definition translateUpdateToSQL (update : UpdateOperators) (dialect : SqlDialect)
    (startIdx : nat) : result SqlUpdateTranslation :=
  let a := mkAcc [] [] startIdx in
  let a := match u_set update with Some es => set_entries es dialect a | None => a end in
  let a := match u_inc update with Some es => inc_entries es dialect a | None => a end in
  let a := match u_unset update with Some es => unset_entries es a | None => a end in
  match parts a with
  | [] => Throw no_set_clauses
  | _ :: _ => Ok {| setClauses := join ", " (parts a); upd_values := vals a |}
  end.

(** [translateProjectionToSQL] *)
Definition translateProjectionToSQL (projection : Record) : string :=
  let included := filter (fun '(_, v) => value_is_num v 1) projection in
  let excluded := filter (fun '(_, v) => value_is_num v 0) projection in
  match included with
  | _ :: _ => join ", " (map (fun '(field, _) => quoteIdentifier field) included)
  | [] =>
      match excluded with
      | _ :: _ => "*"
      | [] => "*"
      end
  end.

(* ================================================================== *)
(** ** Full statements *)
(* ================================================================== *)

Record FullSqlQuery := mkQuery {
  sql_text : string;
  q_values : list value
}.

Record SelectOptions := mkSelectOptions {
  opt_sort : option Record;
  opt_limit : option Z;
  opt_skip : option Z;
  opt_projection : option Record;
  opt_dialect : option SqlDialect
}.

Definition select_columns (options : SelectOptions) : string :=
  match opt_projection options with
  | Some projection => translateProjectionToSQL projection
  | None => "*"
  end.

(** [if (where.clause !== '1=1') sql += ` WHERE ${where.clause}`] *)
Definition add_where (sql_ : string) (where_ : SqlTranslation) : string :=
  if String.eqb (clause where_) "1=1" then sql_
  else sql_ ++ " WHERE " ++ clause where_.

(** [if (options.sort) { const orderBy = ...; if (orderBy) sql += ... }] *)
Definition add_order_by (sql_ : string) (sort : Record) : string :=
  let orderBy := translateSortToSQL sort in
  if is_empty_string orderBy then sql_ else sql_ ++ " ORDER BY " ++ orderBy.

Definition buildMssqlSelectSQL (table : string) (filter : value) (options : SelectOptions)
  : result FullSqlQuery :=
  let columns := select_columns options in
  match translateToSQL filter mssql 1 with
  | Throw e => Throw e
  | Ok where_ =>
      let hasSkip := match opt_skip options with Some n => Z.ltb 0 n | None => false end in
      let hasLimit := match opt_limit options with Some _ => true | None => false end in
      if hasSkip then
        let sql_ := "SELECT " ++ columns ++ " FROM " ++ quoteIdentifier table in
        let sql_ := add_where sql_ where_ in
        let sql_ :=
          match opt_sort options with
          | Some sort => add_order_by sql_ sort
          | None => sql_ ++ " ORDER BY (SELECT NULL)"
          end in
        let sql_ :=
          sql_ ++ " OFFSET "
            ++ Z_to_string (match opt_skip options with Some n => n | None => 0%Z end)
            ++ " ROWS" in
        let sql_ :=
          match opt_limit options with
          | Some m => sql_ ++ " FETCH NEXT " ++ Z_to_string m ++ " ROWS ONLY"
          | None => sql_
          end in
        Ok {| sql_text := sql_; q_values := values where_ |}
      else if hasLimit then
        let sql_ :=
          "SELECT TOP("
            ++ Z_to_string (match opt_limit options with Some m => m | None => 0%Z end)
            ++ ") " ++ columns ++ " FROM " ++ quoteIdentifier table in
        let sql_ := add_where sql_ where_ in
        let sql_ :=
          match opt_sort options with
          | Some sort => add_order_by sql_ sort
          | None => sql_
          end in
        Ok {| sql_text := sql_; q_values := values where_ |}
      else
        let sql_ := "SELECT " ++ columns ++ " FROM " ++ quoteIdentifier table in
        let sql_ := add_where sql_ where_ in
        let sql_ :=
          match opt_sort options with
          | Some sort => add_order_by sql_ sort
          | None => sql_
          end in
        Ok {| sql_text := sql_; q_values := values where_ |}
  end.

Definition buildSelectSQL (table : string) (filter : value) (options : SelectOptions)
  : result FullSqlQuery :=
  let dialect := match opt_dialect options with Some d => d | None => pg end in
  match dialect with
  | mssql => buildMssqlSelectSQL table filter options
  | _ =>
      let columns := select_columns options in
      match translateToSQL filter dialect 1 with
      | Throw e => Throw e
      | Ok where_ =>
          let sql_ := "SELECT " ++ columns ++ " FROM " ++ quoteIdentifier table in
          let sql_ := add_where sql_ where_ in
          let sql_ :=
            match opt_sort options with
            | Some sort => add_order_by sql_ sort
            | None => sql_
            end in
          let sql_ :=
            match opt_limit options with
            | Some m => sql_ ++ " LIMIT " ++ Z_to_string m
            | None => sql_
            end in
          let sql_ :=
            match opt_skip options with
            | Some n => sql_ ++ " OFFSET " ++ Z_to_string n
            | None => sql_
            end in
          Ok {| sql_text := sql_; q_values := values where_ |}
      end
  end.

(** [keys.map((_, i) => placeholder(dialect, i + 1))] *)
Fixpoint insert_placeholders (dialect : SqlDialect) (i : nat) (keys : list string)
  : list string :=
  match keys with
  | [] => []
  | _ :: r => placeholder dialect (i + 1) :: insert_placeholders dialect (S i) r
  end.

Definition buildInsertSQL (table : string) (doc : Record) (dialect : SqlDialect)
  : FullSqlQuery :=
  let keys := map fst doc in
  let vals_ := map snd doc in
  let columns := join ", " (map quoteIdentifier keys) in
  let placeholders := join ", " (insert_placeholders dialect 0 keys) in
  {| sql_text := "INSERT INTO " ++ quoteIdentifier table ++ " (" ++ columns
                   ++ ") VALUES (" ++ placeholders ++ ")";
     q_values := vals_ |}.

Definition buildUpdateSQL (table : string) (filter : value) (update : UpdateOperators)
    (dialect : SqlDialect) : result FullSqlQuery :=
  match translateUpdateToSQL update dialect 1 with
  | Throw e => Throw e
  | Ok updateResult =>
      match translateToSQL filter dialect (List.length (upd_values updateResult) + 1) with
      | Throw e => Throw e
      | Ok where_ =>
          let sql_ := "UPDATE " ++ quoteIdentifier table ++ " SET " ++ setClauses updateResult in
          Ok {| sql_text := add_where sql_ where_;
                q_values := push_all (upd_values updateResult) (values where_) |}
      end
  end.

Definition buildDeleteSQL (table : string) (filter : value) (dialect : SqlDialect)
  : result FullSqlQuery :=
  match translateToSQL filter dialect 1 with
  | Throw e => Throw e
  | Ok where_ =>
      Ok {| sql_text := add_where ("DELETE FROM " ++ quoteIdentifier table) where_;
            q_values := values where_ |}
  end.

(* ================================================================== *)
(** ** Elasticsearch query DSL *)
(* ================================================================== *)

(** [obj[key] = v] on own entries: an existing key keeps its position. *)
Fixpoint obj_set (es : Record) (key : string) (v : value) : Record :=
  match es with
  | [] => [(key, v)]
  | (k, w) :: rest =>
      if String.eqb k key then (k, v) :: rest else (k, w) :: obj_set rest key v
  end.

Definition unknown_operator_elastic (op : string) : exn :=
  StrictErr (newStrictDBError
    {| o_code := UNKNOWN_OPERATOR;
       o_message := "Unknown filter operator " ++ in_quotes op ++ ".";
       o_fix := "Supported operators: $eq, $ne, $gt, $gte, $lt, $lte, $in, $nin, $exists, $regex, $not, $size.";
       o_backend := elastic;
       o_collection := None; o_operation := None; o_retryable := None |}).

Definition top_level_operator_elastic (key : string) : exn :=
  StrictErr (newStrictDBError
    {| o_code := UNKNOWN_OPERATOR;
       o_message := "Top-level operator " ++ in_quotes key ++ " is not supported in filter.";
       o_fix := "Supported top-level operators: $and, $or, $nor. Field operators must be nested: { fieldName: { "
                ++ key ++ ": value } }.";
       o_backend := elastic;
       o_collection := None; o_operation := None; o_retryable := None |}).

Definition es_exists (field : string) : value :=
  VObj [("exists", VObj [("field", VStr field)])].

Definition es_must_not (q : value) : value :=
  VObj [("bool", VObj [("must_not", q)])].

(** The loop state of [translateFieldOpsToElastic]. *)
Record EsAcc := mkEsAcc {
  clauses : list value;
  rangeOps : Record;
  hasRange : bool
}.

Definition es_push (a : EsAcc) (q : value) : EsAcc :=
  {| clauses := push (clauses a) q; rangeOps := rangeOps a; hasRange := hasRange a |}.

Definition es_range (a : EsAcc) (k : string) (v : value) : EsAcc :=
  {| clauses := clauses a; rangeOps := obj_set (rangeOps a) k v; hasRange := true |}.

Definition es_finish (field : string) (a : EsAcc) : list value :=
  if hasRange a
  then push (clauses a) (VObj [("range", VObj [(field, VObj (rangeOps a))])])
  else clauses a.

(** [translateFieldOpsToElastic(field, ops)].  The [$not] operand is passed on
    as the nested bag; a bag that is not a plain object is enumerated by
    [Object.entries], and an index key reaches the [default] case. *)
Fixpoint translateFieldOpsToElastic (field : string) (ops : value) {struct ops}
  : result (list value) :=
  match ops with
  | VObj entries =>
      (fix loop (es : Record) (a : EsAcc) {struct es} : result (list value) :=
         match es with
         | [] => Ok (es_finish field a)
         | (op, v) :: rest =>
             if String.eqb op "$eq" then
               match v with
               | VNull => loop rest (es_push a (es_must_not (es_exists field)))
               | _ => loop rest (es_push a (VObj [("term", VObj [(field, v)])]))
               end
             else if String.eqb op "$ne" then
               match v with
               | VNull => loop rest (es_push a (es_exists field))
               | _ => loop rest (es_push a (es_must_not (VObj [("term", VObj [(field, v)])])))
               end
             else if String.eqb op "$gt" then loop rest (es_range a "gt" v)
             else if String.eqb op "$gte" then loop rest (es_range a "gte" v)
             else if String.eqb op "$lt" then loop rest (es_range a "lt" v)
             else if String.eqb op "$lte" then loop rest (es_range a "lte" v)
             else if String.eqb op "$in" then
               loop rest (es_push a (VObj [("terms", VObj [(field, v)])]))
             else if String.eqb op "$nin" then
               loop rest (es_push a (es_must_not (VObj [("terms", VObj [(field, v)])])))
             else if String.eqb op "$exists" then
               if truthy v
               then loop rest (es_push a (es_exists field))
               else loop rest (es_push a (es_must_not (es_exists field)))
             else if String.eqb op "$regex" then
               let pattern := match v with VRegExp source _ => source | _ => js_String v end in
               loop rest (es_push a (VObj [("regexp", VObj [(field, VStr pattern)])]))
             else if String.eqb op "$options" then loop rest a
             else if String.eqb op "$not" then
               match translateFieldOpsToElastic field v with
               | Throw e => Throw e
               | Ok subClauses => loop rest (es_push a (es_must_not (VArr subClauses)))
               end
             else if String.eqb op "$size" then
               loop rest
                 (es_push a
                    (VObj [("script",
                       VObj [("script",
                         VObj [("source", VStr ("doc['" ++ field ++ "'].size() == params.size"));
                               ("params", VObj [("size", v)])])])]))
             else Throw (unknown_operator_elastic op)
         end) entries (mkEsAcc [] [] false)
  | _ =>
      match Object_entries ops with
      | Throw e => Throw e
      | Ok [] => Ok (es_finish field (mkEsAcc [] [] false))
      | Ok ((op, _) :: _) => Throw (unknown_operator_elastic op)
      end
  end.

(** The field-level part of the entry loop of [translateToElastic]. *)
Definition elastic_field (key : string) (v : value) (must : list value)
  : result (list value) :=
  if starts_with_dollar key then Throw (top_level_operator_elastic key)
  else
    match v with
    | VNull | VUndefined => Ok (push must (es_must_not (es_exists key)))
    | VObj _ =>
        match translateFieldOpsToElastic key v with
        | Throw e => Throw e
        | Ok fieldClauses => Ok (push_all must fieldClauses)
        end
    | _ => Ok (push must (VObj [("term", VObj [(key, v)])]))
    end.

Fixpoint elastic_fields (es : Record) (must : list value) : result (list value) :=
  match es with
  | [] => Ok must
  | (key, v) :: rest =>
      match elastic_field key v must with
      | Throw e => Throw e
      | Ok must' => elastic_fields rest must'
      end
  end.

Definition match_all : value := VObj [("match_all", VObj [])].

Definition elastic_finish (must : list value) : value :=
  match must with
  | [] => match_all
  | [q] => q
  | _ => VObj [("bool", VObj [("must", VArr must)])]
  end.

(** The wrapper of a logical key around the translated sub-filters. *)
Definition elastic_logical (key : string) (cs : list value) : value :=
  if String.eqb key "$and" then VObj [("bool", VObj [("must", VArr cs)])]
  else if String.eqb key "$or" then
    VObj [("bool", VObj [("should", VArr cs); ("minimum_should_match", VNum 1)])]
  else VObj [("bool", VObj [("must_not", VArr cs)])].

(** [translateToElastic(filter)].  [filters.map] throws a [TypeError] when the
    operand of a logical key is not an array. *)
Fixpoint translateToElastic (filter : value) {struct filter} : result value :=
  match filter with
  | VObj [] => Ok match_all
  | VObj entries =>
      match
        (fix loop (es : Record) (must : list value) {struct es} : result (list value) :=
           match es with
           | [] => Ok must
           | (key, v) :: rest =>
               if is_logical key then
                 match v with
                 | VArr filters =>
                     match
                       (fix each (fs : list value) : result (list value) :=
                          match fs with
                          | [] => Ok []
                          | f :: fs' =>
                              match translateToElastic f with
                              | Throw e => Throw e
                              | Ok q =>
                                  match each fs' with
                                  | Throw e => Throw e
                                  | Ok qs => Ok (q :: qs)
                                  end
                              end
                          end) filters
                     with
                     | Throw e => Throw e
                     | Ok cs => loop rest (push must (elastic_logical key cs))
                     end
                 | _ => Throw (TypeError "filters.map is not a function")
                 end
               else
                 match elastic_field key v must with
                 | Throw e => Throw e
                 | Ok must' => loop rest must'
                 end
           end) entries []
      with
      | Throw e => Throw e
      | Ok must => Ok (elastic_finish must)
      end
  | VArr ((_ :: _) as items) =>
      match elastic_fields (index_entries 0 items) [] with
      | Throw e => Throw e
      | Ok must => Ok (elastic_finish must)
      end
  | VStr ((String _ _) as s) =>
      match elastic_fields (index_entries 0 (chars_of s)) [] with
      | Throw e => Throw e
      | Ok must => Ok (elastic_finish must)
      end
  | _ => Ok match_all
  end.

(* ================================================================== *)
(** ** Guardrails ([guardrails.ts]) *)
(* ================================================================== *)

(** The events this development observes on the emitter. *)
Inductive Event :=
| EvGuardrailBlocked (collection operation reason : string)
| EvOperation (collection operation : string) (durationMs : Z)
| EvSlowQuery (collection operation : string) (durationMs threshold : Z).

Record GuardOptions := mkGuardOptions {
  g_limit : option Z;
  g_confirm : option string
}.

(** [!filter || Object.keys(filter).length === 0] *)
Definition isEmptyFilter (filter : value) : bool :=
  negb (truthy filter)
  || match Object_entries filter with
     | Ok [] => true
     | _ => false
     end.

(** [emitAndThrow]: the event, then the error. *)
Definition emitAndThrow (collection operation message fix_text : string)
  : list Event * result unit :=
  ([EvGuardrailBlocked collection operation message],
   Throw (StrictErr (newStrictDBError
     {| o_code := GUARDRAIL_BLOCKED;
        o_message := message;
        o_fix := fix_text;
        o_backend := mongo;
        o_collection := Some collection;
        o_operation := Some operation;
        o_retryable := None |}))).

(** [options?.confirm !== token] *)
Definition confirm_differs (options : option GuardOptions) (token : string) : bool :=
  match options with
  | Some o =>
      match g_confirm o with
      | Some c => negb (String.eqb c token)
      | None => true
      end
  | None => true
  end.

(** [options?.limit === undefined] *)
Definition limit_absent (options : option GuardOptions) : bool :=
  match options with
  | Some o => match g_limit o with Some _ => false | None => true end
  | None => true
  end.

(** [checkGuardrails(ctx, operation, collection, filter, options)]: the events
    emitted on [ctx.emitter] and the outcome. *)
Definition checkGuardrails (enabled : bool) (operation collection : string)
    (filter : value) (options : option GuardOptions) : list Event * result unit :=
  if negb enabled then ([], Ok tt)
  else
    let isEmpty := isEmptyFilter filter in
    if String.eqb operation "deleteMany" then
      if isEmpty && confirm_differs options "DELETE_ALL" then
        emitAndThrow collection operation
          "deleteMany requires a non-empty filter to prevent accidental data loss."
          ("To delete all documents: db.deleteMany('" ++ collection
             ++ "', { _id: { $exists: true } }, { confirm: 'DELETE_ALL' })")
      else ([], Ok tt)
    else if String.eqb operation "updateMany" then
      if isEmpty && confirm_differs options "UPDATE_ALL" then
        emitAndThrow collection operation
          "updateMany requires a non-empty filter to prevent accidental mass updates."
          ("To update all documents: db.updateMany('" ++ collection
             ++ "', { _id: { $exists: true } }, update, { confirm: 'UPDATE_ALL' })")
      else ([], Ok tt)
    else if String.eqb operation "deleteOne" then
      if isEmpty then
        emitAndThrow collection operation
          "deleteOne requires a non-empty filter. An empty filter would delete an arbitrary document."
          ("Specify a filter to identify the document: db.deleteOne('" ++ collection
             ++ "', { id: " ++ in_quotes "..." ++ " })")
      else ([], Ok tt)
    else if String.eqb operation "queryMany" then
      if limit_absent options then
        emitAndThrow collection operation
          "queryMany without a limit could return millions of rows."
          ("Always include a limit: db.queryMany('" ++ collection
             ++ "', filter, { limit: 100 })")
      else ([], Ok tt)
    else ([], Ok tt).

(* ================================================================== *)
(** ** Custom sanitize rules ([sanitize.ts]) *)
(* ================================================================== *)














(* ================================================================== *)
(** ** Error mapping and backend detection ([errors.ts], [strictdb.ts]) *)
(* ================================================================== *)

Definition code_is (e : NativeError) (s : string) : bool :=
  match ne_code e with
  | Some c => String.eqb c s
  | None => false
  end.

Definition or_unknown (collection : option string) : string :=
  match collection with Some c => c | None => "unknown" end.

(** [mapSqlError(err, collection?, operation?)] *)
Definition mapSqlError (err : NativeError) (collection operation : option string)
  : StrictDBError :=
  let message := match ne_message err with Some m => m | None => ne_text err end in
  if code_is err "23505" || code_is err "ER_DUP_ENTRY"
     || includes "UNIQUE constraint failed" message then
    newStrictDBError
      {| o_code := DUPLICATE_KEY;
         o_message := "Duplicate key violation in " ++ in_quotes (or_unknown collection) ++ ".";
         o_fix := "A row with this value already exists. Use db.updateOne() to update instead, or check for existence with db.queryOne() first.";
         o_backend := sql; o_collection := collection; o_operation := operation;
         o_retryable := None |}
  else if code_is err "ECONNREFUSED" || includes "ECONNREFUSED" message
          || includes "connect ENOTFOUND" message then
    newStrictDBError
      {| o_code := CONNECTION_FAILED;
         o_message := "Cannot connect to SQL database.";
         o_fix := "Verify the DATABASE_URL is correct and the database server is running.";
         o_backend := sql; o_collection := collection; o_operation := operation;
         o_retryable := Some true |}
  else if code_is err "57014"
          || includes "canceling statement due to statement timeout" message then
    newStrictDBError
      {| o_code := TIMEOUT;
         o_message := "SQL query timed out on " ++ in_quotes (or_unknown collection) ++ ".";
         o_fix := "Add a filter to narrow results, add an index, or increase the statement timeout.";
         o_backend := sql; o_collection := collection; o_operation := operation;
         o_retryable := Some true |}
  else if code_is err "28P01" || code_is err "28000"
          || includes "password authentication failed" message then
    newStrictDBError
      {| o_code := AUTHENTICATION_FAILED;
         o_message := "SQL authentication failed.";
         o_fix := "Check your database username and password in the connection URI.";
         o_backend := sql; o_collection := collection; o_operation := operation;
         o_retryable := None |}
  else if code_is err "42P01" || includes "no such table" message
          || includes "does not exist" message then
    newStrictDBError
      {| o_code := COLLECTION_NOT_FOUND;
         o_message := "Table " ++ in_quotes (or_unknown collection) ++ " not found.";
         o_fix := "Run db.ensureCollections() to create tables from registered schemas, or check the table name.";
         o_backend := sql; o_collection := collection; o_operation := operation;
         o_retryable := None |}
  else if includes "timeout exceeded" message && includes "pool" message then
    newStrictDBError
      {| o_code := POOL_EXHAUSTED;
         o_message := "SQL connection pool exhausted.";
         o_fix := "Increase pool size with { pool: 'high' } or ensure connections are being released properly.";
         o_backend := sql; o_collection := collection; o_operation := operation;
         o_retryable := Some true |}
  else
    newStrictDBError
      {| o_code := INTERNAL_ERROR;
         o_message := "SQL error on " ++ in_quotes (or_unknown collection) ++ ": " ++ message;
         o_fix := "Check the original error for details.";
         o_backend := sql; o_collection := collection; o_operation := operation;
         o_retryable := None |}.

(** [mapNativeError('sql', err, collection, operation)] *)
Definition mapNativeError_sql (err : exn) (collection operation : option string)
  : StrictDBError :=
  match err with
  | StrictErr e => e
  | NativeErr e => mapSqlError e collection operation
  end.

(** [uri.substring(0, n)] *)
Fixpoint take_chars (n : nat) (s : string) : string :=
  match n, s with
  | S n', String c r => String c (take_chars n' r)
  | _, _ => EmptyString
  end.

(** [detectBackend(uri)] *)
Definition detectBackend (uri : string) : result Backend :=
  if startsWith "mongodb://" uri || startsWith "mongodb+srv://" uri then Ok mongo
  else if startsWith "postgresql://" uri || startsWith "postgres://" uri then Ok sql
  else if startsWith "mysql://" uri then Ok sql
  else if startsWith "mssql://" uri then Ok sql
  else if startsWith "file:" uri || startsWith "sqlite:" uri then Ok sql
  else if startsWith "http://" uri || startsWith "https://" uri then Ok elastic
  else
    Throw (StrictErr (newStrictDBError
      {| o_code := CONNECTION_FAILED;
         o_message := "Unsupported URI scheme in " ++ DQ ++ take_chars 20 uri ++ "..." ++ DQ;
         o_fix := "Use mongodb://, postgresql://, mysql://, mssql://, sqlite:, or https:// for Elasticsearch.";
         o_backend := mongo; o_collection := None; o_operation := None;
         o_retryable := None |})).

(** The error of [ElasticAdapter.getClient()] when no client is connected. *)
Definition client_not_connected : StrictDBError :=
  newStrictDBError
    {| o_code := CONNECTION_FAILED;
       o_message := "Elasticsearch client not connected.";
       o_fix := "Call connect() before performing operations.";
       o_backend := elastic; o_collection := None; o_operation := None;
       o_retryable := None |}.

(* ================================================================== *)
(** ** Receipts and timestamps ([receipts.ts], [timestamps.ts]) *)
(* ================================================================== *)

Inductive OperationKind :=
| insertOne_op | insertMany_op | updateOne_op | updateMany_op
| deleteOne_op | deleteMany_op | batch_op.

Record OperationReceipt := mkReceipt {
  r_operation : OperationKind;
  r_collection : string;
  success : bool;
  matchedCount : Z;
  modifiedCount : Z;
  insertedCount : Z;
  deletedCount : Z;
  duration : Z;
  r_backend : Backend
}.

Record ReceiptOpts := mkReceiptOpts {
  ro_operation : OperationKind;
  ro_collection : string;
  ro_backend : Backend;
  ro_startTime : Z;
  ro_matchedCount : option Z;
  ro_modifiedCount : option Z;
  ro_insertedCount : option Z;
  ro_deletedCount : option Z;
  ro_success : option bool
}.

Definition or_zero (o : option Z) : Z := match o with Some z => z | None => 0%Z end.

(** [createReceipt(opts)], with the value [Date.now()] reads as [now]. *)
Definition createReceipt (opts : ReceiptOpts) (now : Z) : OperationReceipt :=
  {| r_operation := ro_operation opts;
     r_collection := ro_collection opts;
     success := match ro_success opts with Some b => b | None => true end;
     matchedCount := or_zero (ro_matchedCount opts);
     modifiedCount := or_zero (ro_modifiedCount opts);
     insertedCount := or_zero (ro_insertedCount opts);
     deletedCount := or_zero (ro_deletedCount opts);
     duration := (now - ro_startTime opts)%Z;
     r_backend := ro_backend opts |}.

Record ResolvedTimestampConfig := mkTsConfig {
  ts_enabled : bool;
  createdAt : string;
  updatedAt : string
}.

Definition has_key (o : Record) (key : string) : bool :=
  existsb (fun '(k, _) => String.eqb k key) o.

(** [injectInsertTimestamps(doc, config, now)] *)
Definition injectInsertTimestamps (doc : Record) (config : ResolvedTimestampConfig)
    (timestamp : value) : Record :=
  if negb (ts_enabled config) then doc
  else
    let result_ := doc in
    let result_ :=
      if negb (has_key result_ (createdAt config))
      then obj_set result_ (createdAt config) timestamp else result_ in
    let result_ :=
      if negb (has_key result_ (updatedAt config))
      then obj_set result_ (updatedAt config) timestamp else result_ in
    result_.

(** [injectUpdateTimestamps(update, config, now)] *)
Definition injectUpdateTimestamps (update : UpdateOperators)
    (config : ResolvedTimestampConfig) (timestamp : value) : UpdateOperators :=
  if negb (ts_enabled config) then update
  else
    match u_set update with
    | Some existing_set =>
        if negb (has_key existing_set (updatedAt config))
        then {| u_set := Some (obj_set existing_set (updatedAt config) timestamp);
                u_inc := u_inc update; u_unset := u_unset update;
                u_push := u_push update; u_pull := u_pull update |}
        else update
    | None =>
        {| u_set := Some [(updatedAt config, timestamp)];
           u_inc := u_inc update; u_unset := u_unset update;
           u_push := u_push update; u_pull := u_pull update |}
    end.

(* ================================================================== *)
(** ** Single-row limiting ([adapters/sql-adapter.ts]) *)
(* ================================================================== *)

Fixpoint drop_chars (n : nat) (s : string) : string :=
  match n, s with
  | S n', String _ r => drop_chars n' r
  | _, _ => s
  end.

(** The text before and after the first occurrence of [pat] in [s]. *)
Fixpoint split_first (pat s : string) : option (string * string) :=
  if String.prefix pat s then Some (EmptyString, drop_chars (String.length pat) s)
  else
    match s with
    | EmptyString => None
    | String c r =>
        match split_first pat r with
        | Some (before, after) => Some (String c before, after)
        | None => None
        end
    end.

(** The replacement text of [String.prototype.replace] for a string pattern:
    the dollar patterns for the match, the text before it and the text after
    it are expanded; there are no captures, so a dollar followed by a digit
    stays as it is. *)
Fixpoint expand_replacement (matched before after rep : string) : string :=
  match rep with
  | EmptyString => EmptyString
  | String c r =>
      if Ascii.eqb c "$" then
        match r with
        | String c2 r2 =>
            if Ascii.eqb c2 "$" then String "$" (expand_replacement matched before after r2)
            else if Ascii.eqb c2 "&" then matched ++ expand_replacement matched before after r2
            else if Ascii.eqb c2 "`" then before ++ expand_replacement matched before after r2
            else if Ascii.eqb c2 "'" then after ++ expand_replacement matched before after r2
            else String c (expand_replacement matched before after r)
        | EmptyString => String c EmptyString
        end
      else String c (expand_replacement matched before after r)
  end.

(** [s.replace(pat, rep)] with a string pattern: the first occurrence only. *)
Definition js_replace (s pat rep : string) : string :=
  match split_first pat s with
  | Some (before, after) => before ++ expand_replacement pat before after rep ++ after
  | None => s
  end.

Definition limitUpdateOne (baseSql collection whereClause : string) (dialect : SqlDialect)
  : string :=
  if String.eqb whereClause "1=1" then baseSql
  else
    match dialect with
    | pg =>
        js_replace baseSql ("WHERE " ++ whereClause)
          ("WHERE ctid = (SELECT ctid FROM " ++ quoteIdentifier collection ++ " WHERE "
             ++ whereClause ++ " LIMIT 1)")
    | mysql2 => baseSql ++ " LIMIT 1"
    | sqlite =>
        js_replace baseSql ("WHERE " ++ whereClause)
          ("WHERE rowid = (SELECT rowid FROM " ++ quoteIdentifier collection ++ " WHERE "
             ++ whereClause ++ " LIMIT 1)")
    | mssql =>
        js_replace baseSql ("UPDATE " ++ quoteIdentifier collection)
          ("UPDATE TOP(1) " ++ quoteIdentifier collection)
    end.

Definition limitDeleteOne (baseSql collection whereClause : string) (dialect : SqlDialect)
  : string :=
  if String.eqb whereClause "1=1" then baseSql
  else
    match dialect with
    | pg =>
        js_replace baseSql ("WHERE " ++ whereClause)
          ("WHERE ctid = (SELECT ctid FROM " ++ quoteIdentifier collection ++ " WHERE "
             ++ whereClause ++ " LIMIT 1)")
    | mysql2 | sqlite => baseSql ++ " LIMIT 1"
    | mssql =>
        js_replace baseSql ("DELETE FROM " ++ quoteIdentifier collection)
          ("DELETE TOP(1) FROM " ++ quoteIdentifier collection)
    end.

(** [doc[k]] on own properties. *)
Fixpoint prop_get (o : Record) (key : string) : value :=
  match o with
  | [] => VUndefined
  | (k, v) :: r => if String.eqb k key then v else prop_get r key
  end.

Fixpoint batch_rows (dialect : SqlDialect) (keys : list string) (docs : list Record)
    (rowIdx : nat) : list string * list value :=
  match docs with
  | [] => ([], [])
  | doc :: rest =>
      let placeholders :=
        insert_placeholders dialect (rowIdx * List.length keys) keys in
      let '(rows, vs) := batch_rows dialect keys rest (S rowIdx) in
      (("(" ++ join ", " placeholders ++ ")") :: rows,
       (map (prop_get doc) keys ++ vs)%list)
  end.

Definition buildBatchInsertSQL (table : string) (docs : list Record) (dialect : SqlDialect)
  : FullSqlQuery :=
  match docs with
  | [] => {| sql_text := EmptyString; q_values := [] |}
  | first :: _ =>
      let keys := map fst first in
      let columns := join ", " (map quoteIdentifier keys) in
      let '(rowPlaceholders, allValues) := batch_rows dialect keys docs 0 in
      {| sql_text := "INSERT INTO " ++ quoteIdentifier table ++ " (" ++ columns
                       ++ ") VALUES " ++ join ", " rowPlaceholders;
         q_values := allValues |}
  end.

(* ================================================================== *)
(** ** The adapter contract and the relational adapter *)
(* ================================================================== *)

Section Adapters.

(** Everything outside the layer: the database behind the driver and the
    clock.  An asynchronous call is a function of the world. *)
Variable World : Type.
Variable Date_now : World -> Z.
Variable new_Date : World -> value.

Definition Async (A : Type) : Type := World -> World * result A.

(** The write operations of [DatabaseAdapter]. *)
Record DatabaseAdapter := mkAdapter {
  insertOne : string -> Record -> Async OperationReceipt;
  insertMany : string -> list Record -> Async OperationReceipt;
  updateOne : string -> value -> UpdateOperators -> option bool -> Async OperationReceipt;
  updateMany : string -> value -> UpdateOperators -> Async OperationReceipt;
  deleteOne : string -> value -> Async OperationReceipt;
  deleteMany : string -> value -> Async OperationReceipt
}.

(** The driver ([core/db/sql.ts] is not part of the sources): a statement and
    its parameters give a row count or a native error. *)
Definition ExecFn : Type :=
  string -> list value -> World -> World * (NativeError + Z).

Variable sql_execute : ExecFn.
Variable pool_query : ExecFn.
Variable dialect : SqlDialect.

(** [catch (err) { throw mapNativeError('sql', err, collection, op) }] *)
Definition rethrow_sql {A} (collection op : string) (e : exn) : result A :=
  Throw (StrictErr (mapNativeError_sql e (Some collection) (Some op))).

Definition receipt_opts (op : OperationKind) (collection : string) (startTime : Z)
    (matched modified inserted deleted : option Z) : ReceiptOpts :=
  {| ro_operation := op; ro_collection := collection; ro_backend := sql;
     ro_startTime := startTime;
     ro_matchedCount := matched; ro_modifiedCount := modified;
     ro_insertedCount := inserted; ro_deletedCount := deleted;
     ro_success := None |}.

(** [typeof value !== 'object' || value === null || value instanceof Date] *)
Definition is_equality_value (v : value) : bool :=
  match v with
  | VObj _ | VArr _ | VRegExp _ _ => false
  | _ => true
  end.

Fixpoint upsert_filter_fields (es : Record) (doc : Record) : Record :=
  match es with
  | [] => doc
  | (key, v) :: rest =>
      if negb (starts_with_dollar key) && is_equality_value v
      then upsert_filter_fields rest (obj_set doc key v)
      else upsert_filter_fields rest doc
  end.

Fixpoint upsert_set_fields (es : Record) (doc : Record) : Record :=
  match es with
  | [] => doc
  | (key, v) :: rest => upsert_set_fields rest (obj_set doc key v)
  end.

(** [performUpsert]: the row count and the [inserted] flag. *)
Definition performUpsert (execFn : ExecFn) (collection : string) (filter : value)
    (update : UpdateOperators) : World -> World * result (Z * bool) :=
  fun w =>
    match buildUpdateSQL collection filter update dialect with
    | Throw e => (w, Throw e)
    | Ok updateQuery =>
        match translateToSQL filter dialect 1 with
        | Throw e => (w, Throw e)
        | Ok where_ =>
            let limitedSql :=
              limitUpdateOne (sql_text updateQuery) collection (clause where_) dialect in
            match execFn limitedSql (q_values updateQuery) w with
            | (w1, inl err) => (w1, Throw (NativeErr err))
            | (w1, inr rowCount) =>
                if Z.ltb 0 rowCount then (w1, Ok (rowCount, false))
                else
                  match Object_entries filter with
                  | Throw e => (w1, Throw e)
                  | Ok es =>
                      let doc := upsert_filter_fields es [] in
                      let doc :=
                        match u_set update with
                        | Some set_ => upsert_set_fields set_ doc
                        | None => doc
                        end in
                      let insertQuery := buildInsertSQL collection doc dialect in
                      match execFn (sql_text insertQuery) (q_values insertQuery) w1 with
                      | (w2, inl err) => (w2, Throw (NativeErr err))
                      | (w2, inr _) => (w2, Ok (1%Z, true))
                      end
                  end
            end
        end
    end.

Definition sql_insertOne (collection : string) (doc : Record) : Async OperationReceipt :=
  fun w =>
    let startTime := Date_now w in
    let query := buildInsertSQL collection doc dialect in
    match sql_execute (sql_text query) (q_values query) w with
    | (w1, inl err) => (w1, rethrow_sql collection "insertOne" (NativeErr err))
    | (w1, inr _) =>
        (w1, Ok (createReceipt
                   (receipt_opts insertOne_op collection startTime None None (Some 1%Z) None)
                   (Date_now w1)))
    end.

Definition sql_insertMany (collection : string) (docs : list Record)
  : Async OperationReceipt :=
  fun w =>
    let startTime := Date_now w in
    let query := buildBatchInsertSQL collection docs dialect in
    let inserted := Some (Z.of_nat (List.length docs)) in
    if is_empty_string (sql_text query) then
      (w, Ok (createReceipt
                (receipt_opts insertMany_op collection startTime None None inserted None)
                (Date_now w)))
    else
      match sql_execute (sql_text query) (q_values query) w with
      | (w1, inl err) => (w1, rethrow_sql collection "insertMany" (NativeErr err))
      | (w1, inr _) =>
          (w1, Ok (createReceipt
                     (receipt_opts insertMany_op collection startTime None None inserted None)
                     (Date_now w1)))
      end.

Definition sql_updateOne (collection : string) (filter : value) (update : UpdateOperators)
    (upsert : option bool) : Async OperationReceipt :=
  fun w =>
    let startTime := Date_now w in
    match upsert with
    | Some true =>
        match performUpsert pool_query collection filter update w with
        | (w1, Throw e) => (w1, rethrow_sql collection "updateOne" e)
        | (w1, Ok (rowCount, inserted)) =>
            (w1, Ok (createReceipt
                       (receipt_opts updateOne_op collection startTime
                          (Some (if inserted then 0%Z else rowCount))
                          (Some (if inserted then 0%Z else rowCount))
                          (Some (if inserted then 1%Z else 0%Z))
                          None)
                       (Date_now w1)))
        end
    | _ =>
        match buildUpdateSQL collection filter update dialect with
        | Throw e => (w, rethrow_sql collection "updateOne" e)
        | Ok query =>
            match translateToSQL filter dialect 1 with
            | Throw e => (w, rethrow_sql collection "updateOne" e)
            | Ok where_ =>
                let limitedSql :=
                  limitUpdateOne (sql_text query) collection (clause where_) dialect in
                match sql_execute limitedSql (q_values query) w with
                | (w1, inl err) => (w1, rethrow_sql collection "updateOne" (NativeErr err))
                | (w1, inr rowCount) =>
                    (w1, Ok (createReceipt
                               (receipt_opts updateOne_op collection startTime
                                  (Some rowCount) (Some rowCount) None None)
                               (Date_now w1)))
                end
            end
        end
    end.

Definition sql_updateMany (collection : string) (filter : value) (update : UpdateOperators)
  : Async OperationReceipt :=
  fun w =>
    let startTime := Date_now w in
    match buildUpdateSQL collection filter update dialect with
    | Throw e => (w, rethrow_sql collection "updateMany" e)
    | Ok query =>
        match sql_execute (sql_text query) (q_values query) w with
        | (w1, inl err) => (w1, rethrow_sql collection "updateMany" (NativeErr err))
        | (w1, inr rowCount) =>
            (w1, Ok (createReceipt
                       (receipt_opts updateMany_op collection startTime
                          (Some rowCount) (Some rowCount) None None)
                       (Date_now w1)))
        end
    end.

Definition sql_deleteOne (collection : string) (filter : value) : Async OperationReceipt :=
  fun w =>
    let startTime := Date_now w in
    match buildDeleteSQL collection filter dialect with
    | Throw e => (w, rethrow_sql collection "deleteOne" e)
    | Ok query =>
        match translateToSQL filter dialect 1 with
        | Throw e => (w, rethrow_sql collection "deleteOne" e)
        | Ok where_ =>
            let limitedSql :=
              limitDeleteOne (sql_text query) collection (clause where_) dialect in
            match sql_execute limitedSql (q_values query) w with
            | (w1, inl err) => (w1, rethrow_sql collection "deleteOne" (NativeErr err))
            | (w1, inr rowCount) =>
                (w1, Ok (createReceipt
                           (receipt_opts deleteOne_op collection startTime
                              None None None (Some rowCount))
                           (Date_now w1)))
            end
        end
    end.

Definition sql_deleteMany (collection : string) (filter : value) : Async OperationReceipt :=
  fun w =>
    let startTime := Date_now w in
    match buildDeleteSQL collection filter dialect with
    | Throw e => (w, rethrow_sql collection "deleteMany" e)
    | Ok query =>
        match sql_execute (sql_text query) (q_values query) w with
        | (w1, inl err) => (w1, rethrow_sql collection "deleteMany" (NativeErr err))
        | (w1, inr rowCount) =>
            (w1, Ok (createReceipt
                       (receipt_opts deleteMany_op collection startTime
                          None None None (Some rowCount))
                       (Date_now w1)))
        end
    end.

(** [SqlAdapter] *)
Definition SqlAdapter : DatabaseAdapter :=
  {| insertOne := sql_insertOne;
     insertMany := sql_insertMany;
     updateOne := sql_updateOne;
     updateMany := sql_updateMany;
     deleteOne := sql_deleteOne;
     deleteMany := sql_deleteMany |}.

(* ---------------------------------------------------------------- *)
(** *** [StrictDB.batch] ([strictdb.ts]) *)

Inductive BatchOperation :=
| BInsertOne (collection : string) (doc : Record)
| BInsertMany (collection : string) (docs : list Record)
| BUpdateOne (collection : string) (filter : value) (update : UpdateOperators)
    (upsert : option bool)
| BUpdateMany (collection : string) (filter : value) (update : UpdateOperators)
| BDeleteOne (collection : string) (filter : value)
| BDeleteMany (collection : string) (filter : value).

Record LoggerConfig := mkLoggerConfig {
  log_enabled : bool;
  slowQueryMs : Z
}.

(** [logger.logOperation(receipt)]: the events it emits. *)
Definition kind_name (k : OperationKind) : string :=
  match k with
  | insertOne_op => "insertOne" | insertMany_op => "insertMany"
  | updateOne_op => "updateOne" | updateMany_op => "updateMany"
  | deleteOne_op => "deleteOne" | deleteMany_op => "deleteMany"
  | batch_op => "batch"
  end.

Definition logOperation (config : LoggerConfig) (receipt : OperationReceipt)
  : list Event :=
  if negb (log_enabled config) then []
  else
    EvOperation (r_collection receipt) (kind_name (r_operation receipt)) (duration receipt)
    :: (if Z.leb (slowQueryMs config) (duration receipt)
        then [EvSlowQuery (r_collection receipt) (kind_name (r_operation receipt))
                (duration receipt) (slowQueryMs config)]
        else []).

(** The three running totals of [batch]. *)
Record Counts := mkCounts {
  c_inserted : Z;
  c_modified : Z;
  c_deleted : Z
}.

Variable adapter : DatabaseAdapter.
Variable timestampConfig : ResolvedTimestampConfig.
Variable this_backend : Backend.
Variable loggerConfig : LoggerConfig.

(** One iteration of the loop: the adapter call of the step. *)
Definition batch_call (op : BatchOperation) : Async OperationReceipt :=
  fun w =>
    match op with
    | BInsertOne collection doc =>
        let doc := injectInsertTimestamps doc timestampConfig (new_Date w) in
        insertOne adapter collection doc w
    | BInsertMany collection docs =>
        let docs := map (fun d => injectInsertTimestamps d timestampConfig (new_Date w)) docs in
        insertMany adapter collection docs w
    | BUpdateOne collection filter update upsert =>
        let update := injectUpdateTimestamps update timestampConfig (new_Date w) in
        updateOne adapter collection filter update upsert w
    | BUpdateMany collection filter update =>
        let update := injectUpdateTimestamps update timestampConfig (new_Date w) in
        updateMany adapter collection filter update w
    | BDeleteOne collection filter => deleteOne adapter collection filter w
    | BDeleteMany collection filter => deleteMany adapter collection filter w
    end.

(** The accumulation of the step, by operation kind. *)
Definition batch_count (op : BatchOperation) (receipt : OperationReceipt) (c : Counts)
  : Counts :=
  match op with
  | BInsertOne _ _ | BInsertMany _ _ =>
      {| c_inserted := (c_inserted c + insertedCount receipt)%Z;
         c_modified := c_modified c; c_deleted := c_deleted c |}
  | BUpdateOne _ _ _ _ | BUpdateMany _ _ _ =>
      {| c_inserted := c_inserted c;
         c_modified := (c_modified c + modifiedCount receipt)%Z;
         c_deleted := c_deleted c |}
  | BDeleteOne _ _ | BDeleteMany _ _ =>
      {| c_inserted := c_inserted c; c_modified := c_modified c;
         c_deleted := (c_deleted c + deletedCount receipt)%Z |}
  end.

Fixpoint batch_loop (operations : list BatchOperation) (c : Counts)
  : World -> World * result Counts :=
  fun w =>
    match operations with
    | [] => (w, Ok c)
    | op :: rest =>
        match batch_call op w with
        | (w1, Throw e) => (w1, Throw e)
        | (w1, Ok receipt) => batch_loop rest (batch_count op receipt c) w1
        end
    end.

(** [batch(operations)]: the world afterwards, the events logged and the
    receipt. *)
Definition batch (operations : list BatchOperation)
  : World -> World * list Event * result OperationReceipt :=
  fun w =>
    let startTime := Date_now w in
    match batch_loop operations (mkCounts 0 0 0) w with
    | (w1, Throw e) => (w1, [], Throw e)
    | (w1, Ok c) =>
        let batchReceipt :=
          createReceipt
            {| ro_operation := batch_op; ro_collection := "batch";
               ro_backend := this_backend; ro_startTime := startTime;
               ro_matchedCount := None;
               ro_modifiedCount := Some (c_modified c);
               ro_insertedCount := Some (c_inserted c);
               ro_deletedCount := Some (c_deleted c);
               ro_success := None |}
            (Date_now w1) in
        (w1, logOperation loggerConfig batchReceipt, Ok batchReceipt)
    end.

(** The receipts of the steps, in order: the same calls, replayed. *)
Fixpoint step_receipts (operations : list BatchOperation) (w : World)
  : list OperationReceipt :=
  match operations with
  | [] => []
  | op :: rest =>
      match batch_call op w with
      | (_, Throw _) => []
      | (w1, Ok receipt) => receipt :: step_receipts rest w1
      end
  end.

End Adapters.

Definition sumZ (f : OperationReceipt -> Z) (rs : list OperationReceipt) : Z :=
  fold_right (fun r acc => (f r + acc)%Z) 0%Z rs.

(* ================================================================== *)
(** ** Reading placeholders back from a clause *)
(* ================================================================== *)

(** A placeholder occurrence is a parameter marker outside quoted
    identifiers: a question mark (MySQL, SQLite), a dollar sign followed by
    digits (PostgreSQL), or [@p] followed by digits (MSSQL).  The scanner
    returns the occurrences as they are written, in order. *)

Definition is_digit (c : ascii) : bool :=
  let n := nat_of_ascii c in Nat.leb 48 n && Nat.leb n 57.

Inductive lex_state :=
| LOut
| LQuoted
| LAt
| LNum (marker digits : string).

Definition flush (st : lex_state) : list string :=
  match st with
  | LNum marker digits =>
      if is_empty_string digits then [] else [marker ++ digits]
  | _ => []
  end.

Definition lex_out (d : SqlDialect) (c : ascii) : lex_state * list string :=
  if Ascii.eqb c dquote then (LQuoted, [])
  else
    match d with
    | pg => if Ascii.eqb c "$" then (LNum "$" EmptyString, []) else (LOut, [])
    | mssql => if Ascii.eqb c "@" then (LAt, []) else (LOut, [])
    | mysql2 | sqlite => if Ascii.eqb c "?" then (LOut, ["?"]) else (LOut, [])
    end.

Definition lex_step (d : SqlDialect) (st : lex_state) (c : ascii)
  : lex_state * list string :=
  match st with
  | LOut => lex_out d c
  | LQuoted => if Ascii.eqb c dquote then (LOut, []) else (LQuoted, [])
  | LAt => if Ascii.eqb c "p" then (LNum "@p" EmptyString, []) else lex_out d c
  | LNum marker digits =>
      if is_digit c then (LNum marker (digits ++ str1 c), [])
      else let '(st', out) := lex_out d c in (st', (flush st ++ out)%list)
  end.

Fixpoint scan (d : SqlDialect) (st : lex_state) (s : string) : list string :=
  match s with
  | EmptyString => flush st
  | String c r =>
      let '(st', out) := lex_step d st c in (out ++ scan d st' r)%list
  end.

Definition placeholder_occurrences (d : SqlDialect) (clause_ : string) : list string :=
  scan d LOut clause_.

(** The placeholders a translation starting at [i] with [n] values must
    contain: [placeholder d i], ..., [placeholder d (i + n - 1)]. *)
Definition expected_placeholders (d : SqlDialect) (i n : nat) : list string :=
  map (placeholder d) (seq i n).

Fixpoint all_digits (s : string) : bool :=
  match s with
  | EmptyString => true
  | String c r => is_digit c && all_digits r
  end.

(** What may follow a clause: nothing, or a character that is not a digit. *)
Definition sep_start (tail : string) : bool :=
  match tail with
  | EmptyString => true
  | String c _ => negb (is_digit c)
  end.

(** A non-empty separator that does not start with a digit. *)
Definition sep_ok (sep : string) : bool :=
  match sep with
  | EmptyString => false
  | String c _ => negb (is_digit c)
  end.

(** [c] holds exactly the [n] placeholders numbered from [i], whatever
    follows it. *)
Definition Good (d : SqlDialect) (c : string) (i n : nat) : Prop :=
  forall tail, sep_start tail = true ->
    scan d LOut (c ++ tail) = (expected_placeholders d i n ++ scan d LOut tail)%list.

(** [c] holds no placeholder and leaves the scanner outside quotes. *)
Definition Plain (d : SqlDialect) (c : string) : Prop :=
  forall tail, scan d LOut (c ++ tail) = scan d LOut tail.

(** The parts of a clause hold consecutive placeholders. *)
Inductive GoodParts (d : SqlDialect) : list string -> nat -> nat -> Prop :=
| GP_nil : forall i, GoodParts d [] i 0
| GP_cons : forall p ps i n m,
    Good d p i n -> GoodParts d ps (i + n) m -> GoodParts d (p :: ps) i (n + m).

(** The loop invariant of the translators, from the start index [i0]. *)
Definition AccGood (d : SqlDialect) (i0 : nat) (a : Acc) : Prop :=
  idx a = i0 + List.length (vals a) /\ GoodParts d (parts a) i0 (List.length (vals a)).

(* ================================================================== *)
(** ** The tables of the specification *)
(* ================================================================== *)

(** The filter of scenario 1: [{age: {$gte: 18, $lt: 65}, role: 'admin'}]. *)
Definition filter_age_role (lo hi : value) (role : string) : value :=
  VObj [("age", VObj [("$gte", lo); ("$lt", hi)]); ("role", VStr role)].

(** The number of keys of a filter ([null] and [undefined] have none). *)
Definition key_count (filter : value) : nat :=
  match Object_entries filter with
  | Ok es => List.length es
  | Throw _ => 0
  end.

Definition confirm_of (options : option GuardOptions) : option string :=
  match options with Some o => g_confirm o | None => None end.

Definition limit_of (options : option GuardOptions) : option Z :=
  match options with Some o => g_limit o | None => None end.

Definition confirm_is (options : option GuardOptions) (token : string) : bool :=
  match confirm_of options with
  | Some c => String.eqb c token
  | None => false
  end.

(** The decision table of the guardrails, row by row. *)
Definition guardrail_blocks (operation : string) (filter : value)
    (options : option GuardOptions) : bool :=
  (String.eqb operation "deleteMany" && Nat.eqb (key_count filter) 0
     && negb (confirm_is options "DELETE_ALL"))
  || (String.eqb operation "updateMany" && Nat.eqb (key_count filter) 0
        && negb (confirm_is options "UPDATE_ALL"))
  || (String.eqb operation "deleteOne" && Nat.eqb (key_count filter) 0)
  || (String.eqb operation "queryMany"
        && match limit_of options with None => true | Some _ => false end).







Definition where_text (w : SqlTranslation) : string :=
  if String.eqb (clause w) "1=1" then EmptyString else " WHERE " ++ clause w.


(** The filter of scenario 2: [{$or: [{role: 'admin'}, {role: 'mod'}]}]. *)
Definition filter_or_roles : value :=
  VObj [("$or", VArr [VObj [("role", VStr "admin")]; VObj [("role", VStr "mod")]])].

(** [filters.map(f => rec(f))], stopping at the first exception. *)
Section MapResult.
Variable rec : value -> result value.
Fixpoint map_result (fs : list value) : result (list value) :=
  match fs with
  | [] => Ok []
  | f :: fs' =>
      match rec f with
      | Throw e => Throw e
      | Ok q =>
          match map_result fs' with
          | Throw e => Throw e
          | Ok qs => Ok (q :: qs)
          end
      end
  end.
End MapResult.

(** An operator bag without its [$options] entries. *)
Definition without_options (ops : Record) : Record :=
  filter (fun '(op, _) => negb (String.eqb op "$options")) ops.

(** An update without [$push] and [$pull]. *)
Definition without_push_pull (u : UpdateOperators) : UpdateOperators :=
  {| u_set := u_set u; u_inc := u_inc u; u_unset := u_unset u;
     u_push := None; u_pull := None |}.

(** A batch of one upsert on a table where the UPDATE matches no row: the
    world is trivial, the clock stands still, and the driver reports zero
    rows for every statement. *)
Definition quiet_driver : ExecFn unit := fun _ _ w => (w, inr 0%Z).

Definition timestamps_off : ResolvedTimestampConfig :=
  {| ts_enabled := false; createdAt := "created_at"; updatedAt := "updated_at" |}.

Definition upsert_batch : list BatchOperation :=
  [BUpdateOne "users" (VObj [("email", VStr "a@b.c")])
     (mkUpdate (Some [("name", VStr "A")]) None None None None) (Some true)].

Definition run_upsert_batch : unit * list Event * result OperationReceipt :=
  batch (fun _ => 0%Z) (fun _ => VDate "now")
    (SqlAdapter (fun _ => 0%Z) quiet_driver quiet_driver pg)
    timestamps_off sql (mkLoggerConfig true 1000) upsert_batch tt.

Definition upsert_batch_steps : list OperationReceipt :=
  step_receipts (fun _ => VDate "now")
    (SqlAdapter (fun _ => 0%Z) quiet_driver quiet_driver pg)
    timestamps_off upsert_batch tt.

(** The steps of a batch by kind. *)
Definition is_insert_step (op : BatchOperation) : bool :=
  match op with BInsertOne _ _ | BInsertMany _ _ => true | _ => false end.

Definition is_update_step (op : BatchOperation) : bool :=
  match op with BUpdateOne _ _ _ _ | BUpdateMany _ _ _ => true | _ => false end.

Definition is_delete_step (op : BatchOperation) : bool :=
  match op with BDeleteOne _ _ | BDeleteMany _ _ => true | _ => false end.

(** The sum of a count over the receipts of the steps of one kind. *)
Fixpoint kind_sum (kind : BatchOperation -> bool) (count : OperationReceipt -> Z)
    (operations : list BatchOperation) (receipts : list OperationReceipt) : Z :=
  match operations, receipts with
  | op :: ops, r :: rs =>
      ((if kind op then count r else 0) + kind_sum kind count ops rs)%Z
  | _, _ => 0%Z
  end.








(** The two loops of [translateToSQL] as functions of their own, over the
    recursive call [rec]; [translateToSQL_object] below shows that they are
    the loops of the definition. *)
Section SqlLoops.
Variable rec : value -> nat -> result SqlTranslation.
Variable dialect : SqlDialect.

Fixpoint sub_filters_loop (fs : list value) (subClauses : list string) (a : Acc)
  : result (list string * Acc) :=
  match fs with
  | [] => Ok (subClauses, a)
  | subFilter :: fs' =>
      match rec subFilter (idx a) with
      | Throw e => Throw e
      | Ok sub =>
          if keeps_sub sub
          then sub_filters_loop fs' (push subClauses ("(" ++ clause sub ++ ")"))
                 {| parts := parts a;
                    vals := push_all (vals a) (values sub);
                    idx := idx a + List.length (values sub) |}
          else sub_filters_loop fs' subClauses a
      end
  end.

Fixpoint entries_loop (es : Record) (a : Acc) : result Acc :=
  match es with
  | [] => Ok a
  | (key, v) :: rest =>
      if is_logical key then
        match v with
        | VArr ((_ :: _) as filters) =>
            match sub_filters_loop filters [] a with
            | Throw e => Throw e
            | Ok (subClauses, a') =>
                entries_loop rest {| parts := push_logical key subClauses (parts a');
                                     vals := vals a'; idx := idx a' |}
            end
        | _ => entries_loop rest a
        end
      else
        match translate_field key v dialect a with
        | Throw e => Throw e
        | Ok a' => entries_loop rest a'
        end
  end.
End SqlLoops.

(** The loop of [translateFieldOpsToElastic] as a function of its own, over
    the recursive call [rec]. *)
Section ElasticLoop.
Variable rec : value -> result (list value).
Variable field_ : string.

Fixpoint field_ops_loop (es : Record) (a : EsAcc) : result (list value) :=
  match es with
  | [] => Ok (es_finish field_ a)
  | (op, v) :: rest =>
      if String.eqb op "$eq" then
        match v with
        | VNull => field_ops_loop rest (es_push a (es_must_not (es_exists field_)))
        | _ => field_ops_loop rest (es_push a (VObj [("term", VObj [(field_, v)])]))
        end
      else if String.eqb op "$ne" then
        match v with
        | VNull => field_ops_loop rest (es_push a (es_exists field_))
        | _ =>
            field_ops_loop rest
              (es_push a (es_must_not (VObj [("term", VObj [(field_, v)])])))
        end
      else if String.eqb op "$gt" then field_ops_loop rest (es_range a "gt" v)
      else if String.eqb op "$gte" then field_ops_loop rest (es_range a "gte" v)
      else if String.eqb op "$lt" then field_ops_loop rest (es_range a "lt" v)
      else if String.eqb op "$lte" then field_ops_loop rest (es_range a "lte" v)
      else if String.eqb op "$in" then
        field_ops_loop rest (es_push a (VObj [("terms", VObj [(field_, v)])]))
      else if String.eqb op "$nin" then
        field_ops_loop rest
          (es_push a (es_must_not (VObj [("terms", VObj [(field_, v)])])))
      else if String.eqb op "$exists" then
        if truthy v
        then field_ops_loop rest (es_push a (es_exists field_))
        else field_ops_loop rest (es_push a (es_must_not (es_exists field_)))
      else if String.eqb op "$regex" then
        let pattern := match v with VRegExp source _ => source | _ => js_String v end in
        field_ops_loop rest (es_push a (VObj [("regexp", VObj [(field_, VStr pattern)])]))
      else if String.eqb op "$options" then field_ops_loop rest a
      else if String.eqb op "$not" then
        match rec v with
        | Throw e => Throw e
        | Ok subClauses => field_ops_loop rest (es_push a (es_must_not (VArr subClauses)))
        end
      else if String.eqb op "$size" then
        field_ops_loop rest
          (es_push a
             (VObj [("script",
                VObj [("script",
                  VObj [("source", VStr ("doc['" ++ field_ ++ "'].size() == params.size"));
                        ("params", VObj [("size", v)])])])]))
      else Throw (unknown_operator_elastic op)
  end.
End ElasticLoop.

(** ** Induction on values, through arrays and objects *)

Definition atomic (v : value) : Prop :=
  match v with
  | VArr _ | VObj _ => False
  | _ => True
  end.

Section ValueInduction.
Variable P : value -> Prop.
Hypothesis P_atomic : forall v, atomic v -> P v.
Hypothesis P_arr : forall items, Forall P items -> P (VArr items).
Hypothesis P_obj : forall entries, Forall (fun kv => P (snd kv)) entries -> P (VObj entries).

Fixpoint value_nested_ind (v : value) : P v :=
  match v with
  | VArr items =>
      P_arr
        ((fix all (xs : list value) : Forall P xs :=
            match xs with
            | [] => Forall_nil P
            | x :: r => Forall_cons x (value_nested_ind x) (all r)
            end) items)
  | VObj entries =>
      P_obj
        ((fix all (es : Record) : Forall (fun kv => P (snd kv)) es :=
            match es with
            | [] => Forall_nil _
            | kv :: r => Forall_cons kv (value_nested_ind (snd kv)) (all r)
            end) entries)
  | VUndefined => P_atomic VUndefined I
  | VNull => P_atomic VNull I
  | VBool b => P_atomic (VBool b) I
  | VNum n => P_atomic (VNum n) I
  | VStr s => P_atomic (VStr s) I
  | VDate t => P_atomic (VDate t) I
  | VRegExp a b => P_atomic (VRegExp a b) I
  end.
End ValueInduction.

(** What the main invariant says of one filter. *)
Definition SqlGood (v : value) : Prop :=
  forall d i r,
    translateToSQL v d i = Ok r -> Good d (clause r) i (List.length (values r)).

(** The operator bag of the open question on [$options], with and without it. *)
Definition bag_regex_options : value :=
  VObj [("name", VObj [("$regex", VStr "^a"); ("$options", VStr "i")])].

Definition bag_regex_only : value :=
  VObj [("name", VObj [("$regex", VStr "^a")])].

(* ================================================================== *)
(** ** More of the statement builders ([filter-translator.ts]) *)
(* ================================================================== *)

Definition buildCountSQL (table : string) (filter : value) (dialect : SqlDialect)
  : result FullSqlQuery :=
  match translateToSQL filter dialect 1 with
  | Throw e => Throw e
  | Ok where_ =>
      Ok {| sql_text := add_where ("SELECT COUNT(*) as count FROM " ++ quoteIdentifier table)
                          where_;
            q_values := values where_ |}
  end.

(** Text without a double quote and without a placeholder marker. *)
Definition is_marker (c : ascii) : bool :=
  Ascii.eqb c dquote || Ascii.eqb c "$" || Ascii.eqb c "@" || Ascii.eqb c "?".

Fixpoint marker_free (s : string) : bool :=
  match s with
  | EmptyString => true
  | String c r => negb (is_marker c) && marker_free r
  end.

(** The entries of an operator that may be absent. *)
Definition entries_of (o : option Record) : Record :=
  match o with Some es => es | None => [] end.

(** A document and a filter used to exercise the builders. *)
Definition mssql_page : SelectOptions :=
  mkSelectOptions (Some [("name", VNum (-1))]) (Some 10%Z) (Some 5%Z)
    (Some [("name", VNum 1)]) (Some mssql).

Definition doc_name_age : Record := [("name", VStr "Ann"); ("age", VNum 30)].

Definition filter_role : value := VObj [("role", VStr "admin")].

Definition update_set_inc : UpdateOperators :=
  mkUpdate (Some [("name", VStr "A")]) (Some [("visits", VNum 1)])
    (Some [("tmp", VBool true)]) None None.

(* ================================================================== *)
(** ** Exclusion projections ([filter-translator.ts], [adapters/sql-adapter.ts]) *)
(* ================================================================== *)

(** [getExcludedFields]: the field names of an exclusion-only projection. *)
Definition getExcludedFields (projection : Record) : option (list string) :=
  match projection with
  | [] => None
  | _ :: _ =>
      let allExclusions := forallb (fun '(_, v) => value_is_num v 0) projection in
      if negb allExclusions then None
      else Some (map (fun '(field, _) => field) projection)
  end.

(** [delete obj[field]] *)
Definition obj_delete (o : Record) (field : string) : Record :=
  filter (fun '(k, _) => negb (String.eqb k field)) o.

(** [stripExcludedFields(rows, projection)] *)
Definition stripExcludedFields (rows : list Record) (projection : option Record)
  : list Record :=
  match projection with
  | None => rows
  | Some projection =>
      match getExcludedFields projection with
      | None => rows
      | Some excluded => map (fun row => fold_left obj_delete excluded row) rows
      end
  end.

(* ================================================================== *)
(** ** The timestamp option ([timestamps.ts]) *)
(* ================================================================== *)





(** A projection that hides two fields, and a row that has them. *)
Definition hide_secrets : Record := [("password", VNum 0); ("token", VNum 0)].

Definition user_row : Record :=
  [("name", VStr "Ann"); ("password", VStr "x"); ("token", VStr "t")].

(* ================================================================== *)
(** ** Field whitelists and index names ([sanitize.ts]) *)
(* ================================================================== *)

(** [new Set(fields)]: the distinct fields in the order of first insertion. *)
Definition set_has (s : list string) (x : string) : bool := existsb (String.eqb x) s.

Definition set_add (s : list string) (x : string) : list string :=
  if set_has s x then s else push s x.

Definition new_Set (fields : list string) : list string := fold_left set_add fields [].

(** [schemaCache]: a [Map] from collection to its field set. *)
Definition SchemaCache := list (string * list string).

Fixpoint cache_get (cache : SchemaCache) (collection : string) : option (list string) :=
  match cache with
  | [] => None
  | (c, fields) :: rest => if String.eqb c collection then Some fields else cache_get rest collection
  end.

Fixpoint cache_set (cache : SchemaCache) (collection : string) (fields : list string)
  : SchemaCache :=
  match cache with
  | [] => [(collection, fields)]
  | (c, old) :: rest =>
      if String.eqb c collection then (c, fields) :: rest
      else (c, old) :: cache_set rest collection fields
  end.

Definition registerFields (cache : SchemaCache) (collection : string) (fields : list string)
  : SchemaCache :=
  cache_set cache collection (new_Set fields).

Definition getRegisteredFields (cache : SchemaCache) (collection : string)
  : option (list string) :=
  cache_get cache collection.

Definition clearFieldRegistry (cache : SchemaCache) : SchemaCache := [].

Definition unknown_field (key collection : string) (validFields : list string)
    (backend : Backend) : exn :=
  StrictErr (newStrictDBError
    {| o_code := QUERY_ERROR;
       o_message := "Unknown field " ++ in_quotes key ++ " in collection "
                      ++ in_quotes collection ++ ".";
       o_fix := "Valid fields: " ++ join ", " validFields
                  ++ ". Check the field name for typos.";
       o_backend := backend;
       o_collection := Some collection; o_operation := None; o_retryable := None |}).

Section FieldLoops.

Variable rec : value -> result unit.

(** [for (const sub of value) { rec(sub) }] *)
Fixpoint each_sub (subs : list value) : result unit :=
  match subs with
  | [] => Ok tt
  | sub :: rest =>
      match rec sub with
      | Throw e => Throw e
      | Ok _ => each_sub rest
      end
  end.

Variable collection : string.
Variable validFields : list string.
Variable backend : Backend.

(** The loop of [validateFieldsRecursive] over the entries of a filter. *)
Fixpoint validate_entries (es : Record) : result unit :=
  match es with
  | [] => Ok tt
  | (key, v) :: rest =>
      if is_logical key then
        match v with
        | VArr subs =>
            match each_sub subs with
            | Throw e => Throw e
            | Ok _ => validate_entries rest
            end
        | _ => validate_entries rest
        end
      else if starts_with_dollar key then validate_entries rest
      else if negb (set_has validFields key)
      then Throw (unknown_field key collection validFields backend)
      else validate_entries rest
  end.

End FieldLoops.

(** [validateFieldsRecursive].  The entries of an array or a string have
    index keys, which are no logical operators, so their loop makes no
    recursive call. *)
Fixpoint validateFieldsRecursive (collection : string) (filter : value)
    (validFields : list string) (backend : Backend) {struct filter} : result unit :=
  match filter with
  | VObj entries =>
      validate_entries
        (fun sub => validateFieldsRecursive collection sub validFields backend)
        collection validFields backend entries
  | other =>
      match Object_entries other with
      | Throw e => Throw e
      | Ok entries =>
          validate_entries (fun _ => Ok tt) collection validFields backend entries
      end
  end.

(** [validateFilterFields] *)
Definition validateFilterFields (cache : SchemaCache) (collection : string) (filter : value)
    (backend : Backend) : result unit :=
  match cache_get cache collection with
  | None => Ok tt
  | Some fields => validateFieldsRecursive collection filter fields backend
  end.

(** [ES_INTERNAL_FIELDS] *)
Definition ES_INTERNAL_FIELDS : list string :=
  ["_id"; "_index"; "_score"; "_source"; "_type"; "_routing";
   "_meta"; "_field_names"; "_ignored"; "_seq_no"; "_primary_term"].

Definition internal_field (key collection : string) : exn :=
  StrictErr (newStrictDBError
    {| o_code := QUERY_ERROR;
       o_message := "Field " ++ in_quotes key
                      ++ " is an Elasticsearch internal field and cannot be used in queries.";
       o_fix := "Remove " ++ in_quotes key
                  ++ " from your filter. To query by document ID, use a separate lookup method.";
       o_backend := elastic;
       o_collection := Some collection; o_operation := None; o_retryable := None |}).

Section ElasticFieldLoop.

Variable rec : value -> result unit.
Variable cache : SchemaCache.
Variable collection : string.

(** The loop of [validateElasticFields] over the entries of a filter. *)
Fixpoint elastic_entries (es : Record) : result unit :=
  match es with
  | [] => Ok tt
  | (key, v) :: rest =>
      if is_logical key then
        match v with
        | VArr subs =>
            match each_sub rec subs with
            | Throw e => Throw e
            | Ok _ => elastic_entries rest
            end
        | _ => elastic_entries rest
        end
      else if starts_with_dollar key then elastic_entries rest
      else if set_has ES_INTERNAL_FIELDS key then Throw (internal_field key collection)
      else
        match validateFilterFields cache collection (VObj [(key, v)]) elastic with
        | Throw e => Throw e
        | Ok _ => elastic_entries rest
        end
  end.

End ElasticFieldLoop.

(** [validateElasticFields] *)
Fixpoint validateElasticFields (cache : SchemaCache) (collection : string) (filter : value)
    {struct filter} : result unit :=
  match filter with
  | VObj entries =>
      elastic_entries (fun sub => validateElasticFields cache collection sub)
        cache collection entries
  | other =>
      match Object_entries other with
      | Throw e => Throw e
      | Ok entries => elastic_entries (fun _ => Ok tt) cache collection entries
      end
  end.

Definition invalid_index_name (name : string) : exn :=
  StrictErr (newStrictDBError
    {| o_code := QUERY_ERROR;
       o_message := "Invalid index name " ++ in_quotes name ++ ".";
       o_fix := "Index names cannot contain wildcards (*), commas, or spaces. Use a specific index name.";
       o_backend := elastic;
       o_collection := None; o_operation := None; o_retryable := None |}).

Definition system_index_name (name : string) : exn :=
  StrictErr (newStrictDBError
    {| o_code := QUERY_ERROR;
       o_message := "Index name " ++ in_quotes name ++ " appears to be a system index.";
       o_fix := "System indices (starting with . or -) cannot be accessed directly. Use a regular index name.";
       o_backend := elastic;
       o_collection := None; o_operation := None; o_retryable := None |}).

(** [validateIndexName] *)
Definition validateIndexName (name : string) : result unit :=
  if includes "*" name || includes "," name || includes " " name
  then Throw (invalid_index_name name)
  else if startsWith "." name || startsWith "-" name
  then Throw (system_index_name name)
  else Ok tt.

(** [sanitizeFilter] *)
Definition sanitizeFilter (cache : SchemaCache) (collection : string) (filter : value)
    (backend : Backend) : result unit :=
  match backend with
  | mongo => Ok tt
  | sql => validateFilterFields cache collection filter sql
  | elastic => validateElasticFields cache collection filter
  end.

(** The fields a filter names: the keys that are no operators, at the top
    level and in the sub-filters of logical operators at any depth. *)
Inductive Names : value -> string -> Prop :=
| Names_here : forall f es key v,
    Object_entries f = Ok es -> In (key, v) es -> starts_with_dollar key = false ->
    Names f key
| Names_sub : forall f es op subs sub key,
    Object_entries f = Ok es -> In (op, VArr subs) es -> is_logical op = true ->
    In sub subs -> Names sub key ->
    Names f key.

(** What the error of a refused filter may be. *)
Definition FieldError (collection : string) (validFields : list string) (backend : Backend)
    (f : value) (e : exn) : Prop :=
  (exists key, Names f key /\ set_has validFields key = false
     /\ e = unknown_field key collection validFields backend)
  \/ e = TypeError "Cannot convert undefined or null to object".




(** A driver that refuses every statement, and counts the statements it was
    given. *)
Definition refusing_driver : ExecFn nat :=
  fun _ _ w => (S w, inl {| ne_code := Some "ECONNREFUSED"; ne_message := None;
                            ne_text := "Error" |}).

Definition two_deletes : list BatchOperation :=
  [BDeleteOne "users" filter_role; BDeleteOne "users" filter_role].

(** The first receipt of a list of steps. *)
Definition hd_receipt (rs : list OperationReceipt) : OperationReceipt :=
  hd (createReceipt
        {| ro_operation := batch_op; ro_collection := EmptyString; ro_backend := sql;
           ro_startTime := 0%Z; ro_matchedCount := None; ro_modifiedCount := None;
           ro_insertedCount := None; ro_deletedCount := None; ro_success := None |} 0%Z)
     rs.


Definition filter_typo : value := VObj [("nme", VNum 1)].

Definition users_schema : SchemaCache :=
  registerFields [] "users" ["name"; "role"; "name"].

Definition filter_nested_role : value :=
  VObj [("$or", VArr [VObj [("name", VStr "a")];
                      VObj [("$and", VArr [VObj [("role", VStr "admin")]])]])].

(* ================================================================== *)
(** ** The error mappers of the other backends ([errors.ts]) *)
(* ================================================================== *)













(* ================================================================== *)
(** ** Updates as Painless scripts ([filter-translator.ts]) *)
(* ================================================================== *)

Record PainlessScript := mkScript {
  ps_source : string;
  ps_params : Record
}.

(** [scriptParts] and [params] while the loops run. *)
Record ScriptAcc := mkScriptAcc {
  scriptParts : list string;
  params : Record
}.

Fixpoint script_set_entries (es : Record) (a : ScriptAcc) : ScriptAcc :=
  match es with
  | [] => a
  | (field, v) :: rest =>
      let paramName := "set_" ++ field in
      script_set_entries rest
        {| scriptParts := push (scriptParts a)
                            ("ctx._source." ++ field ++ " = params." ++ paramName);
           params := obj_set (params a) paramName v |}
  end.

Fixpoint script_inc_entries (es : Record) (a : ScriptAcc) : ScriptAcc :=
  match es with
  | [] => a
  | (field, amount) :: rest =>
      let paramName := "inc_" ++ field in
      script_inc_entries rest
        {| scriptParts := push (scriptParts a)
                            ("ctx._source." ++ field ++ " += params." ++ paramName);
           params := obj_set (params a) paramName amount |}
  end.

Fixpoint script_unset_entries (es : Record) (a : ScriptAcc) : ScriptAcc :=
  match es with
  | [] => a
  | (field, _) :: rest =>
      script_unset_entries rest
        {| scriptParts := push (scriptParts a) ("ctx._source.remove('" ++ field ++ "')");
           params := params a |}
  end.

Fixpoint script_push_entries (es : Record) (a : ScriptAcc) : ScriptAcc :=
  match es with
  | [] => a
  | (field, v) :: rest =>
      let paramName := "push_" ++ field in
      script_push_entries rest
        {| scriptParts := push (scriptParts a)
                            ("if (ctx._source." ++ field ++ " == null) { ctx._source." ++ field
                               ++ " = [] } ctx._source." ++ field ++ ".add(params."
                               ++ paramName ++ ")");
           params := obj_set (params a) paramName v |}
  end.

Fixpoint script_pull_entries (es : Record) (a : ScriptAcc) : ScriptAcc :=
  match es with
  | [] => a
  | (field, v) :: rest =>
      let paramName := "pull_" ++ field in
      script_pull_entries rest
        {| scriptParts := push (scriptParts a)
                            ("if (ctx._source." ++ field ++ " != null) { ctx._source." ++ field
                               ++ ".removeIf(item -> item == params." ++ paramName ++ ") }");
           params := obj_set (params a) paramName v |}
  end.

Definition no_script_operations : exn :=
  StrictErr (newStrictDBError
    {| o_code := QUERY_ERROR;
       o_message := "Update operation has no operations.";
       o_fix := "Provide at least one update operator: $set, $inc, $unset, $push, or $pull.";
       o_backend := elastic;
       o_collection := None; o_operation := None; o_retryable := None |}).

(** [translateUpdateToElastic(update)] *)
Definition translateUpdateToElastic (update : UpdateOperators) : result PainlessScript :=
  let a := mkScriptAcc [] [] in
  let a := match u_set update with Some es => script_set_entries es a | None => a end in
  let a := match u_inc update with Some es => script_inc_entries es a | None => a end in
  let a := match u_unset update with Some es => script_unset_entries es a | None => a end in
  let a := match u_push update with Some es => script_push_entries es a | None => a end in
  let a := match u_pull update with Some es => script_pull_entries es a | None => a end in
  match scriptParts a with
  | [] => Throw no_script_operations
  | _ :: _ => Ok {| ps_source := join "; " (scriptParts a); ps_params := params a |}
  end.

(** The parameters of a script, as the operators name them. *)
Definition named (prefix_ : string) (es : Record) : Record :=
  map (fun '(field, v) => (prefix_ ++ field, v)) es.

Definition script_bindings (update : UpdateOperators) : Record :=
  (named "set_" (entries_of (u_set update)) ++ named "inc_" (entries_of (u_inc update))
   ++ named "push_" (entries_of (u_push update))
   ++ named "pull_" (entries_of (u_pull update)))%list.

Definition bind_all (bs : Record) (o : Record) : Record :=
  fold_left (fun o '(k, v) => obj_set o k v) bs o.

Definition update_all_five : UpdateOperators :=
  mkUpdate (Some [("name", VStr "A")]) (Some [("visits", VNum 1)])
    (Some [("tmp", VBool true)]) (Some [("tags", VStr "a")]) (Some [("tags", VStr "b")]).

(* ================================================================== *)
(** ** Suggestions for unknown collections ([errors.ts]) *)
(* ================================================================== *)

(** [String.prototype.toLowerCase] on code units below 256: the letters A to
    Z, and the capital letters of Latin-1 but the multiplication sign. *)
Definition lower_char (c : ascii) : ascii :=
  let n := nat_of_ascii c in
  if Nat.leb 65 n && Nat.leb n 90 then ascii_of_nat (n + 32)
  else if Nat.leb 192 n && Nat.leb n 222 && negb (Nat.eqb n 215) then ascii_of_nat (n + 32)
  else c.

Fixpoint toLowerCase (s : string) : string :=
  match s with
  | EmptyString => EmptyString
  | String c r => String (lower_char c) (toLowerCase r)
  end.

(** The table [dp] of [levenshtein], kept as its current row.  [fill_row]
    computes the cells [dp[i][j]], [j >= 1], of row [i] from the row above:
    [above] holds [dp[i-1][j..]], [left] is [dp[i][j-1]] and [diag] is
    [dp[i-1][j-1]]. *)
Fixpoint fill_row (ca : ascii) (b : list ascii) (above : list nat) (left diag : nat)
  : list nat :=
  match b, above with
  | cb :: b', up :: above' =>
      let cost := if Ascii.eqb ca cb then 0 else 1 in
      let cell := Nat.min (Nat.min (up + 1) (left + 1)) (diag + cost) in
      cell :: fill_row ca b' above' cell up
  | _, _ => []
  end.

(** The rows [i], [i + 1], ... for the characters of [a] that are left; the
    last row is returned. *)
Fixpoint fill_rows (a b : list ascii) (i : nat) (prev : list nat) : list nat :=
  match a with
  | [] => prev
  | ca :: a' => fill_rows a' b (S i) (i :: fill_row ca b (tl prev) i (hd 0 prev))
  end.

(** [levenshtein(a, b)]: the cell [dp[m][n]]. *)
Definition levenshtein (a b : string) : nat :=
  let n := String.length b in
  last (fill_rows (list_ascii_of_string a) (list_ascii_of_string b) 1 (seq 0 (S n))) 0.

(** The loop of [findClosestMatch]; [bestDistance] is [None] while it is
    [Infinity]. *)
Fixpoint closest_loop (input : string) (candidates : list string)
    (bestMatch : option string) (bestDistance : option nat) : option string :=
  match candidates with
  | [] => bestMatch
  | candidate :: rest =>
      let dist := levenshtein (toLowerCase input) (toLowerCase candidate) in
      if match bestDistance with Some d => Nat.ltb dist d | None => true end
         && Nat.leb dist 3
      then closest_loop input rest (Some candidate) (Some dist)
      else closest_loop input rest bestMatch bestDistance
  end.

(** [findClosestMatch(input, candidates)] *)
Definition findClosestMatch (input : string) (candidates : list string) : option string :=
  match candidates with
  | [] => None
  | _ :: _ => closest_loop input candidates None None
  end.

(** The edit distance by its recurrence, on the reversed words. *)
Fixpoint lev_spec (a b : list ascii) {struct a} : nat :=
  match a with
  | [] => List.length b
  | ca :: a' =>
      (fix inner (b : list ascii) : nat :=
         match b with
         | [] => S (List.length a')
         | cb :: b' =>
             Nat.min (Nat.min (lev_spec a' b + 1) (inner b' + 1))
               (lev_spec a' b' + (if Ascii.eqb ca cb then 0 else 1))
         end) b
  end.

(** The cells of the row of [r] right of the column of [rb]. *)
Fixpoint cells (r rb brem : list ascii) : list nat :=
  match brem with
  | [] => []
  | cb :: b' => lev_spec r (cb :: rb) :: cells r (cb :: rb) b'
  end.

(** What [findClosestMatch] returns for the candidates [all]: the first of
    the candidates at the least distance, when that is at most 3. *)
Definition Closest (dist : string -> nat) (all : list string) (r : option string) : Prop :=
  match r with
  | None => forall c, In c all -> 3 < dist c
  | Some best =>
      dist best <= 3
      /\ exists before after,
           all = (before ++ best :: after)%list
           /\ (forall c, In c before -> dist best < dist c)
           /\ (forall c, In c after -> dist best <= dist c)
  end.

(** The distance [findClosestMatch] compares. *)
Definition name_distance (input candidate : string) : nat :=
  levenshtein (toLowerCase input) (toLowerCase candidate).

(* ================================================================== *)
(** * Properties *)
(* ================================================================== *)

(** ** Strings and decimal digits *)

Lemma str_app_nil_r (s : string) : s ++ EmptyString = s.
Proof. induction s as [|c s IH]; simpl; [reflexivity | now rewrite IH]. Qed.

Lemma str_app_assoc (a b c : string) : (a ++ b) ++ c = a ++ (b ++ c).
Proof. induction a as [|x a IH]; simpl; [reflexivity | now rewrite IH]. Qed.

Lemma string_of_uint_digits (u : Decimal.uint) :
  all_digits (NilEmpty.string_of_uint u) = true.
Proof. induction u; simpl; auto. Qed.

Lemma nat_to_string_digits (n : nat) : all_digits (nat_to_string n) = true.
Proof. apply string_of_uint_digits. Qed.

Lemma to_uint_not_Nil (n : nat) : Nat.to_uint n <> Decimal.Nil.
Proof.
  intros H.
  assert (E : Nat.of_uint (Nat.to_uint n) = n) by apply DecimalNat.Unsigned.of_to.
  rewrite H in E. simpl in E. subst n. discriminate H.
Qed.

Lemma nat_to_string_nonempty (n : nat) : is_empty_string (nat_to_string n) = false.
Proof.
  unfold nat_to_string.
  pose proof (to_uint_not_Nil n) as H.
  destruct (Nat.to_uint n); simpl; congruence.
Qed.

(** Decimal printing is injective: distinct indices give distinct text. *)
Lemma nat_to_string_inj (n m : nat) : nat_to_string n = nat_to_string m -> n = m.
Proof.
  unfold nat_to_string. intros H.
  apply DecimalNat.Unsigned.to_uint_inj.
  assert (E : forall u, NilEmpty.uint_of_string (NilEmpty.string_of_uint u) = Some u)
    by apply NilEmpty.usu.
  pose proof (E (Nat.to_uint n)) as En. rewrite H, E in En. congruence.
Qed.

(** ** The scanner on the pieces of a clause *)

Lemma scan_digits (d : SqlDialect) (marker : string) :
  forall ds acc tail,
    all_digits ds = true -> sep_start tail = true ->
    scan d (LNum marker acc) (ds ++ tail)
    = (flush (LNum marker (acc ++ ds)) ++ scan d LOut tail)%list.
Proof.
  induction ds as [|c ds IH]; intros acc tail Hd Ht.
  - rewrite str_app_nil_r. simpl (EmptyString ++ tail).
    destruct tail as [|c r].
    + simpl. now rewrite app_nil_r.
    + simpl in Ht. cbn [scan lex_step].
      apply negb_true_iff in Ht. rewrite Ht.
      destruct (lex_out d c) as [st' out]. now rewrite app_assoc.
  - simpl in Hd. apply andb_true_iff in Hd as [Hc Hd].
    simpl (String c ds ++ tail). cbn [scan lex_step]. rewrite Hc.
    simpl ([] ++ _)%list. rewrite IH by assumption.
    now rewrite str_app_assoc.
Qed.

Lemma flush_number (marker : string) (n : nat) :
  flush (LNum marker (EmptyString ++ nat_to_string n)) = [marker ++ nat_to_string n].
Proof.
  simpl (EmptyString ++ _). unfold flush. now rewrite nat_to_string_nonempty.
Qed.

Lemma Good_placeholder (d : SqlDialect) (i : nat) : Good d (placeholder d i) i 1.
Proof.
  intros tail Ht. unfold expected_placeholders. simpl seq. simpl map.
  destruct d; cbn [placeholder].
  - cbn [append scan lex_step].
    change (lex_out pg "$") with (LNum "$" EmptyString, @nil string).
    cbn iota. cbn [app].
    rewrite scan_digits by (auto using nat_to_string_digits).
    now rewrite flush_number.
  - reflexivity.
  - cbn [append scan lex_step].
    change (lex_out mssql "@") with (LAt, @nil string).
    cbn iota. cbn [scan lex_step app].
    change (Ascii.eqb "p" "p") with true. cbn iota. cbn [app].
    rewrite scan_digits by (auto using nat_to_string_digits).
    now rewrite flush_number.
  - reflexivity.
Qed.

Lemma scan_quoted_name (d : SqlDialect) :
  forall name rest,
    scan d LQuoted (double_dquotes name ++ rest) = scan d LQuoted rest.
Proof.
  induction name as [|c name IH]; intros rest; [reflexivity|].
  cbn [double_dquotes]. destruct (Ascii.eqb c dquote) eqn:E.
  - cbn [append scan lex_step]. rewrite Ascii.eqb_refl. cbn iota. cbn [app scan lex_step].
    unfold lex_out. rewrite Ascii.eqb_refl. cbn iota. cbn [app]. apply IH.
  - cbn [append scan lex_step]. rewrite E. cbn iota. cbn [app]. apply IH.
Qed.

Lemma Plain_quoteIdentifier (d : SqlDialect) (name : string) :
  Plain d (quoteIdentifier name).
Proof.
  intros tail. unfold quoteIdentifier, DQ, str1.
  rewrite !str_app_assoc. cbn [append scan lex_step].
  unfold lex_out at 1. rewrite Ascii.eqb_refl. cbn iota. cbn [app].
  rewrite scan_quoted_name. cbn [append scan lex_step].
  rewrite Ascii.eqb_refl. reflexivity.
Qed.

Lemma Plain_nil (d : SqlDialect) : Plain d EmptyString.
Proof. intros tail. reflexivity. Qed.

Lemma Plain_app (d : SqlDialect) (a b : string) :
  Plain d a -> Plain d b -> Plain d (a ++ b).
Proof. intros Ha Hb tail. now rewrite str_app_assoc, Ha, Hb. Qed.

Lemma Good_of_Plain (d : SqlDialect) (c : string) (i : nat) :
  Plain d c -> Good d c i 0.
Proof. intros H tail _. now rewrite H. Qed.

Lemma Plain_then_Good (d : SqlDialect) (a b : string) (i n : nat) :
  Plain d a -> Good d b i n -> Good d (a ++ b) i n.
Proof. intros Ha Hb tail Ht. now rewrite str_app_assoc, Ha, Hb. Qed.

Lemma sep_start_app (sep rest : string) :
  sep_ok sep = true -> sep_start (sep ++ rest) = true.
Proof. destruct sep; simpl; [discriminate | auto]. Qed.

Lemma Good_then_Plain (d : SqlDialect) (a b : string) (i n : nat) :
  Good d a i n -> Plain d b -> sep_ok b = true -> Good d (a ++ b) i n.
Proof.
  intros Ha Hb Hs tail Ht.
  rewrite str_app_assoc, Ha by now apply sep_start_app.
  now rewrite Hb.
Qed.

Lemma expected_placeholders_app (d : SqlDialect) (i n m : nat) :
  expected_placeholders d i (n + m)
  = (expected_placeholders d i n ++ expected_placeholders d (i + n) m)%list.
Proof. unfold expected_placeholders. now rewrite seq_app, map_app. Qed.

(** Two clauses with a separator between them. *)
Lemma Good_sep (d : SqlDialect) (a sep b : string) (i n m : nat) :
  Good d a i n -> Plain d sep -> sep_ok sep = true -> Good d b (i + n) m ->
  Good d (a ++ sep ++ b) i (n + m).
Proof.
  intros Ha Hsep Hs Hb tail Ht.
  rewrite !str_app_assoc, Ha by now apply sep_start_app.
  rewrite Hsep, Hb by assumption.
  now rewrite expected_placeholders_app, app_assoc.
Qed.

(** Literal text of the translators. *)
Ltac plain_literal :=
  let tail := fresh "tail" in
  intros tail;
  match goal with d : SqlDialect |- _ => destruct d end; reflexivity.

Lemma Plain_literals (d : SqlDialect) :
  Plain d " IS NULL" /\ Plain d " IS NOT NULL" /\ Plain d " = " /\ Plain d " != "
  /\ Plain d " > " /\ Plain d " >= " /\ Plain d " < " /\ Plain d " <= "
  /\ Plain d " IN (" /\ Plain d " NOT IN (" /\ Plain d ")" /\ Plain d ", "
  /\ Plain d "1=0" /\ Plain d "1=1" /\ Plain d " ~ " /\ Plain d " REGEXP "
  /\ Plain d " LIKE " /\ Plain d "NOT (" /\ Plain d " AND " /\ Plain d " OR "
  /\ Plain d "(" /\ Plain d "jsonb_array_length(" /\ Plain d "JSON_LENGTH("
  /\ Plain d "json_array_length(" /\ Plain d ") = " /\ Plain d " + "
  /\ Plain d " = NULL".
Proof. repeat split; plain_literal. Qed.

Ltac literal := solve [ apply Plain_literals | apply Plain_quoteIdentifier | apply Plain_nil ].

(** ** Parts and their join *)

Lemma GoodParts_nil_inv (d : SqlDialect) (i n : nat) : GoodParts d [] i n -> n = 0.
Proof. intros H. now inversion H. Qed.

Lemma GoodParts_snoc (d : SqlDialect) :
  forall ps i n p m,
    GoodParts d ps i n -> Good d p (i + n) m -> GoodParts d (push ps p) i (n + m).
Proof.
  unfold push. intros ps i n p m H. revert p m.
  induction H as [i | q ps i n k Hq Hps IH]; intros p m Hp.
  - simpl. rewrite Nat.add_0_r in Hp.
    replace m with (m + 0) by lia. constructor; [assumption | constructor].
  - simpl. rewrite <- Nat.add_assoc. constructor; [assumption|].
    apply IH. now rewrite <- Nat.add_assoc.
Qed.

Lemma Good_join (d : SqlDialect) (sep : string) :
  Plain d sep -> sep_ok sep = true ->
  forall ps i n, GoodParts d ps i n -> Good d (join sep ps) i n.
Proof.
  intros Hsep Hs ps i n H.
  induction H as [i | p ps i n m Hp Hps IH].
  - apply Good_of_Plain, Plain_nil.
  - cbn [join]. destruct ps as [|q ps'].
    + apply GoodParts_nil_inv in Hps. subst m. now rewrite Nat.add_0_r.
    + now apply Good_sep.
Qed.

Lemma Good_placeholders_from (d : SqlDialect) :
  forall arr i,
    GoodParts d (placeholders_from d i arr) i (List.length arr).
Proof.
  induction arr as [|x arr IH]; intros i; cbn [placeholders_from List.length].
  - constructor.
  - change (S (List.length arr)) with (1 + List.length arr).
    constructor; [apply Good_placeholder|].
    rewrite Nat.add_1_r. apply IH.
Qed.

(** ** Every operator emits as many placeholders as values *)

Ltac plain :=
  first [ assumption | literal | apply Plain_app; [plain | plain] ].

Ltac good :=
  lazymatch goal with
  | |- Good _ (placeholder _ _) _ _ => apply Good_placeholder
  | |- Good _ (join _ (placeholders_from _ _ _) ++ _) _ _ =>
      apply Good_then_Plain;
      [ apply Good_join; [literal | reflexivity | apply Good_placeholders_from]
      | literal | reflexivity ]
  | |- Good _ (_ ++ _) _ 0 => apply Good_of_Plain; plain
  | |- Good _ (_ ++ _) _ _ => apply Plain_then_Good; [plain | good]
  | |- Good _ _ _ 0 => apply Good_of_Plain; plain
  end.

Lemma AccGood_start (d : SqlDialect) (i : nat) : AccGood d i (mkAcc [] [] i).
Proof. split; simpl; [lia | constructor]. Qed.

Lemma AccGood_push_result (d : SqlDialect) (i0 : nat) (a : Acc) (r : SqlTranslation) :
  AccGood d i0 a -> Good d (clause r) (idx a) (List.length (values r)) ->
  AccGood d i0 (push_result a r).
Proof.
  intros [Hi Hp] Hr. unfold push_result, push_all. split; cbn [idx vals parts].
  - rewrite length_app. lia.
  - rewrite length_app. apply GoodParts_snoc; [assumption|]. now rewrite <- Hi.
Qed.

Lemma Good_not_finish (d : SqlDialect) (i0 : nat) (a : Acc) :
  AccGood d i0 a ->
  Good d (clause (not_finish a)) i0 (List.length (values (not_finish a))).
Proof.
  intros [Hi Hp]. unfold not_finish. destruct (parts a) as [|p ps] eqn:E.
  - apply Good_of_Plain, Plain_nil.
  - cbn [clause values]. apply Plain_then_Good; [literal|].
    apply Good_then_Plain; [|literal|reflexivity].
    apply Good_join; [literal | reflexivity | assumption].
Qed.

Ltac op_chain H :=
  repeat match type of H with
         | context [if String.eqb ?a ?b then _ else _] => destruct (String.eqb a b)
         end.

Lemma Ok_inj {A} (a b : A) : Ok a = Ok b -> a = b.
Proof. congruence. Qed.

Ltac op_leaf H :=
  try discriminate H;
  apply Ok_inj in H; subst; cbn [clause values comparison List.length]; good.

Lemma regex_Good (d : SqlDialect) (qk pattern : string) (i : nat) :
  Plain d qk ->
  Good d (clause (translateRegexToSQL qk pattern d i)) i
    (List.length (values (translateRegexToSQL qk pattern d i))).
Proof.
  intros Hq. destruct d; cbn [translateRegexToSQL regexToLike clause values List.length]; good.
Qed.

Lemma operator_Good :
  forall v qk op d i r,
    Plain d qk ->
    translateOperatorToSQL qk op v d i = Ok r ->
    Good d (clause r) i (List.length (values r)).
Proof.
  induction v as [v Hv | items _ | entries HF] using value_nested_ind;
    intros qk op d i r Hq H.
  - destruct v; try contradiction; cbn [translateOperatorToSQL] in H;
      op_chain H;
      try (apply Ok_inj in H; subst r; apply regex_Good; assumption);
      try (destruct d; op_leaf H);
      try (destruct b; op_leaf H);
      try (destruct (truthy _); op_leaf H);
      try op_leaf H.
    all: destruct (Object_entries _) as [[|[? ?] ?]|]; try discriminate H;
      apply Ok_inj in H; subst r; apply Good_not_finish, AccGood_start.
  - cbn [translateOperatorToSQL] in H; op_chain H;
      try (apply Ok_inj in H; subst r; apply regex_Good; assumption);
      try (destruct d; op_leaf H);
      try (destruct items; op_leaf H);
      try (destruct (truthy _); op_leaf H);
      try op_leaf H.
    destruct (Object_entries _) as [[|[? ?] ?]|]; try discriminate H.
    apply Ok_inj in H; subst r; apply Good_not_finish, AccGood_start.
  - cbn [translateOperatorToSQL] in H; op_chain H;
      try (apply Ok_inj in H; subst r; apply regex_Good; assumption);
      try (destruct d; op_leaf H);
      try (destruct (truthy _); op_leaf H);
      try op_leaf H.
    pose proof (AccGood_start d i) as Ha.
    revert Ha H. generalize (mkAcc [] [] i) as a.
    induction HF as [|[subOp subVal] rest Hhd _ IH]; intros a Ha H.
    + apply Ok_inj in H; subst r. now apply Good_not_finish.
    + cbn [snd] in Hhd.
      destruct (translateOperatorToSQL qk subOp subVal d (idx a)) as [r1|] eqn:E;
        [|discriminate H].
      apply Hhd in E; [|assumption].
      destruct (is_empty_string (clause r1)).
      * now apply (IH a).
      * apply (IH (push_result a r1)); [now apply AccGood_push_result | assumption].
Qed.

(** ** The entry loops keep the invariant *)

Lemma translate_ops_Good (d : SqlDialect) (i0 : nat) (qk : string) :
  Plain d qk ->
  forall ops a a',
    AccGood d i0 a -> translate_ops qk ops d a = Ok a' -> AccGood d i0 a'.
Proof.
  intros Hq. induction ops as [|[op opVal] rest IH]; intros a a' Ha H; cbn [translate_ops] in H.
  - apply Ok_inj in H. now subst.
  - destruct (translateOperatorToSQL qk op opVal d (idx a)) as [r|] eqn:E; [|discriminate H].
    apply (IH (push_result a r)); [|assumption].
    apply AccGood_push_result; [assumption|].
    now apply operator_Good with (qk := qk) (op := op) (v := opVal).
Qed.

Lemma AccGood_push_part (d : SqlDialect) (i0 : nat) (a : Acc) (p : string) :
  AccGood d i0 a -> Plain d p ->
  AccGood d i0 {| parts := push (parts a) p; vals := vals a; idx := idx a |}.
Proof.
  intros [Hi Hp] Hpl. split; cbn [idx vals parts]; [assumption|].
  rewrite <- (Nat.add_0_r (List.length (vals a))).
  apply GoodParts_snoc; [assumption | now apply Good_of_Plain].
Qed.

Lemma AccGood_push_equality (d : SqlDialect) (i0 : nat) (a : Acc) (qk sym : string) (v : value) :
  AccGood d i0 a -> Plain d qk -> Plain d sym ->
  AccGood d i0 {| parts := push (parts a) (qk ++ sym ++ placeholder d (idx a));
                  vals := push (vals a) v;
                  idx := S (idx a) |}.
Proof.
  intros [Hi Hp] Hq Hs. unfold push at 2. split; cbn [idx vals parts].
  - rewrite length_app. simpl. lia.
  - rewrite length_app. cbn [List.length].
    apply GoodParts_snoc; [assumption|]. rewrite <- Hi. good.
Qed.

Lemma translate_field_Good (d : SqlDialect) (i0 : nat) (key : string) (v : value) :
  forall a a',
    AccGood d i0 a -> translate_field key v d a = Ok a' -> AccGood d i0 a'.
Proof.
  intros a a' Ha H. unfold translate_field in H.
  destruct (starts_with_dollar key); [discriminate H|].
  pose proof (Plain_quoteIdentifier d key) as Hq.
  destruct v;
    try (apply Ok_inj in H; subst a';
         first [ apply AccGood_push_part; [assumption | plain]
               | apply AccGood_push_equality; [assumption | assumption | literal] ]).
  now apply translate_ops_Good with (qk := quoteIdentifier key) (ops := entries) (a := a).
Qed.

Lemma translate_fields_Good (d : SqlDialect) (i0 : nat) :
  forall es a a',
    AccGood d i0 a -> translate_fields es d a = Ok a' -> AccGood d i0 a'.
Proof.
  induction es as [|[key v] rest IH]; intros a a' Ha H; cbn [translate_fields] in H.
  - apply Ok_inj in H. now subst.
  - destruct (translate_field key v d a) as [a1|] eqn:E; [|discriminate H].
    apply (IH a1); [|assumption]. now apply translate_field_Good with (key := key) (v := v) (a := a).
Qed.

Lemma Good_finish_sql (d : SqlDialect) (i0 : nat) (a : Acc) :
  AccGood d i0 a ->
  Good d (clause (finish_sql a)) i0 (List.length (values (finish_sql a))).
Proof.
  intros [Hi Hp]. unfold finish_sql. cbn [clause values].
  destruct (parts a) as [|p ps] eqn:E.
  - apply GoodParts_nil_inv in Hp. rewrite Hp. good.
  - apply Good_join; [literal | reflexivity | assumption].
Qed.

Lemma Good_trivial_sql (d : SqlDialect) (i : nat) :
  Good d (clause trivial_sql) i (List.length (values trivial_sql)).
Proof. cbn. good. Qed.

(** The sub-clauses of a logical key, pushed as one part. *)
Lemma AccGood_push_logical (d : SqlDialect) (i0 : nat) (key : string)
    (subClauses : list string) (ps : list string) (vs : list value) (j m : nat) :
  GoodParts d ps i0 j ->
  GoodParts d subClauses (i0 + j) m ->
  List.length vs = j + m ->
  GoodParts d (push_logical key subClauses ps) i0 (List.length vs).
Proof.
  intros Hps Hsub Hlen. rewrite Hlen. unfold push_logical.
  destruct subClauses as [|s ss] eqn:E.
  - apply GoodParts_nil_inv in Hsub. subst m. now rewrite Nat.add_0_r.
  - rewrite <- E in *.
    destruct (String.eqb key "$nor"); [|destruct (String.eqb key "$and")];
      (apply GoodParts_snoc; [assumption|]);
      (apply Plain_then_Good; [literal|]);
      (apply Good_then_Plain; [|literal|reflexivity]);
      (apply Good_join; [literal | reflexivity | assumption]).
Qed.

(** ** [translateToSQL] emits the expected placeholders *)

Lemma fields_filter_Good (d : SqlDialect) (i : nat) (es : Record) (r : SqlTranslation) :
  match translate_fields es d (mkAcc [] [] i) with
  | Throw e => Throw e
  | Ok a => Ok (finish_sql a)
  end = Ok r ->
  Good d (clause r) i (List.length (values r)).
Proof.
  intros H. destruct (translate_fields es d (mkAcc [] [] i)) as [a|] eqn:E; [|discriminate H].
  apply Ok_inj in H. subst r. apply Good_finish_sql.
  apply translate_fields_Good with (es := es) (a := mkAcc [] [] i); [apply AccGood_start | assumption].
Qed.

Lemma translateToSQL_object (e : string * value) (es : Record) (d : SqlDialect) (i : nat) :
  translateToSQL (VObj (e :: es)) d i
  = match entries_loop (fun f j => translateToSQL f d j) d (e :: es) (mkAcc [] [] i) with
    | Throw x => Throw x
    | Ok a => Ok (finish_sql a)
    end.
Proof. reflexivity. Qed.

Section LoopInvariants.
Variable rec : value -> nat -> result SqlTranslation.
Variable d : SqlDialect.

Let RecGood (f : value) : Prop :=
  forall j r, rec f j = Ok r -> Good d (clause r) j (List.length (values r)).

Lemma sub_filters_loop_Good (i0 n0 : nat) (ps0 : list string) :
  forall fs, Forall RecGood fs ->
  forall sc a m sc' a',
    parts a = ps0 -> idx a = i0 + List.length (vals a) ->
    GoodParts d sc (i0 + n0) m -> List.length (vals a) = n0 + m ->
    sub_filters_loop rec fs sc a = Ok (sc', a') ->
    parts a' = ps0 /\ idx a' = i0 + List.length (vals a')
    /\ exists m', GoodParts d sc' (i0 + n0) m' /\ List.length (vals a') = n0 + m'.
Proof.
  induction 1 as [|f fs Hf _ IH]; intros sc a m sc' a' Hp Hi Hsc Hlen H;
    cbn [sub_filters_loop] in H.
  - apply Ok_inj in H. injection H as <- <-. eauto.
  - destruct (rec f (idx a)) as [sub|] eqn:E; [|discriminate H].
    apply Hf in E. destruct (keeps_sub sub).
    + eapply IH in H; [exact H | exact Hp | | | ]; cbn [idx vals parts]; unfold push_all.
      * rewrite length_app. lia.
      * apply GoodParts_snoc; [exact Hsc|].
        replace (i0 + n0 + m) with (idx a) by lia.
        apply Plain_then_Good; [literal|].
        apply Good_then_Plain; [exact E | literal | reflexivity].
      * rewrite length_app. lia.
    + eapply IH in H; eauto.
Qed.

Lemma entries_loop_Good (i0 : nat) :
  forall es,
    Forall (fun kv : string * value =>
              RecGood (snd kv)
              /\ (forall items, snd kv = VArr items -> Forall RecGood items)) es ->
    forall a a',
      AccGood d i0 a -> entries_loop rec d es a = Ok a' -> AccGood d i0 a'.
Proof.
  induction 1 as [|[key v] rest [_ Hv] _ IH]; intros a a' Ha H; cbn [entries_loop] in H.
  - apply Ok_inj in H. now subst.
  - cbn [snd] in Hv. destruct (is_logical key).
    + destruct v as [ | | | | | | |items| ]; try (now apply (IH a)).
      destruct items as [|f fs]; [now apply (IH a)|].
      destruct (sub_filters_loop rec (f :: fs) [] a) as [[sc a1]|] eqn:E; [|discriminate H].
      destruct Ha as [Hi Hp].
      eapply (@sub_filters_loop_Good i0 (List.length (vals a)) (parts a)) in E;
        [ | now apply Hv | reflexivity | exact Hi | | ].
      * destruct E as (Ep & Ei & m' & Hsc & Hlen).
        refine (IH _ _ _ H). split; cbn [idx vals parts]; [exact Ei|].
        rewrite Ep. exact (AccGood_push_logical key (vals a1) Hp Hsc Hlen).
      * constructor.
      * lia.
    + destruct (translate_field key v d a) as [a1|] eqn:E; [|discriminate H].
      apply (IH a1); [|assumption].
      now apply translate_field_Good with (key := key) (v := v) (a := a).
Qed.
End LoopInvariants.

Lemma translateToSQL_Good_nested :
  forall v, SqlGood v /\ (forall items, v = VArr items -> Forall SqlGood items).
Proof.
  induction v as [v Hv | items HF | entries HF] using value_nested_ind.
  - split; [|intros items ->; contradiction].
    intros d i r H. destruct v; try contradiction;
      try (apply Ok_inj in H; subst r; apply Good_trivial_sql).
    destruct s; cbn [translateToSQL] in H.
    + apply Ok_inj in H; subst r; apply Good_trivial_sql.
    + now apply fields_filter_Good in H.
  - split.
    + intros d i r H. destruct items; cbn [translateToSQL] in H.
      * apply Ok_inj in H; subst r; apply Good_trivial_sql.
      * now apply fields_filter_Good in H.
    + intros items' E. injection E as <-.
      eapply Forall_impl; [|exact HF]. intros a [Ha _]. exact Ha.
  - split; [|intros items E; discriminate E].
    intros d i r H. destruct entries as [|e es].
    + apply Ok_inj in H; subst r; apply Good_trivial_sql.
    + rewrite translateToSQL_object in H.
      destruct (entries_loop _ d (e :: es) _) as [a|] eqn:E; [|discriminate H].
      apply Ok_inj in H. subst r. apply Good_finish_sql.
      eapply entries_loop_Good in E; [exact E | | apply AccGood_start].
      eapply Forall_impl; [|exact HF].
      intros kv [Hq Hitems]. split.
      * intros j r. apply Hq.
      * intros items Eq. eapply Forall_impl; [|exact (Hitems items Eq)].
        intros f Hf j r. apply Hf.
Qed.

Lemma translateToSQL_Good (filter : value) (d : SqlDialect) (i : nat) (r : SqlTranslation) :
  translateToSQL filter d i = Ok r ->
  placeholder_occurrences d (clause r)
  = expected_placeholders d i (List.length (values r)).
Proof.
  intros H. apply translateToSQL_Good_nested in H.
  specialize (H EmptyString eq_refl).
  rewrite str_app_nil_r in H. unfold placeholder_occurrences. rewrite H.
  apply app_nil_r.
Qed.

(** Numbered placeholders with distinct indices are distinct. *)
Lemma placeholder_numbered_inj (d : SqlDialect) (i j : nat) :
  d = pg \/ d = mssql -> placeholder d i = placeholder d j -> i = j.
Proof.
  intros [-> | ->] H; cbn [placeholder append] in H; apply nat_to_string_inj; congruence.
Qed.

(** The scanner skips quoted identifiers and reads what is written: a
    question mark inside an identifier is no placeholder, and a clause that
    skips a number is read as such. *)
Example scan_skips_identifiers :
  placeholder_occurrences mysql2 (quoteIdentifier "a?b" ++ " = ?") = ["?"]
  /\ placeholder_occurrences pg (quoteIdentifier "a$1" ++ " = $12") = ["$12"]
  /\ placeholder_occurrences pg "a = $1 AND b = $3" = ["$1"; "$3"]
  /\ placeholder_occurrences mssql "a = @p1 AND b IN (@p2, @p3)" = ["@p1"; "@p2"; "@p3"].
Proof. repeat split. Qed.

(* ================================================================== *)
(** ** C1: values and placeholders *)
(* ================================================================== *)

(** C1.  For every filter and every dialect, when [translateToSQL] returns,
    the placeholder occurrences of the clause are exactly
    [placeholder d 1], ..., [placeholder d n] in this order, where [n] is the
    number of returned values: the counts agree, and in PostgreSQL and MSSQL
    the numbering is dense from 1. *)
Theorem translateToSQL_placeholders_dense
    (filter : value) (d : SqlDialect) (r : SqlTranslation) :
  translateToSQL filter d 1 = Ok r ->
  List.length (placeholder_occurrences d (clause r)) = List.length (values r)
  /\ placeholder_occurrences d (clause r)
     = map (placeholder d) (seq 1 (List.length (values r))).
Proof.
  intros H. apply translateToSQL_Good in H. split.
  - rewrite H. unfold expected_placeholders. now rewrite length_map, length_seq.
  - exact H.
Qed.

Lemma translateToSQL_placeholders_dense_witness :
  let r := {| clause := in_quotes "age" ++ " >= $1 AND " ++ in_quotes "age"
                          ++ " < $2 AND " ++ in_quotes "role" ++ " = $3";
              values := [VNum 18; VNum 65; VStr "admin"] |} in
  translateToSQL (filter_age_role (VNum 18) (VNum 65) "admin") pg 1 = Ok r
  /\ List.length (placeholder_occurrences pg (clause r)) = 3
  /\ placeholder_occurrences pg (clause r) = ["$1"; "$2"; "$3"].
Proof.
  intros r. split; [reflexivity|].
  exact (@translateToSQL_placeholders_dense
           (filter_age_role (VNum 18) (VNum 65) "admin") pg r eq_refl).
Defined.

(* ================================================================== *)
(** ** C2: scenario 1 *)
(* ================================================================== *)

(** C2.  [translateToSQL({age:{$gte:18,$lt:65}, role:'admin'}, 'pg')] is the
    clause with the three conditions joined by AND in entry order and the
    values [18, 65, 'admin']; the same holds for any two bounds and any role
    string in their place. *)
Theorem translateToSQL_age_role :
  translateToSQL (filter_age_role (VNum 18) (VNum 65) "admin") pg 1
  = Ok {| clause := in_quotes "age" ++ " >= $1 AND " ++ in_quotes "age"
                      ++ " < $2 AND " ++ in_quotes "role" ++ " = $3";
          values := [VNum 18; VNum 65; VStr "admin"] |}
  /\ forall lo hi role,
       translateToSQL (filter_age_role lo hi role) pg 1
       = Ok {| clause := in_quotes "age" ++ " >= $1 AND " ++ in_quotes "age"
                           ++ " < $2 AND " ++ in_quotes "role" ++ " = $3";
               values := [lo; hi; VStr role] |}.
Proof.
  split; [reflexivity|]. intros lo hi role.
  destruct lo, hi; reflexivity.
Qed.

(* ================================================================== *)
(** ** C3: guardrails *)
(* ================================================================== *)

Lemma isEmptyFilter_key_count (filter : value) :
  isEmptyFilter filter = Nat.eqb (key_count filter) 0.
Proof.
  unfold isEmptyFilter, key_count.
  destruct filter as [ | |b|n|s| | |items|entries]; try reflexivity.
  - now destruct b.
  - now destruct n.
  - now destruct s.
  - now destruct items.
  - now destruct entries.
Qed.

Lemma confirm_differs_is (options : option GuardOptions) (token : string) :
  confirm_differs options token = negb (confirm_is options token).
Proof.
  unfold confirm_differs, confirm_is, confirm_of.
  destruct options as [o|]; [|reflexivity]. now destruct (g_confirm o).
Qed.

Lemma limit_absent_of (options : option GuardOptions) :
  limit_absent options = match limit_of options with None => true | Some _ => false end.
Proof. unfold limit_absent, limit_of. now destruct options. Qed.

(** C3.  With guardrails disabled nothing is blocked and nothing is emitted.
    With guardrails enabled, [checkGuardrails] throws exactly on the rows of
    the decision table (deleteMany or updateMany on a zero-key filter without
    the matching confirm token, deleteOne on a zero-key filter, queryMany
    without a limit), the error then has code GUARDRAIL_BLOCKED, and every
    other combination returns without an event. *)
Theorem checkGuardrails_decision_table
    (operation collection_ : string) (filter : value) (options : option GuardOptions) :
  checkGuardrails false operation collection_ filter options = ([], Ok tt)
  /\ throws (snd (checkGuardrails true operation collection_ filter options))
     = guardrail_blocks operation filter options
  /\ thrown_code (snd (checkGuardrails true operation collection_ filter options))
     = (if guardrail_blocks operation filter options then Some GUARDRAIL_BLOCKED else None)
  /\ (if guardrail_blocks operation filter options
      then fst (checkGuardrails true operation collection_ filter options) <> []
      else checkGuardrails true operation collection_ filter options = ([], Ok tt)).
Proof.
  split; [reflexivity|].
  unfold checkGuardrails, guardrail_blocks. cbn [negb].
  rewrite !confirm_differs_is, limit_absent_of, isEmptyFilter_key_count.
  destruct (String.eqb_spec operation "deleteMany") as [->|_].
  { cbn [String.eqb Ascii.eqb Bool.eqb andb orb].
    destruct (Nat.eqb (key_count filter) 0), (confirm_is options "DELETE_ALL");
      cbn; repeat split; discriminate. }
  destruct (String.eqb_spec operation "updateMany") as [->|_].
  { cbn [String.eqb Ascii.eqb Bool.eqb andb orb].
    destruct (Nat.eqb (key_count filter) 0), (confirm_is options "UPDATE_ALL");
      cbn; repeat split; discriminate. }
  destruct (String.eqb_spec operation "deleteOne") as [->|_].
  { cbn [String.eqb Ascii.eqb Bool.eqb andb orb].
    destruct (Nat.eqb (key_count filter) 0); cbn; repeat split; discriminate. }
  destruct (String.eqb_spec operation "queryMany") as [->|_].
  { cbn [String.eqb Ascii.eqb Bool.eqb andb orb].
    destruct (limit_of options); cbn; repeat split; discriminate. }
  cbn. repeat split.
Qed.

(* ================================================================== *)
(** ** C4: MSSQL pagination *)
(* ================================================================== *)

Lemma add_where_text (s : string) (w : SqlTranslation) :
  add_where s w = s ++ where_text w.
Proof.
  unfold add_where, where_text. destruct (String.eqb (clause w) "1=1").
  - now rewrite str_app_nil_r.
  - reflexivity.
Qed.

Lemma add_order_by_text (s : string) (fields : Record) :
  add_order_by s fields
  = s ++ (if is_empty_string (translateSortToSQL fields) then EmptyString
          else " ORDER BY " ++ translateSortToSQL fields).
Proof.
  unfold add_order_by. destruct (is_empty_string (translateSortToSQL fields)).
  - now rewrite str_app_nil_r.
  - reflexivity.
Qed.


(** A sort object that is present but names no field counts as a sort: no
    [ORDER BY] is emitted before the OFFSET. *)
Example buildSelectSQL_mssql_empty_sort :
  buildSelectSQL "users" (VObj [])
    (mkSelectOptions (Some []) (Some 10%Z) (Some 20%Z) None (Some mssql))
  = Ok {| sql_text := "SELECT * FROM " ++ in_quotes "users"
                        ++ " OFFSET 20 ROWS FETCH NEXT 10 ROWS ONLY";
          q_values := [] |}.
Proof. reflexivity. Qed.

(* ================================================================== *)
(** ** C8: scenario 2, the search-engine DSL *)
(* ================================================================== *)

(** C8.  [translateToElastic({$or:[{role:'admin'},{role:'mod'}]})] is
    [{bool:{should:[{term:{role:'admin'}},{term:{role:'mod'}}],
    minimum_should_match:1}}].  In general a filter whose only key is [$or]
    gives [bool.should] over the translated sub-filters with
    [minimum_should_match] 1, not wrapped in [bool.must]; and a single field
    with a string value gives its [term] clause unwrapped. *)
Theorem translateToElastic_or_unwrapped :
  translateToElastic filter_or_roles
  = Ok (VObj [("bool",
          VObj [("should", VArr [VObj [("term", VObj [("role", VStr "admin")])];
                                 VObj [("term", VObj [("role", VStr "mod")])]]);
                ("minimum_should_match", VNum 1)])])
  /\ (forall fs,
        translateToElastic (VObj [("$or", VArr fs)])
        = match map_result translateToElastic fs with
          | Throw e => Throw e
          | Ok cs =>
              Ok (VObj [("bool", VObj [("should", VArr cs);
                                       ("minimum_should_match", VNum 1)])])
          end)
  /\ (forall key s,
        translateToElastic (VObj [(key, VStr s)])
        = if starts_with_dollar key
          then if is_logical key
               then Throw (TypeError "filters.map is not a function")
               else Throw (top_level_operator_elastic key)
          else Ok (VObj [("term", VObj [(key, VStr s)])])).
Proof.
  repeat split.
  - intros fs. cbn [translateToElastic]. cbn [is_logical String.eqb Ascii.eqb Bool.eqb orb].
    change ((fix each (fs0 : list value) : result (list value) :=
               match fs0 with
               | [] => Ok []
               | f :: fs' =>
                   match translateToElastic f with
                   | Ok q => match each fs' with
                             | Ok qs => Ok (q :: qs)
                             | Throw e => Throw e
                             end
                   | Throw e => Throw e
                   end
               end) fs)
      with (map_result translateToElastic fs).
    destruct (map_result translateToElastic fs); reflexivity.
  - intros key s. cbn [translateToElastic].
    destruct (is_logical key) eqn:El.
    + assert (starts_with_dollar key = true) as ->; [|reflexivity].
      unfold is_logical in El.
      destruct (String.eqb_spec key "$and") as [->|_]; [reflexivity|].
      destruct (String.eqb_spec key "$or") as [->|_]; [reflexivity|].
      destruct (String.eqb_spec key "$nor") as [->|_]; [reflexivity|discriminate El].
    + unfold elastic_field. destruct (starts_with_dollar key); reflexivity.
Qed.

(* ================================================================== *)
(** ** C10: update operators the SQL translation ignores *)
(* ================================================================== *)

(** C10.  [translateUpdateToSQL] reads [$set], [$inc] and [$unset] only: an
    update with none of the three raises QUERY_ERROR whatever [$push] and
    [$pull] hold, and the result for any update is the result for the same
    update without [$push] and [$pull]. *)
Theorem translateUpdateToSQL_ignores_push_pull :
  (forall push_ pull_ d i,
     thrown_code (translateUpdateToSQL (mkUpdate None None None push_ pull_) d i)
     = Some QUERY_ERROR)
  /\ (forall u d i,
        translateUpdateToSQL u d i = translateUpdateToSQL (without_push_pull u) d i)
  /\ translateUpdateToSQL
       (mkUpdate (Some [("name", VStr "A")]) None None (Some [("tags", VStr "x")]) None) pg 1
     = Ok {| setClauses := in_quotes "name" ++ " = $1"; upd_values := [VStr "A"] |}.
Proof. repeat split. Qed.

(* ================================================================== *)
(** ** C6: the retryable flag *)
(* ================================================================== *)

(** The relational mapper sets the flag as [ERROR_RETRYABLE] says. *)
Lemma mapSqlError_retryable (err : NativeError) (collection_ operation_ : option string) :
  retryable (mapSqlError err collection_ operation_)
  = ERROR_RETRYABLE (code (mapSqlError err collection_ operation_)).
Proof.
  unfold mapSqlError.
  repeat match goal with
         | |- context [if ?b then _ else _] => destruct b
         end; reflexivity.
Qed.

(** So do the errors of the translators and of the guardrails, whose codes
    are not retryable. *)
Lemma layer_errors_retryable (key collection_ operation_ message_ fix_text : string) :
  Forall (fun x => match x with
                   | StrictErr e => retryable e = ERROR_RETRYABLE (code e)
                   | NativeErr _ => False
                   end)
    [unknown_operator_sql key; top_level_operator_sql key; no_set_clauses;
     unknown_operator_elastic key; top_level_operator_elastic key]
  /\ thrown_code (snd (emitAndThrow collection_ operation_ message_ fix_text))
     = Some GUARDRAIL_BLOCKED
  /\ ERROR_RETRYABLE GUARDRAIL_BLOCKED = false.
Proof. repeat constructor. Qed.

(** The search-engine adapter builds its CONNECTION_FAILED error the same
    way as [detectBackend]: without the flag. *)
Lemma client_not_connected_not_retryable :
  code client_not_connected = CONNECTION_FAILED
  /\ retryable client_not_connected = false.
Proof. split; reflexivity. Qed.

(** C6.  The error [detectBackend] raises for an unsupported URI prefix has
    code CONNECTION_FAILED, which [ERROR_RETRYABLE] lists as retryable, and
    carries [retryable = false]: the constructor defaults the flag and the
    site does not pass it. *)
Theorem detectBackend_error_not_retryable :
  (forall uri,
     match detectBackend uri with
     | Ok _ => True
     | Throw (StrictErr e) =>
         code e = CONNECTION_FAILED /\ retryable e = false
         /\ ERROR_RETRYABLE (code e) = true
     | Throw (NativeErr _) => False
     end)
  /\ thrown_code (detectBackend "ftp://example.org/db") = Some CONNECTION_FAILED.
Proof.
  split; [|reflexivity].
  intros uri. unfold detectBackend.
  repeat match goal with
         | |- context [if ?b then _ else _] => destruct b
         end; cbn; auto.
Qed.

(* ================================================================== *)
(** ** C9: [$options] next to [$regex] *)
(* ================================================================== *)

(** C9.  Both translators accept [{name: {$regex: '^a', $options: 'i'}}],
    and the search-engine DSL is the one of the bag without [$options]; the
    SQL clause is not: the empty clause returned for [$options] is pushed as
    a part, and the join leaves a dangling [ AND ] after the regex
    condition. *)
Theorem translateToSQL_options_dangling_and :
  translateToSQL bag_regex_options pg 1
  = Ok {| clause := in_quotes "name" ++ " ~ $1 AND "; values := [VStr "^a"] |}
  /\ translateToSQL bag_regex_only pg 1
     = Ok {| clause := in_quotes "name" ++ " ~ $1"; values := [VStr "^a"] |}
  /\ translateToElastic bag_regex_options = translateToElastic bag_regex_only.
Proof. repeat split. Qed.

(** The search-engine translation of any operator bag is that of the bag
    without its [$options] entries. *)
Lemma translateFieldOpsToElastic_object (field_ : string) (ops : Record) :
  translateFieldOpsToElastic field_ (VObj ops)
  = field_ops_loop (translateFieldOpsToElastic field_) field_ ops (mkEsAcc [] [] false).
Proof. reflexivity. Qed.

Lemma translateFieldOpsToElastic_without_options (field_ : string) (ops : Record) :
  translateFieldOpsToElastic field_ (VObj ops)
  = translateFieldOpsToElastic field_ (VObj (without_options ops)).
Proof.
  rewrite !translateFieldOpsToElastic_object.
  generalize (mkEsAcc [] [] false) as a.
  induction ops as [|[op v] rest IH]; intros a; [reflexivity|].
  cbn [without_options filter].
  destruct (String.eqb op "$options") eqn:E.
  - apply String.eqb_eq in E. subst op.
    cbn [negb field_ops_loop String.eqb Ascii.eqb Bool.eqb]. apply IH.
  - cbn [negb field_ops_loop]. rewrite E.
    repeat match goal with
           | |- context [if String.eqb op ?s then _ else _] =>
               destruct (String.eqb op s)
           end;
      try (destruct v; apply IH);
      try (destruct (truthy v); apply IH);
      try apply IH; try reflexivity.
    destruct (translateFieldOpsToElastic field_ v); [apply IH | reflexivity].
Qed.

(* ================================================================== *)
(** ** C5: receipt accounting in [batch] *)
(* ================================================================== *)

Section BatchAccounting.
Variable World : Type.
Variable Date_now : World -> Z.
Variable new_Date : World -> value.
Variable adapter : DatabaseAdapter World.
Variable timestampConfig : ResolvedTimestampConfig.

(** The totals of the loop are sums by kind: inserted over the insert
    steps, modified over the update steps, deleted over the delete steps. *)
Lemma batch_loop_sums :
  forall operations c w w' c',
    batch_loop new_Date adapter timestampConfig operations c w = (w', Ok c') ->
    let rs := step_receipts new_Date adapter timestampConfig operations w in
    c_inserted c' = (c_inserted c + kind_sum is_insert_step insertedCount operations rs)%Z
    /\ c_modified c' = (c_modified c + kind_sum is_update_step modifiedCount operations rs)%Z
    /\ c_deleted c' = (c_deleted c + kind_sum is_delete_step deletedCount operations rs)%Z.
Proof.
  induction operations as [|op rest IH]; intros c w w' c' H; cbn [batch_loop] in H.
  - injection H as _ <-. cbn. lia.
  - cbn [step_receipts].
    destruct (batch_call new_Date adapter timestampConfig op w) as [w1 [receipt|e]];
      [|discriminate H].
    apply IH in H. cbn zeta in H. destruct H as (Hi & Hm & Hd).
    cbn [kind_sum]. rewrite Hi, Hm, Hd.
    destruct op; cbn; lia.
Qed.
End BatchAccounting.

(** On the relational adapter a receipt carries the counts of its kind only,
    but for the inserted count of an upsert. *)
Section SqlReceipts.
Variable World : Type.
Variable Date_now : World -> Z.
Variable new_Date : World -> value.
Variables sql_execute pool_query : ExecFn World.
Variable dialect : SqlDialect.
Variable timestampConfig : ResolvedTimestampConfig.

Let adapter := SqlAdapter Date_now sql_execute pool_query dialect.

Ltac step_cases H :=
  repeat match type of H with
         | context [match ?x with _ => _ end] => destruct x
         | context [if ?x then _ else _] => destruct x
         end;
  try discriminate H.

Lemma sql_receipt_by_kind (op : BatchOperation) (w w' : World) (r : OperationReceipt) :
  batch_call new_Date adapter timestampConfig op w = (w', Ok r) ->
  modifiedCount r = (if is_update_step op then modifiedCount r else 0%Z)
  /\ deletedCount r = (if is_delete_step op then deletedCount r else 0%Z)
  /\ (is_update_step op = false ->
      insertedCount r = (if is_insert_step op then insertedCount r else 0%Z)).
Proof.
  intros H.
  destruct op; cbn [batch_call adapter SqlAdapter insertOne insertMany updateOne updateMany
                      deleteOne deleteMany is_update_step is_delete_step is_insert_step] in *;
    unfold sql_insertOne, sql_insertMany, sql_updateOne, sql_updateMany, sql_deleteOne,
      sql_deleteMany, rethrow_sql in H;
    step_cases H;
    injection H as _ <-; cbn; repeat split; try reflexivity; discriminate.
Qed.

Lemma sql_steps_sums :
  forall operations w,
    let rs := step_receipts new_Date adapter timestampConfig operations w in
    kind_sum is_update_step modifiedCount operations rs = sumZ modifiedCount rs
    /\ kind_sum is_delete_step deletedCount operations rs = sumZ deletedCount rs.
Proof.
  induction operations as [|op rest IH]; intros w; [now cbn|].
  cbn [step_receipts].
  destruct (batch_call new_Date adapter timestampConfig op w) as [w1 [r|e]] eqn:E;
    [|now cbn].
  specialize (IH w1). cbn zeta in IH. destruct IH as [IHm IHd].
  apply sql_receipt_by_kind in E. destruct E as (Em & Ed & _).
  cbn [kind_sum sumZ fold_right]. fold (sumZ modifiedCount). fold (sumZ deletedCount).
  rewrite IHm, IHd, <- Em, <- Ed. now split.
Qed.

(** The modified and deleted counts of a batch on the relational adapter are
    the sums over all its steps. *)
Lemma batch_sql_modified_deleted (this_backend : Backend) (loggerConfig : LoggerConfig)
    (operations : list BatchOperation) (w w' : World) (events : list Event)
    (receipt : OperationReceipt) :
  batch Date_now new_Date adapter timestampConfig this_backend loggerConfig operations w
  = (w', events, Ok receipt) ->
  let rs := step_receipts new_Date adapter timestampConfig operations w in
  modifiedCount receipt = sumZ modifiedCount rs
  /\ deletedCount receipt = sumZ deletedCount rs
  /\ insertedCount receipt = kind_sum is_insert_step insertedCount operations rs.
Proof.
  unfold batch. intros H.
  destruct (batch_loop new_Date adapter timestampConfig operations (mkCounts 0 0 0) w)
    as [w1 [c|e]] eqn:E; [|discriminate H].
  injection H as _ _ <-.
  apply batch_loop_sums in E. cbn zeta in E. destruct E as (Ei & Em & Ed).
  pose proof (sql_steps_sums operations w) as S. cbn zeta in S. destruct S as [Sm Sd].
  cbn [modifiedCount deletedCount insertedCount createReceipt or_zero
         ro_modifiedCount ro_deletedCount ro_insertedCount c_inserted c_modified c_deleted] in *.
  rewrite Em, Ed, Ei, Sm, Sd. repeat split; lia.
Qed.
End SqlReceipts.

(** C5.  A batch of one [updateOne] with [upsert] on the relational adapter,
    where the UPDATE matches no row: the step takes the insert path and its
    receipt has [insertedCount = 1] and [modifiedCount = 0], and the batch
    receipt has [insertedCount = 0]: [batch] adds only [modifiedCount] for an
    update step. *)
Theorem batch_drops_upsert_insert :
  match run_upsert_batch with
  | (_, _, Ok receipt) =>
      insertedCount receipt = 0%Z
      /\ modifiedCount receipt = 0%Z
      /\ map insertedCount upsert_batch_steps = [1%Z]
      /\ map modifiedCount upsert_batch_steps = [0%Z]
      /\ sumZ insertedCount upsert_batch_steps = 1%Z
  | (_, _, Throw _) => False
  end.
Proof. cbv. repeat split. Qed.

(* ================================================================== *)
(** ** C7: the sanitizer and its input *)
(* ================================================================== *)












(* ================================================================== *)
(** * Further properties of the statement builders *)
(* ================================================================== *)

Lemma Plain_marker_free (d : SqlDialect) (s : string) :
  marker_free s = true -> Plain d s.
Proof.
  induction s as [|c s IH]; intros H tail; [reflexivity|].
  cbn [marker_free] in H. apply andb_true_iff in H as [Hc Hs].
  unfold is_marker in Hc. apply negb_true_iff in Hc.
  repeat (apply orb_false_iff in Hc as [Hc ?]).
  cbn [append scan lex_step]. unfold lex_out.
  destruct d; repeat match goal with E : Ascii.eqb c _ = false |- _ => rewrite E; clear E end;
    cbn [app]; now apply IH.
Qed.

Lemma digit_not_marker (c : ascii) : is_digit c = true -> is_marker c = false.
Proof.
  destruct c as [[] [] [] [] [] [] [] []]; cbn; intros H; try reflexivity; discriminate H.
Qed.

Lemma all_digits_marker_free (s : string) : all_digits s = true -> marker_free s = true.
Proof.
  induction s as [|c s IH]; [reflexivity|]. cbn. intros H.
  apply andb_true_iff in H as [Hc Hs]. now rewrite (digit_not_marker _ Hc), IH.
Qed.

Lemma Plain_nat_to_string (d : SqlDialect) (n : nat) : Plain d (nat_to_string n).
Proof. apply Plain_marker_free, all_digits_marker_free, nat_to_string_digits. Qed.

Lemma Plain_Z_to_string (d : SqlDialect) (z : Z) : Plain d (Z_to_string z).
Proof.
  destruct z; cbn [Z_to_string].
  - now apply Plain_marker_free.
  - apply Plain_nat_to_string.
  - apply Plain_app; [now apply Plain_marker_free | apply Plain_nat_to_string].
Qed.

Lemma Plain_join (d : SqlDialect) (sep : string) (ps : list string) :
  Plain d sep -> Forall (Plain d) ps -> Plain d (join sep ps).
Proof.
  intros Hsep H. induction H as [|p ps Hp _ IH]; cbn [join]; [apply Plain_nil|].
  destruct ps; [assumption|]. now repeat apply Plain_app.
Qed.

Lemma Plain_translateSortToSQL (d : SqlDialect) (sort : Record) :
  Plain d (translateSortToSQL sort).
Proof.
  unfold translateSortToSQL. apply Plain_join; [now apply Plain_marker_free|].
  apply Forall_map, Forall_forall. intros [field_ dir] _.
  apply Plain_app; [apply Plain_quoteIdentifier|].
  destruct (_ || _); now apply Plain_marker_free.
Qed.

Lemma Plain_translateProjectionToSQL (d : SqlDialect) (projection : Record) :
  Plain d (translateProjectionToSQL projection).
Proof.
  unfold translateProjectionToSQL.
  set (included := filter _ projection). set (excluded := filter _ projection).
  destruct included as [|x xs].
  - destruct excluded; now apply Plain_marker_free.
  - apply Plain_join; [now apply Plain_marker_free|].
    apply Forall_map, Forall_forall. intros [field_ v] _. apply Plain_quoteIdentifier.
Qed.

Lemma Plain_select_columns (d : SqlDialect) (options : SelectOptions) :
  Plain d (select_columns options).
Proof.
  unfold select_columns. destruct (opt_projection options).
  - apply Plain_translateProjectionToSQL.
  - now apply Plain_marker_free.
Qed.

(** A clause without placeholders has no values to bind. *)
Lemma Good_Plain_zero (d : SqlDialect) (c : string) (i n : nat) :
  Good d c i n -> Plain d c -> n = 0.
Proof.
  intros G P. specialize (G EmptyString eq_refl). rewrite P in G.
  cbn in G. rewrite app_nil_r in G. unfold expected_placeholders in G.
  destruct n; [reflexivity|discriminate G].
Qed.

(** Concatenation, when the second text is empty or starts a new token. *)
Lemma Good_app (d : SqlDialect) (a b : string) (i n m : nat) :
  Good d a i n -> Good d b (i + n) m -> sep_start b = true ->
  Good d (a ++ b) i (n + m).
Proof.
  intros Ha Hb Hs tail Ht.
  rewrite str_app_assoc, Ha.
  - rewrite Hb by assumption. now rewrite expected_placeholders_app, app_assoc.
  - destruct b; [exact Ht | exact Hs].
Qed.

Lemma Good_where_text (d : SqlDialect) (w : SqlTranslation) (i : nat) :
  Good d (clause w) i (List.length (values w)) ->
  Good d (where_text w) i (List.length (values w)) /\ sep_start (where_text w) = true.
Proof.
  intros G. unfold where_text. destruct (String.eqb_spec (clause w) "1=1") as [E|_].
  - split; [|reflexivity]. rewrite E in G.
    assert (Z0 : List.length (values w) = 0).
    { eapply Good_Plain_zero; [exact G | now apply Plain_marker_free]. }
    rewrite Z0. apply Good_of_Plain, Plain_nil.
  - split; [|reflexivity]. apply Plain_then_Good; [now apply Plain_marker_free | exact G].
Qed.

(** A statement made of plain text, the WHERE part, and plain text. *)
Lemma Good_statement (d : SqlDialect) (before after : string) (w : SqlTranslation) (i : nat) :
  Plain d before -> Plain d after -> sep_start after = true ->
  Good d (clause w) i (List.length (values w)) ->
  Good d (before ++ where_text w ++ after) i (List.length (values w)).
Proof.
  intros Hb Ha Hs G. apply Good_where_text in G as [G Hw].
  apply Plain_then_Good; [assumption|].
  rewrite <- (Nat.add_0_r (List.length (values w))).
  apply Good_app; [assumption | now apply Good_of_Plain | assumption].
Qed.

Lemma Good_occurrences (d : SqlDialect) (c : string) (i n : nat) :
  Good d c i n -> placeholder_occurrences d c = expected_placeholders d i n.
Proof.
  intros G. specialize (G EmptyString eq_refl). rewrite str_app_nil_r in G.
  unfold placeholder_occurrences. rewrite G. apply app_nil_r.
Qed.

Lemma Good_suffix (d : SqlDialect) (s t : string) (i n : nat) :
  Good d s i n -> Plain d t -> sep_start t = true -> Good d (s ++ t) i n.
Proof.
  intros Hs Ht Hsep. rewrite <- (Nat.add_0_r n).
  apply Good_app; [assumption | now apply Good_of_Plain | assumption].
Qed.

Lemma Good_add_where (d : SqlDialect) (s : string) (w : SqlTranslation) (i n : nat) :
  Good d s i n -> Good d (clause w) (i + n) (List.length (values w)) ->
  Good d (add_where s w) i (n + List.length (values w)).
Proof.
  intros Hs Hw. rewrite add_where_text. apply Good_where_text in Hw as [Hw Hsep].
  now apply Good_app.
Qed.

Lemma Good_add_order_by (d : SqlDialect) (s : string) (sort : Record) (i n : nat) :
  Good d s i n -> Good d (add_order_by s sort) i n.
Proof.
  intros Hs. rewrite add_order_by_text.
  destruct (is_empty_string (translateSortToSQL sort)).
  - now rewrite str_app_nil_r.
  - apply Good_suffix; [assumption | | reflexivity].
    apply Plain_app; [now apply Plain_marker_free | apply Plain_translateSortToSQL].
Qed.

Lemma Good_number_suffix (d : SqlDialect) (s kw after : string) (z : Z) (i n : nat) :
  Good d s i n -> marker_free kw = true -> sep_ok kw = true -> marker_free after = true ->
  Good d (s ++ kw ++ Z_to_string z ++ after) i n.
Proof.
  intros Hs Hk Hsep Ha. apply Good_suffix; [assumption | |].
  - apply Plain_app; [now apply Plain_marker_free|].
    apply Plain_app; [apply Plain_Z_to_string | now apply Plain_marker_free].
  - now apply sep_start_app.
Qed.

Lemma Good_select_head (d : SqlDialect) (top : string) (table : string)
    (options : SelectOptions) (i : nat) :
  Plain d top ->
  Good d ("SELECT " ++ top ++ select_columns options ++ " FROM " ++ quoteIdentifier table) i 0.
Proof.
  intros Ht. apply Good_of_Plain.
  apply Plain_app; [now apply Plain_marker_free|].
  apply Plain_app; [assumption|].
  apply Plain_app; [apply Plain_select_columns|].
  apply Plain_app; [now apply Plain_marker_free | apply Plain_quoteIdentifier].
Qed.

Lemma translateToSQL_Good_from (filter : value) (d : SqlDialect) (i : nat) (r : SqlTranslation) :
  translateToSQL filter d i = Ok r -> Good d (clause r) i (List.length (values r)).
Proof. apply translateToSQL_Good_nested. Qed.

(** ** The SET list *)

Lemma AccGood_push_one (d : SqlDialect) (i0 : nat) (a : Acc) (p : string) (v : value) :
  AccGood d i0 a -> Good d p (idx a) 1 ->
  AccGood d i0 {| parts := push (parts a) p; vals := push (vals a) v; idx := S (idx a) |}.
Proof.
  intros [Hi Hp] Hg. unfold push at 2. split; cbn [idx vals parts].
  - rewrite length_app. simpl. lia.
  - rewrite length_app. cbn [List.length].
    apply GoodParts_snoc; [assumption|]. now rewrite <- Hi.
Qed.

Lemma set_entries_Good (d : SqlDialect) (i0 : nat) (es : Record) :
  forall a, AccGood d i0 a ->
    AccGood d i0 (set_entries es d a)
    /\ vals (set_entries es d a) = (vals a ++ map snd es)%list
    /\ List.length (parts (set_entries es d a)) = List.length (parts a) + List.length es.
Proof.
  induction es as [|[field_ v] es IH]; intros a Ha; cbn [set_entries map snd List.length].
  - now rewrite app_nil_r, Nat.add_0_r.
  - match goal with |- AccGood _ _ (set_entries _ _ ?b) /\ _ =>
      assert (Hn : AccGood d i0 b) by (apply AccGood_push_one; [assumption | good]);
      destruct (IH _ Hn) as (H1 & H2 & H3)
    end.
    split; [exact H1|]. split.
    + rewrite H2. cbn [vals]. unfold push. now rewrite <- app_assoc.
    + rewrite H3. cbn [parts]. unfold push. rewrite length_app. simpl. lia.
Qed.

Lemma inc_entries_Good (d : SqlDialect) (i0 : nat) (es : Record) :
  forall a, AccGood d i0 a ->
    AccGood d i0 (inc_entries es d a)
    /\ vals (inc_entries es d a) = (vals a ++ map snd es)%list
    /\ List.length (parts (inc_entries es d a)) = List.length (parts a) + List.length es.
Proof.
  induction es as [|[field_ v] es IH]; intros a Ha; cbn [inc_entries map snd List.length].
  - now rewrite app_nil_r, Nat.add_0_r.
  - match goal with |- AccGood _ _ (inc_entries _ _ ?b) /\ _ =>
      assert (Hn : AccGood d i0 b) by (apply AccGood_push_one; [assumption | good]);
      destruct (IH _ Hn) as (H1 & H2 & H3)
    end.
    split; [exact H1|]. split.
    + rewrite H2. cbn [vals]. unfold push. now rewrite <- app_assoc.
    + rewrite H3. cbn [parts]. unfold push. rewrite length_app. simpl. lia.
Qed.

Lemma unset_entries_Good (d : SqlDialect) (i0 : nat) (es : Record) :
  forall a, AccGood d i0 a ->
    AccGood d i0 (unset_entries es a)
    /\ vals (unset_entries es a) = vals a
    /\ List.length (parts (unset_entries es a)) = List.length (parts a) + List.length es.
Proof.
  induction es as [|[field_ v] es IH]; intros a Ha; cbn [unset_entries List.length].
  - now rewrite Nat.add_0_r.
  - match goal with |- AccGood _ _ (unset_entries _ ?b) /\ _ =>
      assert (Hn : AccGood d i0 b) by (apply AccGood_push_part; [assumption | plain]);
      destruct (IH _ Hn) as (H1 & H2 & H3)
    end.
    split; [exact H1|]. split.
    + now rewrite H2.
    + rewrite H3. cbn [parts]. unfold push. rewrite length_app. simpl. lia.
Qed.

(** The values of an operator that may be absent. *)
Lemma translateUpdateToSQL_Good (update : UpdateOperators) (d : SqlDialect) (i : nat)
    (r : SqlUpdateTranslation) :
  translateUpdateToSQL update d i = Ok r ->
  Good d (setClauses r) i (List.length (upd_values r))
  /\ upd_values r = (map snd (entries_of (u_set update))
                      ++ map snd (entries_of (u_inc update)))%list.
Proof.
  unfold translateUpdateToSQL. intros H.
  pose proof (AccGood_start d i) as H0.
  set (a1 := match u_set update with Some es => set_entries es d _ | None => _ end) in H.
  assert (G1 : AccGood d i a1 /\ vals a1 = map snd (entries_of (u_set update))).
  { subst a1. destruct (u_set update) as [es|]; cbn [entries_of map].
    - destruct (set_entries_Good es H0) as (H1 & H2 & _). now split.
    - now split. }
  destruct G1 as [G1 V1].
  set (a2 := match u_inc update with Some es => inc_entries es d _ | None => _ end) in H.
  assert (G2 : AccGood d i a2
               /\ vals a2 = (vals a1 ++ map snd (entries_of (u_inc update)))%list).
  { subst a2. destruct (u_inc update) as [es|]; cbn [entries_of map].
    - destruct (inc_entries_Good es G1) as (H1 & H2 & _). now split.
    - now rewrite app_nil_r. }
  destruct G2 as [G2 V2].
  set (a3 := match u_unset update with Some es => unset_entries es _ | None => _ end) in H.
  assert (G3 : AccGood d i a3 /\ vals a3 = vals a2).
  { subst a3. destruct (u_unset update) as [es|].
    - destruct (unset_entries_Good es G2) as (H1 & H2 & _). now split.
    - now split. }
  destruct G3 as [[_ G3] V3].
  destruct (parts a3) eqn:E; [discriminate H|].
  apply Ok_inj in H. subst r. cbn [setClauses upd_values]. split.
  - apply Good_join; [literal | reflexivity | assumption].
  - now rewrite V3, V2, V1.
Qed.

Ltac plain_text :=
  first [ now apply Plain_marker_free
        | apply Plain_Z_to_string
        | apply Plain_select_columns
        | apply Plain_quoteIdentifier
        | apply Plain_translateSortToSQL
        | apply Plain_app; [plain_text | plain_text] ].

Lemma translateUpdateToSQL_parts (update : UpdateOperators) (d : SqlDialect) (i : nat) :
  (exists r, translateUpdateToSQL update d i = Ok r)
  \/ (translateUpdateToSQL update d i = Throw no_set_clauses
      /\ entries_of (u_set update) = [] /\ entries_of (u_inc update) = []
      /\ entries_of (u_unset update) = []).
Proof.
  unfold translateUpdateToSQL.
  pose proof (AccGood_start d i) as H0.
  set (a0 := mkAcc [] [] i) in *.
  set (a1 := match u_set update with Some es => set_entries es d _ | None => _ end).
  assert (G1 : AccGood d i a1
               /\ List.length (parts a1) = List.length (entries_of (u_set update))).
  { subst a1. destruct (u_set update) as [es|]; cbn [entries_of].
    - destruct (set_entries_Good es H0) as (H1 & _ & H3). now split.
    - now split. }
  destruct G1 as [G1 L1].
  set (a2 := match u_inc update with Some es => inc_entries es d _ | None => _ end).
  assert (G2 : AccGood d i a2
               /\ List.length (parts a2)
                  = List.length (parts a1) + List.length (entries_of (u_inc update))).
  { subst a2. destruct (u_inc update) as [es|]; cbn [entries_of List.length].
    - destruct (inc_entries_Good es G1) as (H1 & _ & H3). now split.
    - split; [assumption | lia]. }
  destruct G2 as [G2 L2].
  set (a3 := match u_unset update with Some es => unset_entries es _ | None => _ end).
  assert (L3 : List.length (parts a3)
               = List.length (parts a2) + List.length (entries_of (u_unset update))).
  { subst a3. destruct (u_unset update) as [es|]; cbn [entries_of List.length].
    - now destruct (unset_entries_Good es G2) as (_ & _ & H3).
    - lia. }
  destruct (parts a3) eqn:E.
  - right. split; [reflexivity|]. cbn [List.length] in L3.
    repeat split; apply length_zero_iff_nil; lia.
  - left. eexists. reflexivity.
Qed.

(** X1.  The SET list of [translateUpdateToSQL] holds exactly the placeholders
    numbered from the start index, one per value, in order; the values are
    those of [$set] followed by those of [$inc], and [$unset] binds none. *)
Theorem translateUpdateToSQL_placeholders_dense (update : UpdateOperators) (d : SqlDialect)
    (i : nat) (r : SqlUpdateTranslation) :
  translateUpdateToSQL update d i = Ok r ->
  placeholder_occurrences d (setClauses r)
  = expected_placeholders d i (List.length (upd_values r))
  /\ upd_values r = (map snd (entries_of (u_set update))
                      ++ map snd (entries_of (u_inc update)))%list.
Proof.
  intros H. apply translateUpdateToSQL_Good in H as [G V]. split; [|exact V].
  now apply Good_occurrences.
Qed.

Lemma translateUpdateToSQL_placeholders_dense_witness :
  exists r, translateUpdateToSQL update_set_inc mssql 3 = Ok r
    /\ placeholder_occurrences mssql (setClauses r) = ["@p3"; "@p4"]
    /\ upd_values r = [VStr "A"; VNum 1].
Proof.
  eexists. split; [reflexivity|].
  exact (@translateUpdateToSQL_placeholders_dense update_set_inc mssql 3 _ eq_refl).
Defined.

(** X2.  [translateUpdateToSQL] throws, and then its QUERY_ERROR, exactly when
    none of [$set], [$inc] and [$unset] has an entry: an update made only of
    [$push] or [$pull], or of empty operators, is refused. *)
Theorem translateUpdateToSQL_throws_iff_no_entries (update : UpdateOperators) (d : SqlDialect)
    (i : nat) :
  (translateUpdateToSQL update d i = Throw no_set_clauses
   <-> entries_of (u_set update) = [] /\ entries_of (u_inc update) = []
       /\ entries_of (u_unset update) = [])
  /\ (forall e, translateUpdateToSQL update d i = Throw e -> e = no_set_clauses).
Proof.
  destruct (translateUpdateToSQL_parts update d i) as [[r Hr] | (Ht & H1 & H2 & H3)].
  - split; [split|].
    + rewrite Hr. discriminate.
    + intros (H1 & H2 & H3). exfalso. revert Hr. unfold translateUpdateToSQL.
      destruct update as [[s|] [n|] [u|] p q]; cbn [entries_of u_set u_inc u_unset] in *;
        subst; cbn; discriminate.
    + intros e. rewrite Hr. discriminate.
  - split; [split; [now intros _ | now intros _]|].
    intros e. rewrite Ht. congruence.
Qed.

(** X3.  The statement of [buildUpdateSQL] holds exactly the placeholders
    numbered 1 to the number of its values, in order: the SET list first, the
    WHERE clause continuing where the SET list stopped; its values are those
    of the update followed by those of the filter. *)
Theorem buildUpdateSQL_placeholders_dense (table : string) (filter : value)
    (update : UpdateOperators) (d : SqlDialect) (q : FullSqlQuery) :
  buildUpdateSQL table filter update d = Ok q ->
  placeholder_occurrences d (sql_text q)
  = expected_placeholders d 1 (List.length (q_values q))
  /\ exists u w, translateUpdateToSQL update d 1 = Ok u
       /\ translateToSQL filter d (List.length (upd_values u) + 1) = Ok w
       /\ q_values q = (upd_values u ++ values w)%list.
Proof.
  unfold buildUpdateSQL. intros H.
  destruct (translateUpdateToSQL update d 1) as [u|] eqn:Eu; [|discriminate H].
  destruct (translateToSQL filter d _) as [w|] eqn:Ew; [|discriminate H].
  apply Ok_inj in H. subst q. cbn [sql_text q_values]. split.
  - apply Good_occurrences. unfold push_all. rewrite length_app.
    apply translateUpdateToSQL_Good in Eu as [Gu _].
    apply translateToSQL_Good_from in Ew. rewrite Nat.add_comm in Ew.
    apply Good_add_where; [|assumption].
    apply Plain_then_Good; [plain_text|].
    apply Plain_then_Good; [plain_text|].
    apply Plain_then_Good; [plain_text | assumption].
  - exists u, w. repeat split; assumption.
Qed.

Lemma buildUpdateSQL_placeholders_dense_witness :
  exists q, buildUpdateSQL "users" filter_role update_set_inc pg = Ok q
    /\ placeholder_occurrences pg (sql_text q) = ["$1"; "$2"; "$3"].
Proof.
  eexists. split; [reflexivity|].
  exact (proj1 (@buildUpdateSQL_placeholders_dense "users" filter_role update_set_inc pg _
                  eq_refl)).
Defined.

Lemma Good_add_where_first (d : SqlDialect) (s : string) (w : SqlTranslation) (i : nat) :
  Plain d s -> Good d (clause w) i (List.length (values w)) ->
  Good d (add_where s w) i (List.length (values w)).
Proof.
  intros Hs Hw. change (List.length (values w)) with (0 + List.length (values w)).
  apply Good_add_where; [now apply Good_of_Plain | now rewrite Nat.add_0_r].
Qed.

Lemma Good_number_end (d : SqlDialect) (s kw : string) (z : Z) (i n : nat) :
  Good d s i n -> marker_free kw = true -> sep_ok kw = true ->
  Good d (s ++ kw ++ Z_to_string z) i n.
Proof.
  intros Hs Hk Hsep.
  pose proof (@Good_number_suffix d s kw EmptyString z i n Hs Hk Hsep eq_refl) as H.
  now rewrite str_app_nil_r in H.
Qed.

(** A statement grown from a plain head by the builders' steps. *)
Ltac statement :=
  lazymatch goal with
  | |- Good _ (add_order_by _ _) _ _ => apply Good_add_order_by; statement
  | |- Good _ (add_where _ _) _ _ =>
      apply Good_add_where_first; [plain_text | assumption]
  | |- Good _ (_ ++ _ ++ Z_to_string _ ++ _) _ _ =>
      apply Good_number_suffix; [statement | reflexivity | reflexivity | reflexivity]
  | |- Good _ (_ ++ _ ++ Z_to_string _) _ _ =>
      apply Good_number_end; [statement | reflexivity | reflexivity]
  | |- Good _ (_ ++ _) _ _ =>
      apply Good_suffix; [statement | plain_text | reflexivity]
  end.

Lemma buildMssqlSelectSQL_Good (table : string) (filter : value) (options : SelectOptions)
    (q : FullSqlQuery) :
  buildMssqlSelectSQL table filter options = Ok q ->
  Good mssql (sql_text q) 1 (List.length (q_values q))
  /\ exists w, translateToSQL filter mssql 1 = Ok w /\ q_values q = values w.
Proof.
  unfold buildMssqlSelectSQL. intros H.
  destruct (translateToSQL filter mssql 1) as [w|] eqn:Ew; [|discriminate H].
  apply translateToSQL_Good_from in Ew.
  destruct (opt_skip options) as [n|]; [destruct (0 <? n)%Z|];
    destruct (opt_limit options) as [m|]; destruct (opt_sort options) as [sort|];
    cbv zeta in H; apply Ok_inj in H; subst q; cbn [sql_text q_values];
    (split; [statement | exists w; now split]).
Qed.

Lemma buildSelectSQL_Good (table : string) (filter : value) (options : SelectOptions)
    (q : FullSqlQuery) :
  buildSelectSQL table filter options = Ok q ->
  let d := match opt_dialect options with Some d => d | None => pg end in
  Good d (sql_text q) 1 (List.length (q_values q))
  /\ exists w, translateToSQL filter d 1 = Ok w /\ q_values q = values w.
Proof.
  intros H d. unfold buildSelectSQL in H. fold d in H.
  destruct d eqn:Ed.
  3: exact (@buildMssqlSelectSQL_Good _ _ _ _ H).
  all: destruct (translateToSQL filter _ 1) as [w|] eqn:Ew; [|discriminate H].
  all: apply translateToSQL_Good_from in Ew.
  all: destruct (opt_skip options) as [n|]; destruct (opt_limit options) as [m|];
    destruct (opt_sort options) as [sort|];
    cbv zeta in H; apply Ok_inj in H; subst q; cbn [sql_text q_values];
    (split; [statement | exists w; now split]).
Qed.

(** X4.  Whatever the dialect and the options, the statement of
    [buildSelectSQL] holds exactly the placeholders numbered 1 to the number of
    its values, in order, and its values are those of the translated filter:
    projection, sort, limit and skip are written into the text and bind no
    value. *)
Theorem buildSelectSQL_placeholders_dense (table : string) (filter : value)
    (options : SelectOptions) (q : FullSqlQuery) :
  buildSelectSQL table filter options = Ok q ->
  let d := match opt_dialect options with Some d => d | None => pg end in
  placeholder_occurrences d (sql_text q)
  = expected_placeholders d 1 (List.length (q_values q))
  /\ exists w, translateToSQL filter d 1 = Ok w /\ q_values q = values w.
Proof.
  intros H d. apply buildSelectSQL_Good in H as [G W]. split; [|exact W].
  now apply Good_occurrences.
Qed.

Lemma buildSelectSQL_placeholders_dense_witness :
  exists q, buildSelectSQL "users" filter_role mssql_page = Ok q
    /\ placeholder_occurrences mssql (sql_text q) = ["@p1"].
Proof.
  eexists. split; [reflexivity|].
  exact (proj1 (@buildSelectSQL_placeholders_dense "users" filter_role mssql_page _ eq_refl)).
Defined.

(** X5.  The statements of [buildDeleteSQL] and [buildCountSQL] hold exactly
    the placeholders numbered 1 to the number of their values, and both bind
    the values of the same translated filter. *)
Theorem buildDeleteSQL_buildCountSQL_placeholders_dense (table : string) (filter : value)
    (d : SqlDialect) (w : SqlTranslation) :
  translateToSQL filter d 1 = Ok w ->
  exists qd qc,
    buildDeleteSQL table filter d = Ok qd /\ buildCountSQL table filter d = Ok qc
    /\ q_values qd = values w /\ q_values qc = values w
    /\ placeholder_occurrences d (sql_text qd)
       = expected_placeholders d 1 (List.length (values w))
    /\ placeholder_occurrences d (sql_text qc)
       = expected_placeholders d 1 (List.length (values w)).
Proof.
  intros Ew. unfold buildDeleteSQL, buildCountSQL. rewrite Ew.
  apply translateToSQL_Good_from in Ew.
  do 2 eexists. repeat split; cbn [sql_text]; apply Good_occurrences; statement.
Qed.

Lemma buildDeleteSQL_buildCountSQL_placeholders_dense_witness :
  exists qd qc,
    buildDeleteSQL "users" filter_role sqlite = Ok qd
    /\ buildCountSQL "users" filter_role sqlite = Ok qc
    /\ q_values qd = [VStr "admin"] /\ q_values qc = [VStr "admin"]
    /\ placeholder_occurrences sqlite (sql_text qd) = ["?"]
    /\ placeholder_occurrences sqlite (sql_text qc) = ["?"].
Proof.
  exact (@buildDeleteSQL_buildCountSQL_placeholders_dense "users" filter_role sqlite _
           eq_refl).
Defined.

Lemma insert_placeholders_Good (d : SqlDialect) (keys : list string) :
  forall i, GoodParts d (insert_placeholders d i keys) (i + 1) (List.length keys).
Proof.
  induction keys as [|k keys IH]; intros i; cbn [insert_placeholders List.length].
  - constructor.
  - change (S (List.length keys)) with (1 + List.length keys).
    constructor; [apply Good_placeholder|].
    replace (i + 1 + 1) with (S i + 1) by lia. apply IH.
Qed.

Lemma Plain_columns (d : SqlDialect) (keys : list string) :
  Plain d (join ", " (map quoteIdentifier keys)).
Proof.
  apply Plain_join; [now apply Plain_marker_free|].
  apply Forall_map, Forall_forall. intros k _. apply Plain_quoteIdentifier.
Qed.

Lemma Good_row_inner (d : SqlDialect) (keys : list string) (i : nat) :
  Good d (join ", " (insert_placeholders d i keys) ++ ")") (i + 1) (List.length keys).
Proof.
  apply Good_then_Plain; [|now apply Plain_marker_free | reflexivity].
  apply Good_join; [now apply Plain_marker_free | reflexivity |].
  apply insert_placeholders_Good.
Qed.


(** X6.  [buildInsertSQL] never fails; its statement holds one placeholder per
    key of the document, numbered from 1 in order, and its values are the
    document's values in key order. *)
Theorem buildInsertSQL_placeholders_dense (table : string) (doc : Record) (d : SqlDialect) :
  placeholder_occurrences d (sql_text (buildInsertSQL table doc d))
  = expected_placeholders d 1 (List.length doc)
  /\ q_values (buildInsertSQL table doc d) = map snd doc.
Proof.
  split; [|reflexivity]. apply Good_occurrences. unfold buildInsertSQL. cbn [sql_text].
  apply Plain_then_Good; [plain_text|].
  apply Plain_then_Good; [plain_text|].
  apply Plain_then_Good; [plain_text|].
  apply Plain_then_Good; [apply Plain_columns|].
  apply Plain_then_Good; [plain_text|].
  rewrite <- (length_map fst doc).
  pose proof (Good_row_inner d (map fst doc) 0) as G.
  cbn [Nat.add] in G. exact G.
Qed.




(* ================================================================== *)
(** * Identifiers *)
(* ================================================================== *)

Lemma double_dquotes_closed_inj :
  forall a b, double_dquotes a ++ DQ = double_dquotes b ++ DQ -> a = b.
Proof.
  unfold DQ, str1.
  induction a as [|c a IH]; intros [|c' b] H; cbn [double_dquotes append] in H.
  - reflexivity.
  - exfalso. destruct (Ascii.eqb_spec c' dquote) as [E|E]; cbn [append] in H.
    + discriminate H.
    + injection H as H _. now symmetry in H.
  - exfalso. destruct (Ascii.eqb_spec c dquote) as [E|E]; cbn [append] in H.
    + discriminate H.
    + now injection H as H _.
  - destruct (Ascii.eqb_spec c dquote) as [E|E], (Ascii.eqb_spec c' dquote) as [E'|E'];
      cbn [append] in H.
    + injection H as H. subst. f_equal. now apply IH.
    + exfalso. injection H as H1 _. congruence.
    + exfalso. injection H as H1 _. congruence.
    + injection H as H1 H2. subst. f_equal. now apply IH.
Qed.

(** X8.  [quoteIdentifier] is injective: two different names never give the
    same quoted identifier, whatever quotes they contain. *)
Theorem quoteIdentifier_injective (a b : string) :
  quoteIdentifier a = quoteIdentifier b -> a = b.
Proof.
  unfold quoteIdentifier. intros H. apply double_dquotes_closed_inj.
  unfold DQ at 1 3 in H. unfold str1 in H. cbn [append] in H. now injection H.
Qed.

Lemma quoteIdentifier_injective_witness :
  quoteIdentifier "a" = quoteIdentifier (String "a" EmptyString)
  /\ "a" = String "a" EmptyString.
Proof.
  split; [reflexivity|]. exact (@quoteIdentifier_injective "a" "a" eq_refl).
Defined.

(** X9.  A quoted identifier is inert in a statement: whatever the name
    contains (double quotes, dollars, question marks, at-signs), the
    identifier adds no placeholder and the text after it is read as if the
    identifier were not there. *)
Theorem quoteIdentifier_adds_no_placeholder (d : SqlDialect) (name rest : string) :
  placeholder_occurrences d (quoteIdentifier name ++ rest) = placeholder_occurrences d rest.
Proof. unfold placeholder_occurrences. apply Plain_quoteIdentifier. Qed.

(* ================================================================== *)
(** * Projections *)
(* ================================================================== *)

Lemma forallb_excluded_no_included (projection : Record) :
  forallb (fun '(_, v) => value_is_num v 0) projection = true ->
  filter (fun '(_, v) => value_is_num v 1) projection = [].
Proof.
  induction projection as [|[k v] p IH]; [reflexivity|].
  cbn [forallb filter]. intros H. apply andb_true_iff in H as [Hv Hp].
  rewrite (IH Hp).
  unfold value_is_num in *. destruct v; try discriminate Hv.
  apply Z.eqb_eq in Hv. now subst.
Qed.

Lemma getExcludedFields_fields (projection : Record) (fields : list string) :
  getExcludedFields projection = Some fields -> fields = map fst projection.
Proof.
  unfold getExcludedFields. destruct projection as [|e p]; [discriminate|].
  destruct (forallb _ (e :: p)); [|discriminate]. cbn [negb]. intros H. injection H as <-.
  change (map (fun '(field, _) => field) (e :: p) = map fst (e :: p)).
  apply map_ext. now intros [k v].
Qed.

(** X10.  An exclusion-only projection is never written into the statement:
    when [getExcludedFields] returns the fields to strip, these are all the
    keys of the projection and [translateProjectionToSQL] selects every
    column; and when the projection names a column to include, nothing is
    stripped afterwards. *)
Theorem getExcludedFields_selects_all (projection : Record) :
  (forall fields, getExcludedFields projection = Some fields ->
     fields = map fst projection /\ projection <> []
     /\ translateProjectionToSQL projection = "*")
  /\ (translateProjectionToSQL projection <> "*" -> getExcludedFields projection = None).
Proof.
  assert (A : forall fields, getExcludedFields projection = Some fields ->
     fields = map fst projection /\ projection <> []
     /\ translateProjectionToSQL projection = "*").
  { intros fields H. split; [now apply getExcludedFields_fields|].
    unfold getExcludedFields in H.
    destruct projection as [|e p]; [discriminate H|].
    destruct (forallb _ (e :: p)) eqn:E; [|discriminate H].
    split; [discriminate|].
    - unfold translateProjectionToSQL. rewrite (forallb_excluded_no_included _ E).
      now destruct (filter _ (e :: p)). }
  split; [exact A|].
  intros H. destruct (getExcludedFields projection) as [fields|] eqn:E; [|reflexivity].
  exfalso. apply H. now destruct (A fields eq_refl) as (_ & _ & ?).
Qed.

Lemma has_key_obj_delete (o : Record) (field key : string) :
  has_key (obj_delete o field) key = has_key o key && negb (String.eqb key field).
Proof.
  unfold has_key, obj_delete. induction o as [|[k v] o IH]; [reflexivity|].
  cbn [filter existsb]. destruct (String.eqb_spec k field) as [->|Hk]; cbn [negb].
  - rewrite IH. destruct (String.eqb_spec field key) as [->|Hf].
    + rewrite String.eqb_refl. cbn. now rewrite andb_false_r.
    + reflexivity.
  - cbn [existsb]. rewrite IH.
    destruct (String.eqb_spec k key) as [->|Hkk]; [|reflexivity].
    cbn [orb]. destruct (String.eqb_spec key field); [contradiction | reflexivity].
Qed.

Lemma prop_get_obj_delete (o : Record) (field key : string) :
  key <> field -> prop_get (obj_delete o field) key = prop_get o key.
Proof.
  intros Hne. unfold obj_delete. induction o as [|[k v] o IH]; [reflexivity|].
  cbn [filter prop_get]. destruct (String.eqb_spec k field) as [->|Hk]; cbn [negb].
  - destruct (String.eqb_spec field key); [congruence | exact IH].
  - cbn [prop_get]. now rewrite IH.
Qed.

Lemma fold_obj_delete (excluded : list string) :
  forall (o : Record) (key : string),
    has_key (fold_left obj_delete excluded o) key
    = has_key o key && negb (existsb (String.eqb key) excluded)
    /\ (existsb (String.eqb key) excluded = false ->
        prop_get (fold_left obj_delete excluded o) key = prop_get o key).
Proof.
  induction excluded as [|f fs IH]; intros o key; cbn [fold_left existsb].
  - split; [now rewrite andb_true_r | reflexivity].
  - destruct (IH (obj_delete o f) key) as [H1 H2]. split.
    + rewrite H1, has_key_obj_delete, negb_orb. now rewrite andb_assoc.
    + intros H. apply orb_false_iff in H as [Hf Hfs].
      rewrite (H2 Hfs). apply prop_get_obj_delete. now apply String.eqb_neq.
Qed.

(** X11.  With an exclusion-only projection [stripExcludedFields] returns one
    row per input row, in order; no returned row has a key of the projection,
    and every other key keeps its value.  With no projection, or one that is
    not exclusion-only, the rows are returned as they are. *)
Theorem stripExcludedFields_removes_exactly (rows : list Record)
    (projection : option Record) :
  List.length (stripExcludedFields rows projection) = List.length rows
  /\ (forall p fields n row,
        projection = Some p -> getExcludedFields p = Some fields ->
        nth_error rows n = Some row ->
        exists row', nth_error (stripExcludedFields rows projection) n = Some row'
          /\ (forall key, has_key p key = true -> has_key row' key = false)
          /\ (forall key, has_key p key = false ->
                 has_key row' key = has_key row key /\ prop_get row' key = prop_get row key))
  /\ ((projection = None \/ exists p, projection = Some p /\ getExcludedFields p = None) ->
      stripExcludedFields rows projection = rows).
Proof.
  split; [|split].
  - unfold stripExcludedFields. destruct projection as [p|]; [|reflexivity].
    destruct (getExcludedFields p); [apply length_map | reflexivity].
  - intros p fields n row -> Hf Hn. unfold stripExcludedFields. rewrite Hf.
    rewrite nth_error_map, Hn. cbn [option_map]. eexists. split; [reflexivity|].
    assert (K : forall key, existsb (String.eqb key) fields = has_key p key).
    { apply getExcludedFields_fields in Hf. subst fields. intros key. unfold has_key.
      clear. induction p as [|[k v] p IH]; [reflexivity|]. cbn [map fst existsb].
      rewrite IH. now rewrite (String.eqb_sym key k). }
    split; intros key Hk; destruct (fold_obj_delete fields row key) as [H1 H2];
      rewrite K, Hk in *.
    + rewrite H1. apply andb_false_r.
    + split; [rewrite H1; apply andb_true_r | now apply H2].
  - intros [-> | (p & -> & Hp)]; [reflexivity|]. unfold stripExcludedFields. now rewrite Hp.
Qed.

Lemma stripExcludedFields_removes_exactly_witness :
  exists row',
    nth_error (stripExcludedFields [user_row] (Some hide_secrets)) 0 = Some row'
    /\ has_key row' "password" = false /\ has_key row' "token" = false
    /\ prop_get row' "name" = VStr "Ann".
Proof.
  destruct (proj1 (proj2 (@stripExcludedFields_removes_exactly [user_row]
                            (Some hide_secrets)))
              hide_secrets _ 0 user_row eq_refl eq_refl eq_refl)
    as (row' & Hn & Hdel & Hkeep).
  exists row'. split; [exact Hn|]. split; [now apply Hdel|]. split; [now apply Hdel|].
  exact (proj2 (Hkeep "name" eq_refl)).
Defined.

(* ================================================================== *)
(** * Timestamps *)
(* ================================================================== *)

Lemma has_key_obj_set (es : Record) (k key : string) (v : value) :
  has_key (obj_set es k v) key = has_key es key || String.eqb k key.
Proof.
  unfold has_key. induction es as [|[k0 w] es IH]; cbn [obj_set existsb].
  - cbn. now rewrite orb_false_r.
  - destruct (String.eqb_spec k0 k) as [->|Hk]; cbn [existsb].
    + destruct (String.eqb k key); cbn; rewrite ?orb_true_r, ?orb_false_r; reflexivity.
    + rewrite IH. now rewrite orb_assoc.
Qed.




Lemma injectInsertTimestamps_has_keys (doc : Record)
    (config : ResolvedTimestampConfig) (timestamp : value) :
  ts_enabled config = false
  \/ (ts_enabled config = true
      /\ has_key (injectInsertTimestamps doc config timestamp) (createdAt config) = true
      /\ has_key (injectInsertTimestamps doc config timestamp) (updatedAt config) = true).
Proof.
  unfold injectInsertTimestamps. destruct (ts_enabled config); cbn [negb]; [right | now left].
  split; [reflexivity|].
  destruct (has_key doc (createdAt config)) eqn:Hc; cbn [negb].
  - destruct (has_key doc (updatedAt config)) eqn:Hu; cbn [negb]; [now split|].
    rewrite !has_key_obj_set, Hc, String.eqb_refl. split; [reflexivity | apply orb_true_r].
  - destruct (has_key (obj_set doc _ _) (updatedAt config)) eqn:Hu; cbn [negb].
    + split; [|exact Hu]. rewrite has_key_obj_set, String.eqb_refl. apply orb_true_r.
    + split; rewrite !has_key_obj_set, ?String.eqb_refl, ?orb_true_r; reflexivity.
Qed.

(** X13.  [injectInsertTimestamps] is idempotent: a document that went
    through it is returned unchanged by a second pass, also with a later
    timestamp, so a stamp once set is never overwritten. *)
Theorem injectInsertTimestamps_idempotent (doc : Record) (config : ResolvedTimestampConfig)
    (first later : value) :
  injectInsertTimestamps (injectInsertTimestamps doc config first) config later
  = injectInsertTimestamps doc config first.
Proof.
  destruct (injectInsertTimestamps_has_keys doc config first) as [En | (En & Hc & Hu)].
  - unfold injectInsertTimestamps. now rewrite En.
  - unfold injectInsertTimestamps at 1. rewrite En. cbv zeta. rewrite Hc. cbn [negb].
    rewrite Hu. reflexivity.
Qed.




(* ================================================================== *)
(** * Field whitelists *)
(* ================================================================== *)

Lemma is_logical_dollar (key : string) :
  is_logical key = true -> starts_with_dollar key = true.
Proof.
  unfold is_logical. intros H.
  apply orb_true_iff in H as [H | H]; [apply orb_true_iff in H as [H | H]|];
    apply String.eqb_eq in H; now subst.
Qed.

Lemma index_key_not_logical (i : nat) : is_logical (nat_to_string i) = false.
Proof.
  destruct (is_logical (nat_to_string i)) eqn:E; [|reflexivity].
  apply is_logical_dollar in E. pose proof (nat_to_string_digits i) as D.
  destruct (nat_to_string i) as [|c r]; [discriminate E|].
  cbn in E, D. apply Ascii.eqb_eq in E. subst c. discriminate D.
Qed.

Lemma index_entries_keys (xs : list value) :
  forall i key v, In (key, v) (index_entries i xs) -> is_logical key = false.
Proof.
  induction xs as [|x xs IH]; intros i key v; cbn [index_entries In]; [contradiction|].
  intros [H | H].
  - injection H as <- _. apply index_key_not_logical.
  - now apply IH in H.
Qed.

(** Only an object has a logical operator among its entries. *)
Lemma logical_entry_object (f : value) (es : Record) (op : string) (v : value) :
  Object_entries f = Ok es -> In (op, v) es -> is_logical op = true -> f = VObj es.
Proof.
  intros He Hin Hop. destruct f; cbn [Object_entries] in He; try discriminate He;
    apply Ok_inj in He; subst es; try contradiction; try reflexivity;
    apply index_entries_keys in Hin; congruence.
Qed.

Section FieldLoopFacts.

Variable rec : value -> result unit.
Variable collection_ : string.
Variable validFields : list string.
Variable backend_ : Backend.

Lemma each_sub_Ok (subs : list value) :
  each_sub rec subs = Ok tt -> forall sub, In sub subs -> rec sub = Ok tt.
Proof.
  induction subs as [|x subs IH]; cbn [each_sub In]; [contradiction|].
  destruct (rec x) as [[]|] eqn:E; [|discriminate]. intros H sub [<- | Hin]; auto.
Qed.

Lemma each_sub_Throw (subs : list value) (e : exn) :
  each_sub rec subs = Throw e -> exists sub, In sub subs /\ rec sub = Throw e.
Proof.
  induction subs as [|x subs IH]; cbn [each_sub In]; [discriminate|].
  destruct (rec x) as [[]|e'] eqn:E.
  - intros H. destruct (IH H) as (sub & Hin & Hs). exists sub. auto.
  - intros H. injection H as <-. exists x. auto.
Qed.

Lemma validate_entries_Ok (es : Record) :
  validate_entries rec collection_ validFields backend_ es = Ok tt ->
  (forall key v, In (key, v) es -> starts_with_dollar key = false ->
     set_has validFields key = true)
  /\ (forall op subs sub, In (op, VArr subs) es -> is_logical op = true -> In sub subs ->
       rec sub = Ok tt).
Proof.
  induction es as [|[k w] es IH]; cbn [validate_entries In].
  - intros _. split; intros; contradiction.
  - destruct (is_logical k) eqn:Hl.
    + pose proof (is_logical_dollar _ Hl) as Hd.
      assert (K : validate_entries rec collection_ validFields backend_ es = Ok tt ->
                  (forall sub, w = VArr sub -> each_sub rec sub = Ok tt) ->
                  (forall key v, (k, w) = (key, v) \/ In (key, v) es ->
                     starts_with_dollar key = false -> set_has validFields key = true)
                  /\ (forall op subs sub, (k, w) = (op, VArr subs) \/ In (op, VArr subs) es ->
                        is_logical op = true -> In sub subs -> rec sub = Ok tt)).
      { intros H Hw. destruct (IH H) as [I1 I2]. split.
        - intros key v [E | Hin] Hk; [injection E as <- _; congruence | eauto].
        - intros op subs sub [E | Hin] Hop Hs; [|eauto].
          injection E as <- ->. eapply each_sub_Ok; eauto. }
      destruct w as [ | |b|n|s|t|src fl|items|ents];
        try (intros H; apply K; [exact H | discriminate]).
      destruct (each_sub rec items) as [[]|] eqn:Es; [|discriminate].
      intros H. apply K; [exact H|]. now intros sub [= <-].
    + assert (K : validate_entries rec collection_ validFields backend_ es = Ok tt ->
                  (starts_with_dollar k = false -> set_has validFields k = true) ->
                  (forall key v, (k, w) = (key, v) \/ In (key, v) es ->
                     starts_with_dollar key = false -> set_has validFields key = true)
                  /\ (forall op subs sub, (k, w) = (op, VArr subs) \/ In (op, VArr subs) es ->
                        is_logical op = true -> In sub subs -> rec sub = Ok tt)).
      { intros H Hk. destruct (IH H) as [I1 I2]. split.
        - intros key v [E | Hin] Hd; [injection E as <- _; auto | eauto].
        - intros op subs sub [E | Hin] Hop Hs; [injection E as <- _; congruence | eauto]. }
      destruct (starts_with_dollar k) eqn:Hd; [intros H; apply K; [exact H | discriminate]|].
      destruct (set_has validFields k) eqn:Hv; cbn [negb]; [|discriminate].
      intros H. now apply K.
Qed.

Lemma validate_entries_Throw (es : Record) (e : exn) :
  validate_entries rec collection_ validFields backend_ es = Throw e ->
  (exists key v, In (key, v) es /\ starts_with_dollar key = false
     /\ set_has validFields key = false
     /\ e = unknown_field key collection_ validFields backend_)
  \/ (exists op subs sub, In (op, VArr subs) es /\ is_logical op = true /\ In sub subs
        /\ rec sub = Throw e).
Proof.
  induction es as [|[k w] es IH]; cbn [validate_entries In]; [discriminate|].
  assert (K : validate_entries rec collection_ validFields backend_ es = Throw e ->
    (exists key v, ((k, w) = (key, v) \/ In (key, v) es) /\ starts_with_dollar key = false
       /\ set_has validFields key = false
       /\ e = unknown_field key collection_ validFields backend_)
    \/ (exists op subs sub, ((k, w) = (op, VArr subs) \/ In (op, VArr subs) es)
          /\ is_logical op = true /\ In sub subs /\ rec sub = Throw e)).
  { intros H. destruct (IH H) as [(key & v & Hin & R) | (op & subs & sub & Hin & R)].
    - left. exists key, v. auto.
    - right. exists op, subs, sub. auto. }
  destruct (is_logical k) eqn:Hl.
  - destruct w as [ | |b|n|s|t|src fl|items|ents]; try exact K.
    destruct (each_sub rec items) as [[]|e'] eqn:Es; [exact K|].
    intros H. injection H as <-. right.
    destruct (each_sub_Throw _ Es) as (sub & Hin & Hs). exists k, items, sub. auto.
  - destruct (starts_with_dollar k) eqn:Hd; [exact K|].
    destruct (set_has validFields k) eqn:Hv; cbn [negb]; [exact K|].
    intros H. injection H as <-. left. exists k, w. auto.
Qed.

End FieldLoopFacts.

Lemma validateFieldsRecursive_entries (collection_ : string) (validFields : list string)
    (backend_ : Backend) (f : value) (es : Record) :
  Object_entries f = Ok es ->
  (exists ents, f = VObj ents /\ es = ents
     /\ validateFieldsRecursive collection_ f validFields backend_
        = validate_entries (fun sub => validateFieldsRecursive collection_ sub validFields backend_)
            collection_ validFields backend_ es)
  \/ ((forall ents, f <> VObj ents)
      /\ validateFieldsRecursive collection_ f validFields backend_
         = validate_entries (fun _ => Ok tt) collection_ validFields backend_ es).
Proof.
  intros H. destruct f; cbn [Object_entries] in H; try discriminate H;
    apply Ok_inj in H; subst es;
    try (right; split; [discriminate | reflexivity]).
  left. eexists. repeat split.
Qed.

Lemma validateFieldsRecursive_sound (collection_ : string) (validFields : list string)
    (backend_ : Backend) (f : value) (key : string) :
  Names f key ->
  validateFieldsRecursive collection_ f validFields backend_ = Ok tt ->
  set_has validFields key = true.
Proof.
  induction 1 as [f es key v He Hin Hd | f es op subs sub key He Hin Hop Hs Hn IH]; intros H.
  - destruct (validateFieldsRecursive_entries collection_ validFields backend_ f He)
      as [(ents & _ & _ & E) | (_ & E)]; rewrite E in H;
      apply validate_entries_Ok in H as [H _]; eauto.
  - apply IH. pose proof (@logical_entry_object _ _ _ _ He Hin Hop) as ->.
    cbn [validateFieldsRecursive] in H.
    apply validate_entries_Ok in H as [_ H]. eauto.
Qed.

Lemma validateFieldsRecursive_error (collection_ : string) (validFields : list string)
    (backend_ : Backend) :
  forall f,
    (forall e, validateFieldsRecursive collection_ f validFields backend_ = Throw e ->
       FieldError collection_ validFields backend_ f e)
    /\ (forall items, f = VArr items ->
          Forall (fun sub => forall e,
                    validateFieldsRecursive collection_ sub validFields backend_ = Throw e ->
                    FieldError collection_ validFields backend_ sub e) items).
Proof.
  assert (Flat : forall f es e,
            Object_entries f = Ok es ->
            validate_entries (fun _ => Ok tt) collection_ validFields backend_ es = Throw e ->
            FieldError collection_ validFields backend_ f e).
  { intros f es e He H.
    apply validate_entries_Throw in H as [(key & v & Hin & Hd & Hv & ->) | (op & subs & sub & _ & _ & _ & H)];
      [|discriminate H].
    left. exists key. split; [|auto]. eapply Names_here; eauto. }
  induction f as [f Hf | items HF | entries HF] using value_nested_ind.
  - split; [|intros items ->; contradiction].
    intros e H. destruct f; try contradiction; cbn [validateFieldsRecursive Object_entries] in H;
      try (injection H as <-; now right);
      try (eapply Flat; [|exact H]; reflexivity).
  - split.
    + intros e H. cbn [validateFieldsRecursive Object_entries] in H.
      eapply Flat; [|exact H]. reflexivity.
    + intros items' [= <-]. eapply Forall_impl; [|exact HF]. now intros sub [Hs _].
  - split; [|discriminate].
    intros e H. cbn [validateFieldsRecursive] in H.
    apply validate_entries_Throw in H
      as [(key & v & Hin & Hd & Hv & ->) | (op & subs & sub & Hin & Hop & Hs & H)].
    + left. exists key. split; [|auto]. eapply Names_here; eauto. reflexivity.
    + rewrite Forall_forall in HF. destruct (HF _ Hin) as [_ Q]. cbn [snd] in Q.
      specialize (Q subs eq_refl). rewrite Forall_forall in Q.
      destruct (Q sub Hs e H) as [(key & Hn & Hv & ->) | ->]; [|now right].
      left. exists key. split; [|auto]. eapply Names_sub; eauto. reflexivity.
Qed.

(** X16.  When a schema is registered for the collection, a filter that
    [validateFilterFields] accepts names registered fields only: at the top
    level and inside [$and], [$or] and [$nor] at any depth. *)
Theorem validateFilterFields_accepts_registered_only (cache : SchemaCache)
    (collection_ : string) (f : value) (backend_ : Backend) (fields : list string)
    (key : string) :
  cache_get cache collection_ = Some fields ->
  validateFilterFields cache collection_ f backend_ = Ok tt ->
  Names f key ->
  set_has fields key = true.
Proof.
  unfold validateFilterFields. intros -> H Hn.
  eapply validateFieldsRecursive_sound; eauto.
Qed.

(** X17.  [validateFilterFields] refuses a filter only when a schema is
    registered for the collection, and then with the QUERY_ERROR that names a
    field of the filter that is not registered, or with the runtime error of
    a null or undefined sub-filter; without a schema every filter passes. *)
Theorem validateFilterFields_error_names_unregistered (cache : SchemaCache)
    (collection_ : string) (f : value) (backend_ : Backend) (e : exn) :
  validateFilterFields cache collection_ f backend_ = Throw e ->
  exists fields, cache_get cache collection_ = Some fields
    /\ ((exists key, Names f key /\ set_has fields key = false
           /\ e = unknown_field key collection_ fields backend_
           /\ thrown_code (validateFilterFields cache collection_ f backend_)
              = Some QUERY_ERROR)
        \/ e = TypeError "Cannot convert undefined or null to object").
Proof.
  intros H. pose proof H as H'. unfold validateFilterFields in H.
  destruct (cache_get cache collection_) as [fields|]; [|discriminate H].
  exists fields. split; [reflexivity|].
  apply validateFieldsRecursive_error in H as [(key & Hn & Hv & ->) | ->]; [left | now right].
  exists key. rewrite H'. auto.
Qed.

Lemma filter_nested_role_names : Names filter_nested_role "role".
Proof.
  eapply Names_sub with (op := "$or"); [reflexivity | left; reflexivity | reflexivity | |].
  - right. left. reflexivity.
  - eapply Names_sub with (op := "$and");
      [reflexivity | left; reflexivity | reflexivity | left; reflexivity |].
    eapply Names_here; [reflexivity | left; reflexivity | reflexivity].
Qed.

Lemma validateFilterFields_accepts_registered_only_witness :
  set_has ["name"; "role"] "role" = true.
Proof.
  exact (@validateFilterFields_accepts_registered_only users_schema "users"
           filter_nested_role sql ["name"; "role"] "role" eq_refl eq_refl
           filter_nested_role_names).
Defined.

Lemma validateFilterFields_error_names_unregistered_witness :
  exists fields, cache_get users_schema "users" = Some fields
    /\ ((exists key, Names filter_typo key /\ set_has fields key = false
           /\ unknown_field "nme" "users" ["name"; "role"] sql
              = unknown_field key "users" fields sql
           /\ thrown_code (validateFilterFields users_schema "users" filter_typo sql)
              = Some QUERY_ERROR)
        \/ unknown_field "nme" "users" ["name"; "role"] sql
           = TypeError "Cannot convert undefined or null to object").
Proof.
  exact (@validateFilterFields_error_names_unregistered users_schema "users" filter_typo sql
           _ eq_refl).
Defined.

Lemma single_entry_registered (cache : SchemaCache) (collection_ key : string) (v : value)
    (fields : list string) :
  starts_with_dollar key = false ->
  validateFilterFields cache collection_ (VObj [(key, v)]) elastic = Ok tt ->
  cache_get cache collection_ = Some fields ->
  set_has fields key = true.
Proof.
  intros Hd H Hc. unfold validateFilterFields in H. rewrite Hc in H.
  eapply validateFieldsRecursive_sound; [|exact H].
  eapply Names_here; [reflexivity | left; reflexivity | exact Hd].
Qed.

Lemma elastic_entries_Ok (rec : value -> result unit) (cache : SchemaCache)
    (collection_ : string) (es : Record) :
  elastic_entries rec cache collection_ es = Ok tt ->
  (forall key v, In (key, v) es -> starts_with_dollar key = false ->
     set_has ES_INTERNAL_FIELDS key = false
     /\ validateFilterFields cache collection_ (VObj [(key, v)]) elastic = Ok tt)
  /\ (forall op subs sub, In (op, VArr subs) es -> is_logical op = true -> In sub subs ->
       rec sub = Ok tt).
Proof.
  induction es as [|[k w] es IH]; cbn [elastic_entries In].
  - intros _. split; intros; contradiction.
  - destruct (is_logical k) eqn:Hl.
    + pose proof (is_logical_dollar _ Hl) as Hd.
      assert (K : elastic_entries rec cache collection_ es = Ok tt ->
                  (forall sub, w = VArr sub -> each_sub rec sub = Ok tt) ->
                  (forall key v, (k, w) = (key, v) \/ In (key, v) es ->
                     starts_with_dollar key = false ->
                     set_has ES_INTERNAL_FIELDS key = false
                     /\ validateFilterFields cache collection_ (VObj [(key, v)]) elastic
                        = Ok tt)
                  /\ (forall op subs sub, (k, w) = (op, VArr subs) \/ In (op, VArr subs) es ->
                        is_logical op = true -> In sub subs -> rec sub = Ok tt)).
      { intros H Hw. destruct (IH H) as [I1 I2]. split.
        - intros key v [E | Hin] Hk; [injection E as <- _; congruence | eauto].
        - intros op subs sub [E | Hin] Hop Hs; [|eauto].
          injection E as <- ->. eapply each_sub_Ok; eauto. }
      destruct w as [ | |b|n|s|t|src fl|items|ents];
        try (intros H; apply K; [exact H | discriminate]).
      destruct (each_sub rec items) as [[]|] eqn:Es; [|discriminate].
      intros H. apply K; [exact H|]. now intros sub [= <-].
    + assert (K : elastic_entries rec cache collection_ es = Ok tt ->
                  (starts_with_dollar k = false ->
                     set_has ES_INTERNAL_FIELDS k = false
                     /\ validateFilterFields cache collection_ (VObj [(k, w)]) elastic
                        = Ok tt) ->
                  (forall key v, (k, w) = (key, v) \/ In (key, v) es ->
                     starts_with_dollar key = false ->
                     set_has ES_INTERNAL_FIELDS key = false
                     /\ validateFilterFields cache collection_ (VObj [(key, v)]) elastic
                        = Ok tt)
                  /\ (forall op subs sub, (k, w) = (op, VArr subs) \/ In (op, VArr subs) es ->
                        is_logical op = true -> In sub subs -> rec sub = Ok tt)).
      { intros H Hk. destruct (IH H) as [I1 I2]. split.
        - intros key v [E | Hin] Hd; [injection E as <- <-; auto | eauto].
        - intros op subs sub [E | Hin] Hop Hs; [injection E as <- _; congruence | eauto]. }
      destruct (starts_with_dollar k) eqn:Hd; [intros H; apply K; [exact H | discriminate]|].
      destruct (set_has ES_INTERNAL_FIELDS k) eqn:Hv; [discriminate|].
      destruct (validateFilterFields cache collection_ (VObj [(k, w)]) elastic) as [[]|] eqn:Hf;
        [|discriminate].
      intros H. apply K; auto.
Qed.

Lemma validateElasticFields_sound (cache : SchemaCache) (collection_ : string) (f : value)
    (key : string) :
  Names f key ->
  validateElasticFields cache collection_ f = Ok tt ->
  set_has ES_INTERNAL_FIELDS key = false
  /\ (forall fields, cache_get cache collection_ = Some fields -> set_has fields key = true).
Proof.
  induction 1 as [f es key v He Hin Hd | f es op subs sub key He Hin Hop Hs Hn IH]; intros H.
  - assert (E : exists rec, validateElasticFields cache collection_ f
                            = elastic_entries rec cache collection_ es).
    { destruct f; cbn [Object_entries] in He; try discriminate He;
        apply Ok_inj in He; subst es;
        try (exists (fun _ => Ok tt); reflexivity).
      exists (fun sub => validateElasticFields cache collection_ sub). reflexivity. }
    destruct E as [rec E]. rewrite E in H.
    apply elastic_entries_Ok in H as [H _]. destruct (H key v Hin Hd) as [H1 H2].
    split; [exact H1|]. intros fields Hc. eapply single_entry_registered; eauto.
  - apply IH. pose proof (@logical_entry_object _ _ _ _ He Hin Hop) as ->.
    cbn [validateElasticFields] in H.
    apply elastic_entries_Ok in H as [_ H]. eauto.
Qed.

Lemma validateFilterFields_sound_any (cache : SchemaCache) (collection_ : string)
    (f : value) (backend_ : Backend) (fields : list string) (key : string) :
  cache_get cache collection_ = Some fields ->
  validateFilterFields cache collection_ f backend_ = Ok tt ->
  Names f key ->
  set_has fields key = true.
Proof.
  unfold validateFilterFields. intros -> H Hn.
  eapply validateFieldsRecursive_sound; eauto.
Qed.

(** X18.  [sanitizeFilter] never refuses a filter for MongoDB.  A filter it
    accepts for Elasticsearch names no internal field ([_id], [_index],
    [_source], ...), and one it accepts for SQL or Elasticsearch names only
    fields registered for the collection, when a schema is registered: at the
    top level and inside [$and], [$or] and [$nor] at any depth. *)
Theorem sanitizeFilter_accepts_safe_fields_only (cache : SchemaCache) (collection_ : string)
    (f : value) :
  sanitizeFilter cache collection_ f mongo = Ok tt
  /\ (forall backend_ key,
        sanitizeFilter cache collection_ f backend_ = Ok tt -> Names f key ->
        (backend_ = elastic -> set_has ES_INTERNAL_FIELDS key = false)
        /\ (backend_ <> mongo ->
            forall fields, cache_get cache collection_ = Some fields ->
                           set_has fields key = true)).
Proof.
  split; [reflexivity|]. intros backend_ key H Hn.
  destruct backend_; cbn [sanitizeFilter] in H.
  - split; [discriminate | congruence].
  - split; [discriminate|]. intros _ fields Hc.
    eapply validateFilterFields_sound_any; eauto.
  - destruct (@validateElasticFields_sound cache collection_ f key Hn H) as [H1 H2].
    split; auto.
Qed.

Lemma sanitizeFilter_accepts_safe_fields_only_witness :
  set_has ES_INTERNAL_FIELDS "role" = false /\ set_has ["name"; "role"] "role" = true.
Proof.
  destruct (proj2 (@sanitizeFilter_accepts_safe_fields_only users_schema "users"
                     filter_nested_role)
              elastic "role" eq_refl filter_nested_role_names) as [H1 H2].
  split; [exact (H1 eq_refl) | apply H2; [discriminate | reflexivity]].
Defined.

Lemma set_has_In (s : list string) (x : string) : set_has s x = true <-> In x s.
Proof.
  unfold set_has. rewrite existsb_exists. split.
  - intros (y & Hin & E). apply String.eqb_eq in E. now subst.
  - intros H. exists x. split; [assumption | apply String.eqb_refl].
Qed.

Lemma new_Set_from (fields : list string) :
  forall acc, NoDup acc ->
    NoDup (fold_left set_add fields acc)
    /\ (forall x, In x (fold_left set_add fields acc) <-> In x acc \/ In x fields).
Proof.
  induction fields as [|f fields IH]; intros acc Hnd; cbn [fold_left In].
  - split; [assumption | tauto].
  - assert (Hadd : NoDup (set_add acc f) /\ (forall x, In x (set_add acc f) <-> In x acc \/ f = x)).
    { unfold set_add, push. destruct (set_has acc f) eqn:E.
      - apply set_has_In in E. split; [assumption|]. intros x. split; [tauto|].
        intros [H | <-]; assumption.
      - split.
        + apply NoDup_app; [assumption | repeat constructor; intros [] |].
          intros x Hx [<- | []]. apply set_has_In in Hx. congruence.
        + intros x. rewrite in_app_iff. cbn [In]. tauto. }
    destruct Hadd as [N A]. destruct (IH _ N) as [N' A']. split; [assumption|].
    intros x. rewrite A', A. tauto.
Qed.

Lemma cache_get_set (cache : SchemaCache) (c : string) (fields : list string) :
  cache_get (cache_set cache c fields) c = Some fields
  /\ (forall c', c' <> c -> cache_get (cache_set cache c fields) c' = cache_get cache c').
Proof.
  induction cache as [|[k old] cache [IH1 IH2]]; cbn [cache_set cache_get].
  - rewrite String.eqb_refl. split; [reflexivity|]. intros c' Hc.
    now destruct (String.eqb_spec c c'); [congruence|].
  - destruct (String.eqb_spec k c) as [->|Hk]; cbn [cache_get].
    + rewrite String.eqb_refl. split; [reflexivity|]. intros c' Hc.
      now destruct (String.eqb_spec c c'); [congruence|].
    + destruct (String.eqb_spec k c); [contradiction|]. split; [assumption|].
      intros c' Hc. destruct (String.eqb k c'); [reflexivity | now apply IH2].
Qed.

(** X19.  After [registerFields] the collection has a field set without
    repeats whose members are exactly the given fields; what is registered
    for the other collections is not touched, and an earlier registration of
    the same collection is replaced, not merged.  After [clearFieldRegistry]
    nothing is registered. *)
Theorem registerFields_replaces_set (cache : SchemaCache) (c : string) (fields : list string) :
  exists s,
    getRegisteredFields (registerFields cache c fields) c = Some s
    /\ NoDup s
    /\ (forall x, set_has s x = true <-> In x fields)
    /\ (forall c', c' <> c ->
          getRegisteredFields (registerFields cache c fields) c'
          = getRegisteredFields cache c')
    /\ getRegisteredFields (clearFieldRegistry (registerFields cache c fields)) c = None.
Proof.
  unfold getRegisteredFields, registerFields.
  destruct (cache_get_set cache c (new_Set fields)) as [H1 H2].
  exists (new_Set fields). split; [exact H1|].
  destruct (new_Set_from fields (NoDup_nil _)) as [N A].
  split; [exact N|]. split; [|split; [exact H2 | reflexivity]].
  intros x. rewrite set_has_In. unfold new_Set. rewrite A. cbn [In]. tauto.
Qed.

(* ================================================================== *)
(** * Index names *)
(* ================================================================== *)

Lemma includes_char (c : ascii) (s : string) :
  includes (str1 c) s = true <-> In c (list_ascii_of_string s).
Proof.
  induction s as [|c' s IH]; cbn [includes list_ascii_of_string In String.prefix str1].
  - split; [discriminate | contradiction].
  - rewrite orb_true_iff, IH. destruct (ascii_dec c c') as [->|Hne].
    + split; [auto|]. intros _. left. now destruct s.
    + split; [intros [H | H]; [discriminate H | auto] | intros [H | H]; [congruence | auto]].
Qed.

(** X20.  [validateIndexName] accepts a name exactly when it holds no star,
    comma or space and does not start with a dot or a dash; the empty name is
    accepted; every refusal is a QUERY_ERROR of the Elasticsearch backend. *)
Theorem validateIndexName_accepts_iff (name : string) :
  (validateIndexName name = Ok tt
   <-> (forall c, In c (list_ascii_of_string name) ->
          c <> "*"%char /\ c <> ","%char /\ c <> " "%char)
       /\ (forall c rest, name = String c rest -> c <> "."%char /\ c <> "-"%char))
  /\ validateIndexName EmptyString = Ok tt
  /\ (forall e, validateIndexName name = Throw e ->
        exists err, e = StrictErr err /\ code err = QUERY_ERROR /\ backend err = elastic).
Proof.
  split; [|split; [reflexivity|]].
  - unfold validateIndexName.
    pose proof (includes_char "*" name) as I1.
    pose proof (includes_char "," name) as I2.
    pose proof (includes_char " " name) as I3.
    unfold str1 in I1, I2, I3.
    destruct (includes "*" name) eqn:E1; cbn [orb].
    { split; [discriminate|]. intros [H _]. exfalso.
      destruct (H "*"%char) as [H' _]; [now apply I1 | congruence]. }
    destruct (includes "," name) eqn:E2; cbn [orb].
    { split; [discriminate|]. intros [H _]. exfalso.
      destruct (H ","%char) as (_ & H' & _); [now apply I2 | congruence]. }
    destruct (includes " " name) eqn:E3; cbn [orb].
    { split; [discriminate|]. intros [H _]. exfalso.
      destruct (H " "%char) as (_ & _ & H'); [now apply I3 | congruence]. }
    assert (Hchars : forall c, In c (list_ascii_of_string name) ->
                       c <> "*"%char /\ c <> ","%char /\ c <> " "%char).
    { intros c Hin. repeat split; intros ->.
      - apply I1 in Hin. discriminate Hin.
      - apply I2 in Hin. discriminate Hin.
      - apply I3 in Hin. discriminate Hin. }
    unfold startsWith. destruct name as [|c rest]; cbn [String.prefix].
    + cbn. split; [|reflexivity]. intros _. split; [assumption | discriminate].
    + destruct (ascii_dec "." c) as [<-|Hdot]; cbn [orb].
      { assert (P : String.prefix EmptyString rest = true) by now destruct rest.
        rewrite P. split; [discriminate|]. intros [_ H]. exfalso.
        destruct (H "."%char rest eq_refl) as [H' _]. congruence. }
      destruct (ascii_dec "-" c) as [<-|Hdash]; cbn [orb].
      { assert (P : String.prefix EmptyString rest = true) by now destruct rest.
        rewrite P. split; [discriminate|]. intros [_ H]. exfalso.
        destruct (H "-"%char rest eq_refl) as [_ H']. congruence. }
      split; [|reflexivity]. intros _. split; [assumption|].
      intros c' rest' [= <- <-]. split; congruence.
  - unfold validateIndexName. intros e.
    destruct (_ || _); [intros [= <-]; eexists; repeat split|].
    destruct (_ || _); [intros [= <-]; eexists; repeat split | discriminate].
Qed.

(* ================================================================== *)
(** * The errors of the SQL translator *)
(* ================================================================== *)







Section LoopErrors.
Variable rec : value -> nat -> result SqlTranslation.
Variable d : SqlDialect.



End LoopErrors.




(* ================================================================== *)
(** * The relational adapter and [batch] *)
(* ================================================================== *)







Section AdapterErrors.
Variable World : Type.
Variable Date_now : World -> Z.
Variable new_Date : World -> value.
Variables sql_execute pool_query : ExecFn World.
Variable dialect : SqlDialect.
Variable timestampConfig : ResolvedTimestampConfig.

Let adapter := SqlAdapter Date_now sql_execute pool_query dialect.


Ltac layer_cases H :=
  repeat match type of H with
         | context [match ?x with _ => _ end] => destruct x eqn:?
         | context [if ?x then _ else _] => destruct x eqn:?
         end;
  try discriminate H.



(** X23.  An [updateOne] with [upsert] on the relational adapter that
    succeeds either updated rows and inserted none, or matched none and
    inserted one: its receipt never reports that nothing was written, and
    never both. *)
Theorem sql_upsert_receipt_shape (collection_ : string) (f : value) (u : UpdateOperators)
    (w w' : World) (r : OperationReceipt) :
  sql_updateOne Date_now sql_execute pool_query dialect collection_ f u (Some true) w
  = (w', Ok r) ->
  (insertedCount r = 0%Z /\ (0 < modifiedCount r)%Z /\ matchedCount r = modifiedCount r)
  \/ (insertedCount r = 1%Z /\ modifiedCount r = 0%Z /\ matchedCount r = 0%Z).
Proof.
  unfold sql_updateOne. cbv zeta.
  destruct (performUpsert dialect pool_query collection_ f u w) as [w1 [[n ins]|e]] eqn:E;
    [|discriminate].
  intros H. injection H as _ <-. cbn.
  unfold performUpsert in E. layer_cases E; injection E as _ <- <-; [left | right]; auto.
  repeat split. now apply Z.ltb_lt.
Qed.
End AdapterErrors.


Lemma sql_upsert_receipt_shape_witness :
  (insertedCount (hd_receipt upsert_batch_steps) = 0%Z
   /\ (0 < modifiedCount (hd_receipt upsert_batch_steps))%Z
   /\ matchedCount (hd_receipt upsert_batch_steps)
      = modifiedCount (hd_receipt upsert_batch_steps))
  \/ (insertedCount (hd_receipt upsert_batch_steps) = 1%Z
      /\ modifiedCount (hd_receipt upsert_batch_steps) = 0%Z
      /\ matchedCount (hd_receipt upsert_batch_steps) = 0%Z).
Proof.
  exact (@sql_upsert_receipt_shape unit (fun _ => 0%Z) quiet_driver quiet_driver pg
           "users" (VObj [("email", VStr "a@b.c")])
           (mkUpdate (Some [("name", VStr "A")]) None None None None) tt tt _ eq_refl).
Defined.

Section BatchFailure.
Variable World : Type.
Variable Date_now : World -> Z.
Variable new_Date : World -> value.
Variable adapter : DatabaseAdapter World.
Variable timestampConfig : ResolvedTimestampConfig.
Variable this_backend : Backend.
Variable loggerConfig : LoggerConfig.

Lemma batch_loop_app (before after : list BatchOperation) :
  forall c w,
    batch_loop new_Date adapter timestampConfig (before ++ after) c w
    = match batch_loop new_Date adapter timestampConfig before c w with
      | (w1, Ok c1) => batch_loop new_Date adapter timestampConfig after c1 w1
      | (w1, Throw e) => (w1, Throw e)
      end.
Proof.
  induction before as [|op before IH]; intros c w.
  - reflexivity.
  - rewrite <- app_comm_cons. cbn [batch_loop].
    destruct (batch_call new_Date adapter timestampConfig op w) as [w1 [r|e]];
      [apply IH | reflexivity].
Qed.

(** X24.  [batch] stops at the first step that fails: it throws the error of
    that step, the steps after it are not called, no receipt is made and no
    event is logged; the world is the one the failing call left, so what the
    steps before it wrote stays written. *)
Theorem batch_stops_at_first_failure (before after : list BatchOperation)
    (op : BatchOperation) (w w1 w2 : World) (c : Counts) (e : exn) :
  batch_loop new_Date adapter timestampConfig before (mkCounts 0 0 0) w = (w1, Ok c) ->
  batch_call new_Date adapter timestampConfig op w1 = (w2, Throw e) ->
  batch Date_now new_Date adapter timestampConfig this_backend loggerConfig
    (before ++ op :: after) w
  = (w2, [], Throw e).
Proof.
  intros Hb Hop. unfold batch. rewrite batch_loop_app, Hb. cbn [batch_loop].
  now rewrite Hop.
Qed.
End BatchFailure.

Lemma batch_stops_at_first_failure_witness :
  fst (batch (fun _ => 0%Z) (fun _ => VDate "now")
         (SqlAdapter (fun _ => 0%Z) refusing_driver refusing_driver pg)
         timestamps_off sql (mkLoggerConfig true 1000) two_deletes 0)
  = (1, []).
Proof.
  exact (f_equal fst
           (@batch_stops_at_first_failure nat (fun _ => 0%Z) (fun _ => VDate "now")
              (SqlAdapter (fun _ => 0%Z) refusing_driver refusing_driver pg)
              timestamps_off sql (mkLoggerConfig true 1000)
              [] [BDeleteOne "users" filter_role] (BDeleteOne "users" filter_role)
              0 0 1 (mkCounts 0 0 0) _ eq_refl eq_refl)).
Defined.

(** X25.  On the relational adapter the modified and the deleted count of a
    batch receipt are the sums of these counts over the receipts of all its
    steps, and the inserted count is the sum over the insert steps. *)
Theorem batch_sql_counts_are_step_sums (World : Type) (Date_now : World -> Z)
    (new_Date : World -> value) (sql_execute pool_query : ExecFn World)
    (dialect : SqlDialect) (timestampConfig : ResolvedTimestampConfig)
    (this_backend : Backend) (loggerConfig : LoggerConfig)
    (operations : list BatchOperation) (w w' : World) (events : list Event)
    (receipt : OperationReceipt) :
  batch Date_now new_Date (SqlAdapter Date_now sql_execute pool_query dialect)
    timestampConfig this_backend loggerConfig operations w
  = (w', events, Ok receipt) ->
  let rs := step_receipts new_Date (SqlAdapter Date_now sql_execute pool_query dialect)
              timestampConfig operations w in
  modifiedCount receipt = sumZ modifiedCount rs
  /\ deletedCount receipt = sumZ deletedCount rs
  /\ insertedCount receipt = kind_sum is_insert_step insertedCount operations rs.
Proof. apply batch_sql_modified_deleted. Qed.

Lemma batch_sql_counts_are_step_sums_witness :
  exists receipt,
    snd run_upsert_batch = Ok receipt
    /\ modifiedCount receipt = sumZ modifiedCount upsert_batch_steps
    /\ deletedCount receipt = sumZ deletedCount upsert_batch_steps
    /\ insertedCount receipt
       = kind_sum is_insert_step insertedCount upsert_batch upsert_batch_steps.
Proof.
  eexists. split; [reflexivity|].
  exact (@batch_sql_counts_are_step_sums unit (fun _ => 0%Z) (fun _ => VDate "now")
           quiet_driver quiet_driver pg timestamps_off sql (mkLoggerConfig true 1000)
           upsert_batch tt _ _ _ eq_refl).
Defined.


(* ================================================================== *)
(** * The error mappers *)
(* ================================================================== *)







(* ================================================================== *)
(** * Painless scripts *)
(* ================================================================== *)

Lemma bind_all_app (a b : Record) (o : Record) :
  bind_all (a ++ b)%list o = bind_all b (bind_all a o).
Proof. unfold bind_all. apply fold_left_app. Qed.

Lemma script_set_entries_spec (es : Record) :
  forall a,
    params (script_set_entries es a) = bind_all (named "set_" es) (params a)
    /\ List.length (scriptParts (script_set_entries es a))
       = List.length (scriptParts a) + List.length es.
Proof.
  induction es as [|[f v] es IH]; intros a; cbn [script_set_entries named map List.length].
  - split; [reflexivity | lia].
  - destruct (IH {| scriptParts := push (scriptParts a)
                                     ("ctx._source." ++ f ++ " = params." ++ "set_" ++ f);
                    params := obj_set (params a) ("set_" ++ f) v |}) as [H1 H2].
    cbv zeta. rewrite H1, H2. cbn [params scriptParts]. unfold push. rewrite length_app.
    split; [reflexivity | simpl; lia].
Qed.

Lemma script_inc_entries_spec (es : Record) :
  forall a,
    params (script_inc_entries es a) = bind_all (named "inc_" es) (params a)
    /\ List.length (scriptParts (script_inc_entries es a))
       = List.length (scriptParts a) + List.length es.
Proof.
  induction es as [|[f v] es IH]; intros a; cbn [script_inc_entries named map List.length].
  - split; [reflexivity | lia].
  - destruct (IH {| scriptParts := push (scriptParts a)
                                     ("ctx._source." ++ f ++ " += params." ++ "inc_" ++ f);
                    params := obj_set (params a) ("inc_" ++ f) v |}) as [H1 H2].
    cbv zeta. rewrite H1, H2. cbn [params scriptParts]. unfold push. rewrite length_app.
    split; [reflexivity | simpl; lia].
Qed.

Lemma script_unset_entries_spec (es : Record) :
  forall a,
    params (script_unset_entries es a) = params a
    /\ List.length (scriptParts (script_unset_entries es a))
       = List.length (scriptParts a) + List.length es.
Proof.
  induction es as [|[f v] es IH]; intros a; cbn [script_unset_entries List.length].
  - split; [reflexivity | lia].
  - destruct (IH {| scriptParts := push (scriptParts a) ("ctx._source.remove('" ++ f ++ "')");
                    params := params a |}) as [H1 H2].
    rewrite H1, H2. cbn [params scriptParts]. unfold push. rewrite length_app.
    split; [reflexivity | simpl; lia].
Qed.

Lemma script_push_entries_spec (es : Record) :
  forall a,
    params (script_push_entries es a) = bind_all (named "push_" es) (params a)
    /\ List.length (scriptParts (script_push_entries es a))
       = List.length (scriptParts a) + List.length es.
Proof.
  induction es as [|[f v] es IH]; intros a; cbn [script_push_entries named map List.length].
  - split; [reflexivity | lia].
  - cbv zeta.
    match goal with |- context [script_push_entries es ?b] => destruct (IH b) as [H1 H2] end.
    rewrite H1, H2. cbn [params scriptParts]. unfold push. rewrite length_app.
    split; [reflexivity | simpl; lia].
Qed.

Lemma script_pull_entries_spec (es : Record) :
  forall a,
    params (script_pull_entries es a) = bind_all (named "pull_" es) (params a)
    /\ List.length (scriptParts (script_pull_entries es a))
       = List.length (scriptParts a) + List.length es.
Proof.
  induction es as [|[f v] es IH]; intros a; cbn [script_pull_entries named map List.length].
  - split; [reflexivity | lia].
  - cbv zeta.
    match goal with |- context [script_pull_entries es ?b] => destruct (IH b) as [H1 H2] end.
    rewrite H1, H2. cbn [params scriptParts]. unfold push. rewrite length_app.
    split; [reflexivity | simpl; lia].
Qed.

(** The state after the five loops. *)
Lemma translateUpdateToElastic_state (update : UpdateOperators) :
  exists a,
    translateUpdateToElastic update
    = match scriptParts a with
      | [] => Throw no_script_operations
      | _ :: _ => Ok {| ps_source := join "; " (scriptParts a); ps_params := params a |}
      end
    /\ params a = bind_all (script_bindings update) []
    /\ List.length (scriptParts a)
       = List.length (entries_of (u_set update)) + List.length (entries_of (u_inc update))
         + List.length (entries_of (u_unset update))
         + List.length (entries_of (u_push update))
         + List.length (entries_of (u_pull update)).
Proof.
  unfold translateUpdateToElastic, script_bindings.
  set (a0 := mkScriptAcc [] []).
  set (a1 := match u_set update with Some es => script_set_entries es a0 | None => a0 end).
  set (a2 := match u_inc update with Some es => script_inc_entries es a1 | None => a1 end).
  set (a3 := match u_unset update with Some es => script_unset_entries es a2 | None => a2 end).
  set (a4 := match u_push update with Some es => script_push_entries es a3 | None => a3 end).
  set (a5 := match u_pull update with Some es => script_pull_entries es a4 | None => a4 end).
  exists a5. split; [reflexivity|].
  assert (H1 : params a1 = bind_all (named "set_" (entries_of (u_set update))) []
               /\ List.length (scriptParts a1) = List.length (entries_of (u_set update))).
  { subst a1. destruct (u_set update) as [es|]; cbn [entries_of];
      [apply (script_set_entries_spec es a0) | now split]. }
  assert (H2 : params a2 = bind_all (named "inc_" (entries_of (u_inc update))) (params a1)
               /\ List.length (scriptParts a2)
                  = List.length (scriptParts a1) + List.length (entries_of (u_inc update))).
  { subst a2. destruct (u_inc update) as [es|]; cbn [entries_of];
      [apply script_inc_entries_spec | split; [reflexivity | cbn; lia]]. }
  assert (H3 : params a3 = params a2
               /\ List.length (scriptParts a3)
                  = List.length (scriptParts a2) + List.length (entries_of (u_unset update))).
  { subst a3. destruct (u_unset update) as [es|]; cbn [entries_of];
      [apply script_unset_entries_spec | split; [reflexivity | cbn; lia]]. }
  assert (H4 : params a4 = bind_all (named "push_" (entries_of (u_push update))) (params a3)
               /\ List.length (scriptParts a4)
                  = List.length (scriptParts a3) + List.length (entries_of (u_push update))).
  { subst a4. destruct (u_push update) as [es|]; cbn [entries_of];
      [apply script_push_entries_spec | split; [reflexivity | cbn; lia]]. }
  assert (H5 : params a5 = bind_all (named "pull_" (entries_of (u_pull update))) (params a4)
               /\ List.length (scriptParts a5)
                  = List.length (scriptParts a4) + List.length (entries_of (u_pull update))).
  { subst a5. destruct (u_pull update) as [es|]; cbn [entries_of];
      [apply script_pull_entries_spec | split; [reflexivity | cbn; lia]]. }
  destruct H1 as [P1 L1], H2 as [P2 L2], H3 as [P3 L3], H4 as [P4 L4], H5 as [P5 L5].
  split; [|lia].
  rewrite !bind_all_app, <- P1, <- P2, <- P3, <- P4. exact P5.
Qed.

(** X27.  [translateUpdateToElastic] throws, and then its QUERY_ERROR of the
    Elasticsearch backend, exactly when none of the five operators has an
    entry: unlike the SQL translator it accepts an update made of [$push] or
    [$pull] only. *)
Theorem translateUpdateToElastic_throws_iff_no_entries (update : UpdateOperators) :
  (translateUpdateToElastic update = Throw no_script_operations
   <-> entries_of (u_set update) = [] /\ entries_of (u_inc update) = []
       /\ entries_of (u_unset update) = [] /\ entries_of (u_push update) = []
       /\ entries_of (u_pull update) = [])
  /\ (forall e, translateUpdateToElastic update = Throw e -> e = no_script_operations).
Proof.
  destruct (translateUpdateToElastic_state update) as (a & E & _ & L). rewrite E.
  destruct (scriptParts a) as [|p ps]; cbn [List.length] in L.
  - split; [|congruence]. split; [intros _ | reflexivity].
    repeat split; apply length_zero_iff_nil; lia.
  - split; [|discriminate]. split; [discriminate|].
    intros (H1 & H2 & H3 & H4 & H5). rewrite H1, H2, H3, H4, H5 in L. discriminate L.
Qed.

Lemma prop_get_obj_set (o : Record) (k k' : string) (v : value) :
  prop_get (obj_set o k v) k' = if String.eqb k k' then v else prop_get o k'.
Proof.
  induction o as [|[k0 w] o IH]; cbn [obj_set prop_get].
  - now destruct (String.eqb k k').
  - destruct (String.eqb_spec k0 k) as [->|Hk]; cbn [prop_get].
    + now destruct (String.eqb k k').
    + rewrite IH. destruct (String.eqb_spec k0 k') as [->|Hk'].
      * now destruct (String.eqb_spec k k'); [congruence|].
      * reflexivity.
Qed.

Lemma obj_set_length (o : Record) (k : string) (v : value) :
  List.length (obj_set o k v) = if has_key o k then List.length o else S (List.length o).
Proof.
  unfold has_key. induction o as [|[k0 w] o IH]; cbn [obj_set existsb List.length].
  - reflexivity.
  - destruct (String.eqb k0 k); cbn [orb List.length]; [reflexivity|].
    rewrite IH. now destruct (existsb _ o).
Qed.

Lemma bind_all_keeps (bs : Record) :
  forall o k, ~ In k (map fst bs) ->
    prop_get (bind_all bs o) k = prop_get o k /\ has_key (bind_all bs o) k = has_key o k.
Proof.
  unfold bind_all.
  induction bs as [|[k0 v0] bs IH]; intros o k Hk; cbn [fold_left map fst In] in *.
  - now split.
  - destruct (IH (obj_set o k0 v0) k) as [H1 H2]; [tauto|].
    rewrite H1, H2, prop_get_obj_set, has_key_obj_set.
    destruct (String.eqb_spec k0 k) as [->|Hne]; [tauto|].
    split; [reflexivity | apply orb_false_r].
Qed.

Lemma bind_all_binds (bs : Record) :
  forall o k v, NoDup (map fst bs) -> In (k, v) bs -> prop_get (bind_all bs o) k = v.
Proof.
  induction bs as [|[k0 v0] bs IH]; intros o k v Hnd Hin; cbn [map fst In] in *;
    [contradiction|].
  inversion Hnd as [|? ? Hnotin Hnd']; subst.
  change (bind_all ((k0, v0) :: bs) o) with (bind_all bs (obj_set o k0 v0)).
  destruct Hin as [E | Hin].
  - injection E as -> ->.
    rewrite (proj1 (bind_all_keeps bs (obj_set o k v) k Hnotin)) by assumption.
    now rewrite prop_get_obj_set, String.eqb_refl.
  - now apply IH.
Qed.

Lemma bind_all_length (bs : Record) :
  forall o, NoDup (map fst bs) ->
    (forall k, In k (map fst bs) -> has_key o k = false) ->
    List.length (bind_all bs o) = List.length o + List.length bs.
Proof.
  induction bs as [|[k0 v0] bs IH]; intros o Hnd Hfresh; cbn [map fst] in *.
  - unfold bind_all. cbn. lia.
  - inversion Hnd as [|? ? Hnotin Hnd']; subst.
    change (bind_all ((k0, v0) :: bs) o) with (bind_all bs (obj_set o k0 v0)).
    rewrite IH; [|assumption|].
    + rewrite obj_set_length, (Hfresh k0) by (now left). cbn [List.length]. lia.
    + intros k Hin. rewrite has_key_obj_set, (Hfresh k) by (now right).
      destruct (String.eqb_spec k0 k) as [->|]; [contradiction | reflexivity].
Qed.

Lemma str_app_inv_head (p a b : string) : p ++ a = p ++ b -> a = b.
Proof. induction p as [|c p IH]; cbn [append]; [auto|]. intros H. injection H as H. auto. Qed.

Lemma named_keys (p : string) (es : Record) :
  map fst (named p es) = map (append p) (map fst es).
Proof.
  unfold named. rewrite !map_map. apply map_ext. now intros [f v].
Qed.

Lemma named_NoDup (p : string) (es : Record) :
  NoDup (map fst es) -> NoDup (map fst (named p es)).
Proof.
  rewrite named_keys. generalize (map fst es) as ks.
  induction 1 as [|k ks Hk _ IH]; cbn [map]; constructor; [|assumption].
  rewrite in_map_iff. intros (k' & E & Hin). apply str_app_inv_head in E. now subst.
Qed.

Lemma named_In (p : string) (es : Record) (f : string) (v : value) :
  In (f, v) es -> In (p ++ f, v) (named p es).
Proof.
  unfold named. intros H. apply in_map_iff. exists (f, v). now split.
Qed.

Lemma named_key_prefix (p : string) (es : Record) (k : string) :
  In k (map fst (named p es)) -> String.prefix p k = true.
Proof.
  rewrite named_keys, in_map_iff. intros (f & <- & _).
  induction p as [|c p IH]; cbn [append String.prefix]; [now destruct f|].
  destruct (ascii_dec c c); [assumption | contradiction].
Qed.

Lemma script_bindings_NoDup (update : UpdateOperators) :
  NoDup (map fst (entries_of (u_set update))) ->
  NoDup (map fst (entries_of (u_inc update))) ->
  NoDup (map fst (entries_of (u_push update))) ->
  NoDup (map fst (entries_of (u_pull update))) ->
  NoDup (map fst (script_bindings update)).
Proof.
  intros Hs Hi Hp Hl. unfold script_bindings. rewrite !map_app.
  assert (X : forall p q : string,
            (forall r, String.prefix p r = true -> String.prefix q r = true -> False) ->
            forall a b k, In k (map fst (named p a)) -> ~ In k (map fst (named q b))).
  { intros p q Hpq a b k Ha Hb.
    exact (Hpq k (named_key_prefix _ _ _ Ha) (named_key_prefix _ _ _ Hb)). }
  assert (P : forall p q : string,
            (exists n, get n p <> get n q /\ get n p <> None /\ get n q <> None) ->
            forall r, String.prefix p r = true -> String.prefix q r = true -> False).
  { intros p q (n & Hne & Hp1 & Hq1) r Hpr Hqr.
    apply Hne.
    assert (G : forall (u w : string) m, String.prefix u w = true -> get m u <> None ->
                  get m u = get m w).
    { induction u as [|c u IHu]; intros w m Hu Hm; [now destruct m|].
      destruct w as [|c' w]; cbn [String.prefix] in Hu; [discriminate|].
      destruct (ascii_dec c c') as [->|]; [|discriminate].
      destruct m; cbn [get]; [reflexivity | now apply IHu]. }
    now rewrite (G p r n Hpr Hp1), (G q r n Hqr Hq1). }
  assert (Dis : forall (n : nat) (p q : string) a b k,
            get n p <> get n q -> get n p <> None -> get n q <> None ->
            In k (map fst (named p a)) -> In k (map fst (named q b)) -> False).
  { intros n p q a b k H1 H2 H3. apply X, P. exists n. auto. }
  apply NoDup_app; [now apply named_NoDup | |].
  - apply NoDup_app; [now apply named_NoDup | |].
    + apply NoDup_app; [now apply named_NoDup | now apply named_NoDup |].
      intros k H1 H2. revert H1 H2. apply (Dis 2); cbn; discriminate.
    + intros k H1 H2. rewrite !in_app_iff in H2. destruct H2 as [H2 | H2];
        revert H1 H2; apply (Dis 0); cbn; discriminate.
  - intros k H1 H2. rewrite !in_app_iff in H2. destruct H2 as [H2 | [H2 | H2]];
      revert H1 H2; apply (Dis 0); cbn; discriminate.
Qed.

(** X28.  When no operator names a field twice, every parameter of the script
    of [translateUpdateToElastic] is bound to the value of its own entry: the
    names of the operators never collide, [$unset] binds nothing, and there
    is no parameter besides those of [$set], [$inc], [$push] and [$pull]. *)
Theorem translateUpdateToElastic_params_bound (update : UpdateOperators)
    (script : PainlessScript) :
  NoDup (map fst (entries_of (u_set update))) ->
  NoDup (map fst (entries_of (u_inc update))) ->
  NoDup (map fst (entries_of (u_push update))) ->
  NoDup (map fst (entries_of (u_pull update))) ->
  translateUpdateToElastic update = Ok script ->
  (forall f v, In (f, v) (entries_of (u_set update)) ->
     prop_get (ps_params script) ("set_" ++ f) = v)
  /\ (forall f v, In (f, v) (entries_of (u_inc update)) ->
        prop_get (ps_params script) ("inc_" ++ f) = v)
  /\ (forall f v, In (f, v) (entries_of (u_push update)) ->
        prop_get (ps_params script) ("push_" ++ f) = v)
  /\ (forall f v, In (f, v) (entries_of (u_pull update)) ->
        prop_get (ps_params script) ("pull_" ++ f) = v)
  /\ List.length (ps_params script)
     = List.length (entries_of (u_set update)) + List.length (entries_of (u_inc update))
       + List.length (entries_of (u_push update)) + List.length (entries_of (u_pull update)).
Proof.
  intros Hs Hi Hp Hl H.
  pose proof (script_bindings_NoDup update Hs Hi Hp Hl) as Hnd.
  destruct (translateUpdateToElastic_state update) as (a & E & P & _).
  rewrite E in H. destruct (scriptParts a); [discriminate H|].
  apply Ok_inj in H. subst script. cbn [ps_params]. rewrite P.
  assert (B : forall k v, In (k, v) (script_bindings update) ->
                prop_get (bind_all (script_bindings update) []) k = v).
  { intros k v Hin. now apply bind_all_binds. }
  repeat split.
  - intros f v Hin. apply B. unfold script_bindings. rewrite !in_app_iff.
    left. now apply named_In.
  - intros f v Hin. apply B. unfold script_bindings. rewrite !in_app_iff.
    right. left. now apply named_In.
  - intros f v Hin. apply B. unfold script_bindings. rewrite !in_app_iff.
    right. right. left. now apply named_In.
  - intros f v Hin. apply B. unfold script_bindings. rewrite !in_app_iff.
    right. right. right. now apply named_In.
  - rewrite bind_all_length; [|assumption | reflexivity].
    unfold script_bindings, named. rewrite !length_app, !length_map. cbn. lia.
Qed.

Lemma translateUpdateToElastic_params_bound_witness :
  exists script,
    translateUpdateToElastic update_all_five = Ok script
    /\ prop_get (ps_params script) "push_tags" = VStr "a"
    /\ prop_get (ps_params script) "pull_tags" = VStr "b"
    /\ List.length (ps_params script) = 4.
Proof.
  eexists. split; [reflexivity|].
  assert (N : forall k : string, NoDup [k]) by (intros k; repeat constructor; intros []).
  destruct (@translateUpdateToElastic_params_bound update_all_five _
              (N "name") (N "visits") (N "tags") (N "tags") eq_refl)
    as (_ & _ & Hpush & Hpull & Hlen).
  split; [apply (Hpush "tags"); now left|].
  split; [apply (Hpull "tags"); now left | exact Hlen].
Defined.


(* ================================================================== *)
(** * Edit distance and suggestions *)
(* ================================================================== *)

Lemma lev_spec_nil_r (a : list ascii) : lev_spec a [] = List.length a.
Proof. now destruct a. Qed.

Lemma lev_spec_cons (ca cb : ascii) (a b : list ascii) :
  lev_spec (ca :: a) (cb :: b)
  = Nat.min (Nat.min (lev_spec a (cb :: b) + 1) (lev_spec (ca :: a) b + 1))
      (lev_spec a b + (if Ascii.eqb ca cb then 0 else 1)).
Proof. reflexivity. Qed.

Lemma fill_row_cells (ca : ascii) (r : list ascii) :
  forall brem rb,
    fill_row ca brem (cells r rb brem) (lev_spec (ca :: r) rb) (lev_spec r rb)
    = cells (ca :: r) rb brem.
Proof.
  induction brem as [|cb b' IH]; intros rb; cbn [fill_row cells]; [reflexivity|].
  cbv zeta. rewrite <- lev_spec_cons. f_equal. apply IH.
Qed.

Lemma fill_rows_cells (b : list ascii) :
  forall a r,
    fill_rows a b (S (List.length r)) (List.length r :: cells r [] b)
    = List.length (List.rev a ++ r) :: cells (List.rev a ++ r) [] b.
Proof.
  induction a as [|ca a IH]; intros r; cbn [fill_rows List.rev app]; [reflexivity|].
  cbn [tl hd].
  pose proof (fill_row_cells ca r b []) as F.
  rewrite (lev_spec_nil_r r) in F.
  change (lev_spec (ca :: r) []) with (S (List.length r)) in F. rewrite F.
  rewrite <- app_assoc. cbn [app]. apply (IH (ca :: r)).
Qed.

Lemma cells_nil (b : list ascii) :
  forall rb, cells [] rb b = seq (S (List.length rb)) (List.length b).
Proof.
  induction b as [|cb b IH]; intros rb; cbn [cells seq List.length]; [reflexivity|].
  f_equal. apply (IH (cb :: rb)).
Qed.

Lemma last_cells (r : list ascii) :
  forall brem rb x,
    x = lev_spec r rb -> last (x :: cells r rb brem) 0 = lev_spec r (List.rev brem ++ rb).
Proof.
  induction brem as [|cb b' IH]; intros rb x Hx; cbn [cells List.rev app].
  - exact Hx.
  - rewrite <- app_assoc. cbn [app].
    change (last (x :: lev_spec r (cb :: rb) :: cells r (cb :: rb) b') 0)
      with (last (lev_spec r (cb :: rb) :: cells r (cb :: rb) b') 0).
    now apply IH.
Qed.

Lemma string_length_list (s : string) :
  String.length s = List.length (list_ascii_of_string s).
Proof. induction s; cbn; congruence. Qed.

(** The table computes the recurrence. *)
Lemma levenshtein_lev_spec (a b : string) :
  levenshtein a b
  = lev_spec (List.rev (list_ascii_of_string a)) (List.rev (list_ascii_of_string b)).
Proof.
  unfold levenshtein. cbv zeta. rewrite string_length_list.
  set (la := list_ascii_of_string a). set (lb := list_ascii_of_string b).
  change (seq 0 (S (List.length lb))) with (0 :: seq 1 (List.length lb)).
  pose proof (cells_nil lb []) as C. cbn [List.length] in C. rewrite <- C.
  pose proof (fill_rows_cells lb la []) as H. cbn [List.length] in H. rewrite H.
  rewrite !app_nil_r. rewrite last_cells with (rb := []) by (now rewrite lev_spec_nil_r).
  now rewrite app_nil_r.
Qed.

Lemma lev_spec_sym : forall a b, lev_spec a b = lev_spec b a.
Proof.
  induction a as [|ca a IHa]; intros b.
  - now rewrite lev_spec_nil_r.
  - induction b as [|cb b IHb]; [reflexivity|].
    rewrite !lev_spec_cons, <- IHb, (IHa (cb :: b)), (IHa b), (Ascii.eqb_sym ca cb).
    lia.
Qed.

Lemma lev_spec_zero : forall a b, lev_spec a b = 0 <-> a = b.
Proof.
  induction a as [|ca a IH]; intros [|cb b].
  - now split.
  - cbn. split; discriminate.
  - cbn. split; discriminate.
  - rewrite lev_spec_cons. destruct (Ascii.eqb_spec ca cb) as [->|Hne].
    + split.
      * intros H. f_equal. apply IH. lia.
      * intros [= ->]. assert (lev_spec b b = 0) by now apply IH. lia.
    + split; [intros H; lia | intros [= -> ->]; contradiction].
Qed.

Lemma list_ascii_app (a b : string) :
  list_ascii_of_string (a ++ b)
  = (list_ascii_of_string a ++ list_ascii_of_string b)%list.
Proof. induction a as [|c a IH]; cbn; [reflexivity | now rewrite IH]. Qed.

Lemma list_ascii_inj (a b : string) :
  list_ascii_of_string a = list_ascii_of_string b -> a = b.
Proof.
  intros H. rewrite <- (string_of_list_ascii_of_string a),
    <- (string_of_list_ascii_of_string b). now rewrite H.
Qed.

Lemma levenshtein_zero (a b : string) : levenshtein a b = 0 <-> a = b.
Proof.
  rewrite levenshtein_lev_spec, lev_spec_zero. split.
  - intros H. apply list_ascii_inj.
    now rewrite <- (rev_involutive (list_ascii_of_string a)), H, rev_involutive.
  - now intros ->.
Qed.

(** X29.  [levenshtein] is the edit distance: it is the length of the other
    word when one word is empty, it obeys the recurrence of the distance on
    the last characters, it is symmetric, and it is zero exactly for equal
    words. *)
Theorem levenshtein_is_edit_distance (a b : string) (c d : ascii) :
  levenshtein a EmptyString = String.length a
  /\ levenshtein EmptyString b = String.length b
  /\ levenshtein (a ++ str1 c) (b ++ str1 d)
     = Nat.min (Nat.min (levenshtein a (b ++ str1 d) + 1) (levenshtein (a ++ str1 c) b + 1))
         (levenshtein a b + (if Ascii.eqb c d then 0 else 1))
  /\ levenshtein a b = levenshtein b a
  /\ (levenshtein a b = 0 <-> a = b).
Proof.
  rewrite !levenshtein_lev_spec, !list_ascii_app. cbn [list_ascii_of_string str1 List.rev].
  rewrite !rev_app_distr. cbn [List.rev app].
  split; [|split; [|split; [|split]]].
  - now rewrite lev_spec_nil_r, length_rev, string_length_list.
  - cbn [lev_spec]. now rewrite length_rev, string_length_list.
  - apply lev_spec_cons.
  - apply lev_spec_sym.
  - rewrite <- !levenshtein_lev_spec. apply levenshtein_zero.
Qed.

Section ClosestLoop.
Variable input : string.

Let dist := name_distance input.

Let State (seen : list string) (best : option string) (bd : option nat) : Prop :=
  match best, bd with
  | None, None => forall c, In c seen -> 3 < dist c
  | Some b, Some d =>
      d = dist b /\ d <= 3
      /\ exists before after,
           seen = (before ++ b :: after)%list
           /\ (forall c, In c before -> d < dist c)
           /\ (forall c, In c after -> d <= dist c)
  | _, _ => False
  end.

Lemma closest_loop_Closest :
  forall cs seen best bd,
    State seen best bd ->
    Closest dist (seen ++ cs) (closest_loop input cs best bd).
Proof.
  induction cs as [|c cs IH]; intros seen best bd HS; cbn [closest_loop].
  - rewrite app_nil_r. destruct best as [b|], bd as [d|]; try contradiction; cbn.
    + destruct HS as (-> & Hd & Hex). split; assumption.
    + exact HS.
  - cbv zeta. fold (name_distance input c). fold dist.
    replace (seen ++ c :: cs)%list with ((seen ++ [c]) ++ cs)%list
      by (now rewrite <- app_assoc).
    destruct best as [b|], bd as [d|]; try contradiction.
    + destruct HS as (-> & Hd & before & after & -> & Hb & Ha).
      destruct (Nat.ltb_spec (dist c) (dist b)) as [Hlt|Hge]; cbn [andb].
      * destruct (Nat.leb_spec (dist c) 3) as [Hle|Hgt]; [|lia].
        apply IH. cbn. split; [reflexivity|]. split; [assumption|].
        exists (before ++ b :: after)%list, []. split; [reflexivity|].
        split; [|intros x []].
        intros x Hx. apply in_app_iff in Hx as [Hx | [<- | Hx]].
        -- specialize (Hb x Hx). lia.
        -- assumption.
        -- specialize (Ha x Hx). lia.
      * apply IH. cbn. split; [reflexivity|]. split; [assumption|].
        exists before, (after ++ [c])%list. split; [now rewrite <- app_assoc|].
        split; [assumption|].
        intros x Hx. apply in_app_iff in Hx as [Hx | [<- | []]]; [now apply Ha | assumption].
    + cbn [andb]. destruct (Nat.leb_spec (dist c) 3) as [Hle|Hgt].
      * apply IH. cbn. split; [reflexivity|]. split; [assumption|].
        exists seen, []. split; [reflexivity|]. split; [|intros x []].
        intros x Hx. specialize (HS x Hx). lia.
      * apply IH. cbn. intros x Hx.
        apply in_app_iff in Hx as [Hx | [<- | []]]; [now apply HS | assumption].
Qed.
End ClosestLoop.

(** X30.  [findClosestMatch] returns the first of the candidates whose
    distance to the input, letter case aside, is least, when that distance is
    at most 3, and nothing when every candidate is farther than 3; a
    candidate that equals the input but for case is therefore always found. *)
Theorem findClosestMatch_is_nearest (input : string) (candidates : list string) :
  Closest (name_distance input) candidates (findClosestMatch input candidates)
  /\ (forall c, In c candidates -> toLowerCase c = toLowerCase input ->
        exists best, findClosestMatch input candidates = Some best
                     /\ toLowerCase best = toLowerCase input).
Proof.
  assert (C : Closest (name_distance input) candidates (findClosestMatch input candidates)).
  { unfold findClosestMatch. destruct candidates as [|c cs]; [intros x []|].
    apply (closest_loop_Closest input (c :: cs) [] None None). intros x []. }
  split; [exact C|].
  intros c Hin Hc.
  assert (Z : name_distance input c = 0).
  { unfold name_distance. rewrite Hc. now apply levenshtein_zero. }
  destruct (findClosestMatch input candidates) as [best|]; cbn in C.
  - exists best. split; [reflexivity|].
    destruct C as (_ & before & after & -> & Hb & Ha).
    assert (Z' : name_distance input best = 0).
    { apply in_app_iff in Hin as [Hin | [<- | Hin]].
      - specialize (Hb c Hin). lia.
      - assumption.
      - specialize (Ha c Hin). lia. }
    symmetry. now apply levenshtein_zero.
  - specialize (C c Hin). lia.
Qed.
